(** * Razor Indent Formatter: a shallow embedding of [formatter.ts]

    The formatter recomputes the leading whitespace of every line of a
    document that mixes HTML tags, Razor directives and raw script/style
    regions.  This development embeds the richest version of the formatter
    (the one with switch/case layout and Razor text lines) and states its
    contract as theorems.

    Conventions of the embedding.
    - A JavaScript string is the list of its UTF-16 code units, each a
      natural number ([N]).  String literals of the source are written with
      [lit].
    - JavaScript numbers that hold nesting levels and widths are integers
      ([Z]); [Math.max(0, _)] is [Z.max 0 _].  Line indices are [nat].  The
      indent size option is any number ([JsNumber]): NaN, an infinity or a
      finite value, so that the tests and the [Math.floor] of
      [sanitizeIndentSize] are visible.
    - [String(n)] prints the double nearest to the integer [n], in the
      exponent form from [1e21] on ([numberToString]).
    - Arrays indexed by line number are lists read with [!!] and written
      with [<[i:=x]>]; all writes of the source are in range.
    - Every regular expression of the source is a hand-written matcher with
      the same language and the same captures; the comment above each says
      which expression it stands for.  [\s] is the ECMAScript white space
      and line terminator set, [.] is every code unit but a line terminator,
      and the [i] flag without [u] folds ASCII letters only.
    - Loops over an index are recursive functions over the lines still to
      come; where the source advances the index by more than one, a counter
      tells how many units to pass over.
    - Sums and products of widths are those of the integers.  The doubles
      of the source agree with them below [2^53]; a width beyond that is
      beyond the longest string of any host.
    - [' '.repeat(count)] throws a RangeError for a negative count and
      for a count beyond the longest string of the host, a parameter
      [maxLength] of the embedding.  [spaces count] is the string the call
      returns; [repeatThrows] tells when it throws instead, and
      [formatTextThrows] when a call of [formatText] makes such a call, so
      that [formatText input options] is the result of the calls that
      return ([formatTextRun]).  No other limit of the host is part of the
      embedding: every other string operation is taken to succeed. *)

From Stdlib Require Import ZArith NArith List String Ascii Lia QArith Qround DecimalString.
From stdpp Require Import base list.
Import ListNotations.
Open Scope Z_scope.

(* ================================================================== *)
(** ** Strings *)

Abbreviation jstring := (list N).

Definition lit (s : string) : jstring :=
  List.map N_of_ascii (list_ascii_of_string s).

Definition ch_tab : N := 9.
Definition ch_lf : N := 10.
Definition ch_cr : N := 13.
Definition ch_space : N := 32.
Definition ch_dquote : N := 34.
Definition ch_squote : N := 39.
Definition ch_lparen : N := 40.
Definition ch_rparen : N := 41.
Definition ch_star : N := 42.
Definition ch_minus : N := 45.
Definition ch_slash : N := 47.
Definition ch_colon : N := 58.
Definition ch_lt : N := 60.
Definition ch_gt : N := 62.
Definition ch_at : N := 64.
Definition ch_underscore : N := 95.
Definition ch_backtick : N := 96.
Definition ch_lbrace : N := 123.
Definition ch_rbrace : N := 125.

(** [\s]: WhiteSpace and LineTerminator of ECMAScript. *)
Definition isSpace (c : N) : bool :=
  ((9 <=? c) && (c <=? 13) || (c =? 32) || (c =? 160) || (c =? 5760)
   || (8192 <=? c) && (c <=? 8202) || (c =? 8232) || (c =? 8233)
   || (c =? 8239) || (c =? 8287) || (c =? 12288) || (c =? 65279))%N.

(** The code units [.] does not match. *)
Definition isLineTerminator (c : N) : bool :=
  ((c =? 10) || (c =? 13) || (c =? 8232) || (c =? 8233))%N.

Definition isUpper (c : N) : bool := ((65 <=? c) && (c <=? 90))%N.
Definition isLower (c : N) : bool := ((97 <=? c) && (c <=? 122))%N.
Definition isDigit (c : N) : bool := ((48 <=? c) && (c <=? 57))%N.

(** [\w], used through [\b]. *)
Definition isWordChar (c : N) : bool :=
  isUpper c || isLower c || isDigit c || (c =? ch_underscore)%N.

(** [[a-zA-Z0-9:-]]. *)
Definition isTagNameChar (c : N) : bool :=
  isUpper c || isLower c || isDigit c || (c =? ch_colon)%N || (c =? ch_minus)%N.

Definition toLowerChar (c : N) : N := if isUpper c then (c + 32)%N else c.

(** [String.prototype.toLowerCase], on the ASCII letters.  The source only
    compares the lowered text with ASCII prefixes and with ASCII tag names;
    no other code unit lowers to a letter of those. *)
Definition toLowerCase (s : jstring) : jstring := List.map toLowerChar s.

Fixpoint eqStr (a b : jstring) : bool :=
  match a, b with
  | [], [] => true
  | x :: a', y :: b' => (x =? y)%N && eqStr a' b'
  | _, _ => false
  end.

(** Comparison of the one-unit string [char] with a literal. *)
Definition charIs (c : N) (s : jstring) : bool := eqStr [c] s.

(** [s.startsWith(p)], returning what follows the prefix. *)
Fixpoint stripPrefix (p s : jstring) : option jstring :=
  match p with
  | [] => Some s
  | x :: p' =>
      match s with
      | [] => None
      | y :: s' => if (x =? y)%N then stripPrefix p' s' else None
      end
  end.

Definition startsWith (s p : jstring) : bool :=
  match stripPrefix p s with Some _ => true | None => false end.

(** A literal prefix under the [i] flag (the literal is lower case). *)
Fixpoint stripPrefixCI (p s : jstring) : option jstring :=
  match p with
  | [] => Some s
  | x :: p' =>
      match s with
      | [] => None
      | y :: s' => if (x =? toLowerChar y)%N then stripPrefixCI p' s' else None
      end
  end.

Fixpoint dropWhile (f : N -> bool) (s : jstring) : jstring :=
  match s with
  | [] => []
  | c :: s' => if f c then dropWhile f s' else s
  end.

Fixpoint takeWhile (f : N -> bool) (s : jstring) : jstring :=
  match s with
  | [] => []
  | c :: s' => if f c then c :: takeWhile f s' else []
  end.

Definition trimStart (s : jstring) : jstring := dropWhile isSpace s.
Definition trimEnd (s : jstring) : jstring := rev (dropWhile isSpace (rev s)).
Definition trim (s : jstring) : jstring := trimEnd (trimStart s).

Definition isEmpty {A : Type} (s : list A) : bool :=
  match s with [] => true | _ => false end.

(** The string [' '.repeat(n)] returns.  The call does not return for
    every count; [repeatThrows] below tells when it throws. *)
Definition spaces (n : Z) : jstring := repeat ch_space (Z.to_nat n).

Fixpoint join (sep : jstring) (ls : list jstring) : jstring :=
  match ls with
  | [] => []
  | [l] => l
  | l :: ls' => l ++ sep ++ join sep ls'
  end.

(** The digits of a natural number. *)
Definition decimal (n : Z) : jstring := lit (NilZero.string_of_int (Z.to_int n)).

(** The double nearest to a positive integer: the integer itself below
    [2^53], beyond that its 53 leading bits rounded to nearest, ties to
    even. *)
Definition roundToDouble (n : Z) : Z :=
  let shift := Z.log2 n - 52 in
  if shift <=? 0 then n
  else
    let q := Z.shiftr n shift in
    let r := Z.land n (Z.ones shift) in
    let half := Z.shiftl 1 (shift - 1) in
    let q' := if (half <? r) || ((r =? half) && Z.odd q) then q + 1 else q in
    Z.shiftl q' shift.

Fixpoint stripZeros (fuel : nat) (s p : Z) : Z * Z :=
  match fuel with
  | O => (s, p)
  | S fuel' =>
      if (s mod 10 =? 0) && (0 <? s) then stripZeros fuel' (s / 10) (p + 1) else (s, p)
  end.

(** The shortest decimal [s * 10^p] that reads back as the double [x], and
    the nearest to [x] when two are as short (Number::toString, step 5):
    [k] digits are tried for [k = 1, 2, ...]; [d] is the number of digits
    of [x]. *)
Fixpoint shortestDecimal (fuel : nat) (x d k : Z) : Z * Z :=
  match fuel with
  | O => (x, 0)
  | S fuel' =>
      let p := d - k in
      let lo := x / 10 ^ p in
      let hi := lo + 1 in
      let okLo := roundToDouble (lo * 10 ^ p) =? x in
      let okHi := roundToDouble (hi * 10 ^ p) =? x in
      let below := x - lo * 10 ^ p in
      let above := hi * 10 ^ p - x in
      if okLo && (negb okHi || (below <? above) || ((below =? above) && Z.even lo))
      then (lo, p)
      else if okHi then stripZeros (Z.to_nat k) hi p
      else shortestDecimal fuel' x d (k + 1)
  end.

(** The largest double. *)
Definition MAX_DOUBLE : Z := (2 ^ 53 - 1) * 2 ^ 971.

(** [String(x)] for a positive integer: the digits followed by zeros up
    to 21 digits, the exponent form beyond. *)
Definition positiveToString (n : Z) : jstring :=
  let x := roundToDouble n in
  if MAX_DOUBLE <? x then lit "Infinity"
  else
    let d := Z.of_nat (length (decimal x)) in
    let '(s, p) := shortestDecimal (Z.to_nat d) x d 1 in
    let digits := decimal s in
    let n := Z.of_nat (length digits) + p in
    if n <=? 21 then digits ++ repeat 48%N (Z.to_nat p)
    else
      match digits with
      | [] => []
      | first :: more =>
          first :: (if isEmpty more then [] else 46%N :: more)
          ++ lit "e+" ++ decimal (n - 1)
      end.

(** [String(n)] for an integer. *)
Definition numberToString (n : Z) : jstring :=
  if n =? 0 then lit "0"
  else if n <? 0 then ch_minus :: positiveToString (- n)
  else positiveToString n.

(** [s.includes(p)]. *)
Fixpoint includes (s p : jstring) : bool :=
  startsWith s p ||
  match s with
  | [] => false
  | _ :: s' => includes s' p
  end.

Definition noLineTerminator (s : jstring) : bool :=
  forallb (fun c => negb (isLineTerminator c)) s.

(* ================================================================== *)
(** ** Types of the source *)

(** A number of the source where it need not be an integer: the indent
    size option.  A finite double is a rational. *)
Inductive JsNumber :=
| NaN
| Infinity (negative : bool)
| Finite (value : Q).

Record FormatOptions := {
  indentSize : JsNumber;
  adjustTextBlocks : bool
}.

Record FormatResult := {
  output : jstring;
  logs : list jstring;
  error : option jstring
}.

Record LineInfo := {
  original : jstring;
  leading : jstring;
  rest : jstring;
  leadingWidth : Z
}.

Record TextBlock := {
  startLine : nat;
  endLine : nat;
  parentLevel : Z;
  tagName : jstring;
  skip : bool
}.

Record RawLineMeta := {
  isRawBlock : bool;
  isCaseOrDefault : bool;
  isBreak : bool;
  isSwitchLine : bool
}.

Definition VOID_TAGS : list jstring :=
  List.map lit ["area"; "base"; "br"; "col"; "embed"; "hr"; "img"; "input";
                "link"; "meta"; "param"; "source"; "track"; "wbr"]%string.

Definition RAW_TAGS : list jstring := List.map lit ["script"; "style"]%string.

Definition setHas (set : list jstring) (s : jstring) : bool :=
  existsb (eqStr s) set.

Definition HTML_COMMENT_OPEN : jstring := lit "<!--".
Definition HTML_COMMENT_CLOSE : jstring := lit "-->".

(* ================================================================== *)
(** ** The line model *)

(** [sanitizeIndentSize]: the test [!Number.isFinite(value)] holds of NaN
    and of the infinities; for a finite value the test [value <= 0] and
    [Math.floor] are those of the rationals. *)
Definition sanitizeIndentSize (value : JsNumber) : Z :=
  match value with
  | NaN | Infinity _ => 2
  | Finite q => if Qle_bool q 0 then 2 else Qfloor q
  end.

(** [input.split(/\r\n|\n/)]. *)
Definition consHead (c : N) (ls : list jstring) : list jstring :=
  match ls with
  | [] => [[c]]
  | l :: ls' => (c :: l) :: ls'
  end.

Fixpoint splitOnNewlines (s : jstring) : list jstring :=
  match s with
  | [] => [[]]
  | c :: s' =>
      if (c =? ch_lf)%N then [] :: splitOnNewlines s'
      else if (c =? ch_cr)%N && startsWith s' [ch_lf] then splitOnNewlines s'
      else consHead c (splitOnNewlines s')
  end.

Definition CRLF : jstring := [ch_cr; ch_lf].

Definition splitLines (input : jstring) : list jstring * jstring :=
  let lineEnding := if includes input CRLF then CRLF else [ch_lf] in
  (splitOnNewlines input, lineEnding).

Fixpoint countIndentWidth (leading : jstring) (indentSize : Z) : Z :=
  match leading with
  | [] => 0
  | c :: leading' =>
      (if (c =? ch_tab)%N then indentSize
       else if (c =? ch_space)%N then 1
       else 1) + countIndentWidth leading' indentSize
  end.

(** [line.match] with the expression [^ (\s* ) (.* ) $] (two groups, written
    here with blanks).  The first group is greedy, so it takes the
    longest run of white space; the second group cannot cross a line
    terminator and [$] only holds at the end of the string, so the match
    exists exactly when no line terminator follows that run (giving back
    white space cannot help: a line terminator is white space). *)
Definition matchLeadingRest (line : jstring) : option (jstring * jstring) :=
  let r := dropWhile isSpace line in
  if noLineTerminator r then Some (takeWhile isSpace line, r) else None.

Definition analyzeLine (line : jstring) (indentSize : Z) : LineInfo :=
  match matchLeadingRest line with
  | None => {| original := line; leading := []; rest := line; leadingWidth := 0 |}
  | Some (leading, rest) =>
      {| original := line; leading := leading; rest := rest;
         leadingWidth := countIndentWidth leading indentSize |}
  end.

(* ================================================================== *)
(** ** Lexical scanners *)

(** [stripHtmlComments].  The source jumps with [indexOf]; here the scan
    advances one code unit at a time and [skipN] counts the units of a
    marker that was just recognised, which finds the same first occurrence
    at or after the current index. *)
Fixpoint stripHtmlComments_go (line : jstring) (skipN : nat) (inComment : bool)
  : jstring * bool :=
  match line with
  | [] => ([], inComment)
  | c :: line' =>
      match skipN with
      | S k => stripHtmlComments_go line' k inComment
      | O =>
          if inComment then
            if startsWith line HTML_COMMENT_CLOSE
            then stripHtmlComments_go line' 2 false
            else stripHtmlComments_go line' 0 true
          else
            if startsWith line HTML_COMMENT_OPEN
            then stripHtmlComments_go line' 3 true
            else let r := stripHtmlComments_go line' 0 false in (c :: fst r, snd r)
      end
  end.

Definition stripHtmlComments (line : jstring) (inComment : bool) : jstring * bool :=
  stripHtmlComments_go line 0 inComment.

Record Tag := {
  name : jstring;
  isClosing : bool;
  isSelfClosing : bool
}.

(** One token [raw] found by the global expression [<[^>]+>]: the filters and
    the three expressions applied to it, namely [^<\s*\/?\s*([a-zA-Z0-9:-]+)]
    for the name, [^<\s*\/] for a closing tag and [\/>\s*$] for a
    self-closing one ([raw] holds a single [>], its last unit). *)
Definition tagOfRaw (raw : jstring) : option Tag :=
  if startsWith raw (lit "<!") || startsWith raw (lit "<?") || startsWith raw (lit "<%")
  then None
  else
    match raw with
    | [] => None
    | _ :: body =>
        let b1 := trimStart body in
        let closing := startsWith b1 [ch_slash] in
        let b2 := if closing then trimStart (tl b1) else b1 in
        let nm := takeWhile isTagNameChar b2 in
        if isEmpty nm then None
        else
          let name := toLowerCase nm in
          Some {| name := name;
                  isClosing := closing;
                  isSelfClosing :=
                    startsWith (rev raw) [ch_gt; ch_slash] || setHas VOID_TAGS name |}
    end.

(** [extractTags]: the tokens of [<[^>]+>] from left to right.  A token
    starts at a [<] that is followed by at least one unit other than [>] and
    then a [>]; [skipN] passes over the units of the token just taken. *)
Fixpoint extractTags_go (line : jstring) (skipN : nat) : list Tag :=
  match line with
  | [] => []
  | c :: line' =>
      match skipN with
      | S k => extractTags_go line' k
      | O =>
          if (c =? ch_lt)%N then
            let body := takeWhile (fun d => negb (d =? ch_gt)%N) line' in
            let after := dropWhile (fun d => negb (d =? ch_gt)%N) line' in
            if isEmpty after || isEmpty body then extractTags_go line' 0
            else
              let raw := c :: body ++ [ch_gt] in
              match tagOfRaw raw with
              | Some t => t :: extractTags_go line' (S (length body))
              | None => extractTags_go line' (S (length body))
              end
          else extractTags_go line' 0
      end
  end.

Definition extractTags (line : jstring) : list Tag := extractTags_go line 0.

(** The expression [<\s*\/\s*NAME\s*>] under the [i] flag, tried at the start
    of [s]. *)
Definition closingTagAt (tagName s : jstring) : bool :=
  match s with
  | c :: s1 =>
      (c =? ch_lt)%N &&
      match trimStart s1 with
      | d :: s2 =>
          (d =? ch_slash)%N &&
          match stripPrefixCI tagName (trimStart s2) with
          | Some s3 => startsWith (trimStart s3) [ch_gt]
          | None => false
          end
      | [] => false
      end
  | [] => false
  end.

Fixpoint searchClosingTag (tagName s : jstring) : bool :=
  closingTagAt tagName s ||
  match s with
  | [] => false
  | _ :: s' => searchClosingTag tagName s'
  end.

(** [containsClosingTag]; the tag names the source passes are [text],
    [script] and [style]. *)
Definition containsClosingTag (line tagName : jstring) : bool :=
  if isEmpty tagName then false else searchClosingTag tagName line.

(** [TEXT_CLOSE_RE.test]. *)
Definition TEXT_CLOSE_RE_test (s : jstring) : bool := searchClosingTag (lit "text") s.

(** A leading closing tag, [^<\s*\/\s*[a-zA-Z0-9:-]+[^>]*>\s*]: what follows
    the match. *)
Definition leadingClosingTag (s : jstring) : option jstring :=
  match s with
  | c :: s1 =>
      if (c =? ch_lt)%N then
        match trimStart s1 with
        | d :: s2 =>
            if (d =? ch_slash)%N then
              let s3 := trimStart s2 in
              if isEmpty (takeWhile isTagNameChar s3) then None
              else
                match dropWhile (fun e => negb (e =? ch_gt)%N) s3 with
                | _ :: s4 => Some (trimStart s4)
                | [] => None
                end
            else None
        | [] => None
        end
      else None
  | [] => None
  end.

(** A leading closing brace, [^@?\}\s*]: what follows the match. *)
Definition leadingClosingBrace (s : jstring) : option jstring :=
  let s1 := if startsWith s [ch_at] then tl s else s in
  match s1 with
  | c :: s2 => if (c =? ch_rbrace)%N then Some (trimStart s2) else None
  | [] => None
  end.

(** [countLeadingClosings]; every round removes at least one unit, so
    [length trimmed] rounds always reach the [break]. *)
Fixpoint countLeadingClosings_go (fuel : nat) (rest : jstring) : Z :=
  match fuel with
  | O => 0
  | S fuel' =>
      match leadingClosingTag rest with
      | Some rest' => 1 + countLeadingClosings_go fuel' rest'
      | None =>
          match leadingClosingBrace rest with
          | Some rest' => 1 + countLeadingClosings_go fuel' rest'
          | None => 0
          end
      end
  end.

Definition countLeadingClosings (trimmed : jstring) : Z :=
  countLeadingClosings_go (length trimmed) trimmed.

Definition afterRazorTextPrefix (lower : jstring) : jstring :=
  trimStart (drop 2 lower).

Definition isHtmlLine (trimmed : jstring) : bool :=
  let lower := toLowerCase trimmed in
  if startsWith lower [ch_lt] then true
  else if startsWith lower (lit "@:")
       then startsWith (afterRazorTextPrefix lower) [ch_lt]
       else false.

Definition isLineOpeningTag (trimmed tagName : jstring) : bool :=
  let lower := toLowerCase trimmed in
  if startsWith lower (ch_lt :: tagName) then true
  else if startsWith lower (lit "@:")
       then startsWith (afterRazorTextPrefix lower) (ch_lt :: tagName)
       else false.

Definition isLineClosingTag (trimmed tagName : jstring) : bool :=
  let lower := toLowerCase trimmed in
  if startsWith lower (ch_lt :: ch_slash :: tagName) then true
  else if startsWith lower (lit "@:")
       then startsWith (afterRazorTextPrefix lower) (ch_lt :: ch_slash :: tagName)
       else false.

(** [countLeadingBraceClosings]: the run of closing braces after an optional
    [@:] prefix and its white space. *)
Definition countLeadingBraceClosings (trimmed : jstring) : Z :=
  let rest :=
    match stripPrefix (lit "@:") trimmed with
    | Some r => trimStart r
    | None => trimmed
    end in
  Z.of_nat (length (takeWhile (fun c => (c =? ch_rbrace)%N) rest)).

Record BraceResult := {
  open : Z;
  close : Z;
  brInBlockComment : bool
}.

Record QuoteState := {
  inSingle : bool;
  inDouble : bool;
  inTemplate : bool;
  escaped : bool
}.

Definition noQuote : QuoteState :=
  {| inSingle := false; inDouble := false; inTemplate := false; escaped := false |}.

(** The literal the source compares [char] with to recognise an escape; it
    has two code units. *)
Definition ESCAPE_LITERAL : jstring := [92%N; 92%N].

(** [countBraces]: the body of the [for] loop.  [skipNext] stands for the
    [i += 1] that passes over the second unit of a comment marker; the
    [break] on a line comment returns the counts so far. *)
Fixpoint countBraces_go (line : jstring) (skipNext : bool)
    (open close : Z) (inBlockComment : bool) (q : QuoteState) : BraceResult :=
  match line with
  | [] => {| open := open; close := close; brInBlockComment := inBlockComment |}
  | char :: line' =>
      if skipNext then countBraces_go line' false open close inBlockComment q
      else
        let nextIs (d : N) := startsWith line' [d] in
        let quoted := inSingle q || inDouble q || inTemplate q in
        if inBlockComment then
          if (char =? ch_star)%N && nextIs ch_slash
          then countBraces_go line' true open close false q
          else countBraces_go line' false open close true q
        else if negb quoted && (char =? ch_slash)%N && nextIs ch_star
        then countBraces_go line' true open close true q
        else if negb quoted && (char =? ch_slash)%N && nextIs ch_slash
        then {| open := open; close := close; brInBlockComment := inBlockComment |}
        else if escaped q
        then countBraces_go line' false open close inBlockComment
               {| inSingle := inSingle q; inDouble := inDouble q;
                  inTemplate := inTemplate q; escaped := false |}
        else if charIs char ESCAPE_LITERAL && quoted
        then countBraces_go line' false open close inBlockComment
               {| inSingle := inSingle q; inDouble := inDouble q;
                  inTemplate := inTemplate q; escaped := true |}
        else if negb (inDouble q) && negb (inTemplate q) && (char =? ch_squote)%N
        then countBraces_go line' false open close inBlockComment
               {| inSingle := negb (inSingle q); inDouble := inDouble q;
                  inTemplate := inTemplate q; escaped := escaped q |}
        else if negb (inSingle q) && negb (inTemplate q) && (char =? ch_dquote)%N
        then countBraces_go line' false open close inBlockComment
               {| inSingle := inSingle q; inDouble := negb (inDouble q);
                  inTemplate := inTemplate q; escaped := escaped q |}
        else if negb (inSingle q) && negb (inDouble q) && (char =? ch_backtick)%N
        then countBraces_go line' false open close inBlockComment
               {| inSingle := inSingle q; inDouble := inDouble q;
                  inTemplate := negb (inTemplate q); escaped := escaped q |}
        else if quoted
        then countBraces_go line' false open close inBlockComment q
        else if (char =? ch_lbrace)%N
        then countBraces_go line' false (open + 1) close inBlockComment q
        else if (char =? ch_rbrace)%N
        then countBraces_go line' false open (close + 1) inBlockComment q
        else countBraces_go line' false open close inBlockComment q
  end.

Definition countBraces (line : jstring) (inBlockComment : bool) : BraceResult :=
  countBraces_go line false 0 0 inBlockComment noQuote.

(** [^KEYWORD\b]: the keyword, then the end of the text or a unit that is
    not a word character. *)
Definition keywordAt (kw s : jstring) : bool :=
  match stripPrefix kw s with
  | Some [] => true
  | Some (c :: _) => negb (isWordChar c)
  | None => false
  end.

(** [^switch\s*\(]. *)
Definition switchAt (s : jstring) : bool :=
  match stripPrefix (lit "switch") s with
  | Some r => startsWith (trimStart r) [ch_lparen]
  | None => false
  end.

Definition caseOrDefaultAt (s : jstring) : bool :=
  keywordAt (lit "case") s || keywordAt (lit "default") s.

(** [^switch\s*\((.* )\)\s*\{\s*$] (the group is written with a blank): the
    captured text.  Read from the end, the text has to finish with white
    space, an opening brace, white space and a closing parenthesis, in one
    way only, and the group is what stands before; it cannot hold a line
    terminator. *)
Definition matchSwitchHeader (s : jstring) : option jstring :=
  match stripPrefix (lit "switch") s with
  | None => None
  | Some r =>
      match trimStart r with
      | c :: body =>
          if (c =? ch_lparen)%N then
            match dropWhile isSpace (rev body) with
            | b :: r1 =>
                if (b =? ch_lbrace)%N then
                  match dropWhile isSpace r1 with
                  | p :: r2 =>
                      if (p =? ch_rparen)%N && noLineTerminator r2
                      then Some (rev r2) else None
                  | [] => None
                  end
                else None
            | [] => None
            end
          else None
      | [] => None
      end
  end.

Definition switchHeader (inner : jstring) : jstring :=
  lit "switch (" ++ trim inner ++ lit ") {".

Definition formatRawLineContent (rest : jstring) : jstring :=
  let trimmed := trimStart rest in
  match matchSwitchHeader trimmed with
  | Some inner => switchHeader inner
  | None => rest
  end.

Definition normalizeSwitchSpacing (line : jstring) : jstring :=
  match matchSwitchHeader line with
  | None => line
  | Some inner => switchHeader inner
  end.

Definition normalizeForValidation (line : jstring) : jstring :=
  let normalized := dropWhile isSpace line in
  let normalized :=
    match stripPrefix (lit "@:") normalized with
    | Some r => lit "@:" ++ dropWhile isSpace r
    | None => normalized
    end in
  normalizeSwitchSpacing normalized.

Definition makeIndentedLine (rest : jstring) (indentWidth : Z) : jstring :=
  if indentWidth <=? 0 then rest else spaces indentWidth ++ rest.

(** [rest.match] with [^@:([\s]* )(.* )$]: the second group.  As in
    [matchLeadingRest] the white space group is the longest run and the
    match exists when no line terminator follows it. *)
Definition matchRazorText (rest : jstring) : option jstring :=
  match stripPrefix (lit "@:") rest with
  | None => None
  | Some r =>
      let content := dropWhile isSpace r in
      if noLineTerminator content then Some content else None
  end.

Definition makeRazorTextIndentedLine (rest : jstring) (indentWidth contentIndentWidth : Z)
  : jstring :=
  match matchRazorText rest with
  | None => makeIndentedLine rest indentWidth
  | Some content =>
      let lineIndent := if 0 <? indentWidth then spaces indentWidth else [] in
      if isEmpty content then lineIndent ++ lit "@:"
      else lineIndent ++ lit "@: " ++ spaces contentIndentWidth ++ trimStart content
  end.

(** [' '.repeat(count)] throws a RangeError when the count is negative and
    when the string would be longer than the longest string of the host,
    [maxLength]; [spaces count] is what it returns otherwise.  The two
    functions above call it as follows. *)
Definition repeatThrows (maxLength count : Z) : bool :=
  (count <? 0) || (maxLength <? count).

Definition makeIndentedLineThrows (maxLength indentWidth : Z) : bool :=
  if indentWidth <=? 0 then false else repeatThrows maxLength indentWidth.

Definition makeRazorTextIndentedLineThrows (maxLength : Z) (rest : jstring)
    (indentWidth contentIndentWidth : Z) : bool :=
  match matchRazorText rest with
  | None => makeIndentedLineThrows maxLength indentWidth
  | Some content =>
      (if 0 <? indentWidth then repeatThrows maxLength indentWidth else false)
      || (negb (isEmpty content) && repeatThrows maxLength contentIndentWidth)
  end.

(* ================================================================== *)
(** ** Switch bookkeeping shared by the two scanning passes *)

(** [switchDepths] is a stack; its top, [switchDepths[length - 1]] in the
    source, is the head of the list here. *)
Record SwitchState := {
  switchDepths : list Z;
  caseIndentDepth : option Z;
  pendingSwitch : bool
}.

Definition noSwitch : SwitchState :=
  {| switchDepths := []; caseIndentDepth := None; pendingSwitch := false |}.

(** [switchDepths.length > 0 && level >= top]. *)
Definition inSwitchAt (depths : list Z) (level : Z) : bool :=
  match depths with
  | top :: _ => top <=? level
  | [] => false
  end.

(** [switchDepths.length > 0 && nextLevel < top]. *)
Definition belowSwitchTop (depths : list Z) (nextLevel : Z) : bool :=
  match depths with
  | top :: _ => nextLevel <? top
  | [] => false
  end.

(** The [while] loop that pops the closed switches. *)
Fixpoint popSwitches (depths : list Z) (nextLevel : Z) : list Z :=
  match depths with
  | top :: depths' => if nextLevel <? top then popSwitches depths' nextLevel else depths
  | [] => []
  end.

(** The text the switch tests look at: the content of a [@:] line, nothing
    for another Razor line, the trimmed line otherwise. *)
Definition codeText (trimmed : jstring) : jstring :=
  if startsWith trimmed (lit "@:") then trimStart (drop 2 trimmed)
  else if startsWith trimmed [ch_at] then []
  else trimmed.

(** The statements that follow the assignment of the line's width, from
    [let pendingSwitchSetThisLine = false] to the clearing of
    [caseIndentDepth].  [enabled] is [true] in the document pass and
    [isRawBlock] in a block pass. *)
Definition advanceSwitch (enabled isSwitchLine isCaseOrDefault inSwitch : bool)
    (codeTrimmed : jstring) (braceOpen level nextLevel : Z) (sw : SwitchState)
  : SwitchState :=
  let depths0 := switchDepths sw in
  let pushNow := enabled && isSwitchLine && (0 <? braceOpen) in
  let setThisLine := enabled && isSwitchLine && negb (0 <? braceOpen) in
  let depths1 := if pushNow then nextLevel :: depths0 else depths0 in
  let pending1 :=
    if enabled && isSwitchLine then negb (0 <? braceOpen) else pendingSwitch sw in
  let pushLater :=
    enabled && pending1 && (0 <? braceOpen) && startsWith codeTrimmed [ch_lbrace] in
  let depths2 := if pushLater then nextLevel :: depths1 else depths1 in
  let pending2 := if pushLater then false else pending1 in
  let pending3 :=
    if negb setThisLine && pending2 && negb (isEmpty codeTrimmed)
       && negb (startsWith codeTrimmed [ch_lbrace])
    then false else pending2 in
  let case1 := if inSwitch && isCaseOrDefault then Some level else caseIndentDepth sw in
  let depths3 := popSwitches depths2 nextLevel in
  let case2 :=
    match case1 with
    | Some d => if nextLevel <? d then None else Some d
    | None => None
    end in
  {| switchDepths := depths3; caseIndentDepth := case2; pendingSwitch := pending3 |}.

(** The extra indent unit of a statement under a [case] or [default]
    label. *)
Definition switchExtra (inSwitch : bool) (caseDepth : option Z)
    (isCaseOrDefault closesSwitch : bool) (indentSize : Z) : Z :=
  if inSwitch && (match caseDepth with Some _ => true | None => false end)
     && negb isCaseOrDefault && negb closesSwitch
  then indentSize else 0.

(* ================================================================== *)
(** ** The document pass *)

Record ScanState := {
  level : Z;
  inComment : bool;
  inRawTag : option jstring;
  inBlockComment : bool;
  switches : SwitchState;
  inTextBlock : bool;
  inRawBlock : bool;
  currentTextBlock : option TextBlock;
  textBlocks : list TextBlock;
  desiredIndents : list (option Z)
}.

Definition initialScan (n : nat) : ScanState :=
  {| level := 0; inComment := false; inRawTag := None; inBlockComment := false;
     switches := noSwitch; inTextBlock := false; inRawBlock := false;
     currentTextBlock := None; textBlocks := [];
     desiredIndents := replicate n None |}.

(** What one line adds to the open and close counts, and the raw tag it
    leaves open. *)
Record LineCounts := {
  openCount : Z;
  closeCount : Z;
  leadingCloseCount : Z;
  braceResult : BraceResult;
  inCommentAfter : bool;
  inRawTagAfter : option jstring
}.

(** The loop over the tags of an HTML line. *)
Fixpoint countTags (tags : list Tag) (openCount closeCount : Z) (inRawTag : option jstring)
  : Z * Z * option jstring :=
  match tags with
  | [] => (openCount, closeCount, inRawTag)
  | tag :: tags' =>
      if isClosing tag then countTags tags' openCount (closeCount + 1) inRawTag
      else if isSelfClosing tag then countTags tags' openCount closeCount inRawTag
      else countTags tags' (openCount + 1) closeCount
             (if setHas RAW_TAGS (name tag) then Some (name tag) else inRawTag)
  end.

(** From [stripHtmlComments] to the end of the [if (inRawTag) ... else if
    (!inComment) ...] statement. *)
Definition countLine (st : ScanState) (line : jstring) (info : LineInfo) : LineCounts :=
  let trimmed := trimStart (rest info) in
  let commentResult := stripHtmlComments line (inComment st) in
  let cleanLine := fst commentResult in
  let inComment' := snd commentResult in
  let leadingCloseCount := countLeadingClosings trimmed in
  let noBraces := {| open := 0; close := 0; brInBlockComment := inBlockComment st |} in
  match inRawTag st with
  | Some rawTag =>
      if containsClosingTag cleanLine rawTag then
        {| openCount := 0; closeCount := 1;
           leadingCloseCount :=
             if (leadingCloseCount =? 0)
                && startsWith trimmed (ch_lt :: ch_slash :: rawTag)
             then 1 else leadingCloseCount;
           braceResult := noBraces;
           inCommentAfter := inComment'; inRawTagAfter := None |}
      else
        {| openCount := 0; closeCount := 0; leadingCloseCount := leadingCloseCount;
           braceResult := noBraces;
           inCommentAfter := inComment'; inRawTagAfter := Some rawTag |}
  | None =>
      if inComment' then
        {| openCount := 0; closeCount := 0; leadingCloseCount := leadingCloseCount;
           braceResult := noBraces;
           inCommentAfter := inComment'; inRawTagAfter := None |}
      else
        let '(o, c, rawTag) :=
          if isHtmlLine trimmed then countTags (extractTags cleanLine) 0 0 None
          else (0, 0, None) in
        let braces := countBraces (rest info) (inBlockComment st) in
        {| openCount := o + open braces; closeCount := c + close braces;
           leadingCloseCount := leadingCloseCount;
           braceResult := braces;
           inCommentAfter := inComment'; inRawTagAfter := rawTag |}
  end.

(** The classification of a line the width and the switch stack depend
    on. *)
Record LineShape := {
  shIsSwitchLine : bool;
  shIsCaseOrDefault : bool;
  shIsClosingBraceLine : bool;
  shCode : jstring
}.

Definition docShape (trimmed : jstring) : LineShape :=
  let isHtml := isHtmlLine trimmed in
  let codeTrimmed := codeText trimmed in
  {| shIsSwitchLine := negb isHtml && switchAt codeTrimmed;
     shIsCaseOrDefault := negb isHtml && caseOrDefaultAt codeTrimmed;
     shIsClosingBraceLine := negb isHtml && startsWith codeTrimmed [ch_rbrace];
     shCode := codeTrimmed |}.

Definition docNextLevel (st : ScanState) (lc : LineCounts) : Z :=
  Z.max 0 (level st - closeCount lc + openCount lc).

(** [lineIndent] of the document pass. *)
Definition docLineIndent (indentSize : Z) (st : ScanState) (line : jstring) (info : LineInfo)
  : Z :=
  let lc := countLine st line info in
  let sh := docShape (trimStart (rest info)) in
  let effectiveLevel := Z.max 0 (level st - leadingCloseCount lc) in
  let inSwitch := inSwitchAt (switchDepths (switches st)) (level st) in
  let closesSwitch :=
    shIsClosingBraceLine sh
    && belowSwitchTop (switchDepths (switches st)) (docNextLevel st lc) in
  effectiveLevel * indentSize
  + switchExtra inSwitch (caseIndentDepth (switches st)) (shIsCaseOrDefault sh)
      closesSwitch indentSize.

(** The three [if (isLineOpeningTag ...)] statements at the end of the loop
    body, for [text], [script] and [style] in this order; a later one
    overwrites [currentTextBlock]. *)
Definition opensTag (trimmed tag : jstring) : bool :=
  isLineOpeningTag trimmed tag && negb (isLineClosingTag trimmed tag).

Definition newBlock (tag : jstring) (i : nat) (level : Z) : TextBlock :=
  {| startLine := i + 1; endLine := i; parentLevel := Z.max 0 (level - 1);
     tagName := tag; skip := false |}.

Definition openedBlock (trimmed : jstring) (i : nat) (level : Z) : option TextBlock :=
  if opensTag trimmed (lit "style") then Some (newBlock (lit "style") i level)
  else if opensTag trimmed (lit "script") then Some (newBlock (lit "script") i level)
  else if opensTag trimmed (lit "text") then Some (newBlock (lit "text") i level)
  else None.

(** The block as it is recorded when its closing tag shows up at line [i];
    a block is closed at a line after the one that opened it, so [i - 1] is
    a line index. *)
Definition closedAt (i : nat) (b : TextBlock) : TextBlock :=
  {| startLine := startLine b; endLine := (i - 1)%nat; parentLevel := parentLevel b;
     tagName := tagName b; skip := skip b |}.

(** The two statements at the head of the loop body that close the block
    being captured when its closing tag shows up. *)
Definition closeCapture (i : nat) (line : jstring) (info : LineInfo) (st : ScanState)
  : ScanState :=
  let trimmed := trimStart (rest info) in
  let hasTextClose := TEXT_CLOSE_RE_test trimmed in
  let hasRawClose :=
    inRawBlock st &&
    containsClosingTag line
      (match currentTextBlock st with Some b => tagName b | None => [] end) in
  let '(inText1, cur1, blocks1) :=
    if inTextBlock st && hasTextClose then
      match currentTextBlock st with
      | Some b => (false, None, textBlocks st ++ [closedAt i b])
      | None => (false, None, textBlocks st)
      end
    else (inTextBlock st, currentTextBlock st, textBlocks st) in
  let '(inRaw2, cur2, blocks2) :=
    if inRawBlock st && hasRawClose then
      match cur1 with
      | Some b => (false, None, blocks1 ++ [closedAt i b])
      | None => (false, cur1, blocks1)
      end
    else (inRawBlock st, cur1, blocks1) in
  {| level := level st; inComment := inComment st; inRawTag := inRawTag st;
     inBlockComment := inBlockComment st; switches := switches st;
     inTextBlock := inText1; inRawBlock := inRaw2;
     currentTextBlock := cur2; textBlocks := blocks2;
     desiredIndents := desiredIndents st |}.

(** The body of the main [for] loop for line [i]. *)
Definition scanLine (indentSize : Z) (i : nat) (line : jstring) (info : LineInfo)
    (st0 : ScanState) : ScanState :=
  let st := closeCapture i line info st0 in
  if inTextBlock st || inRawBlock st then
    {| level := level st; inComment := inComment st; inRawTag := inRawTag st;
       inBlockComment := inBlockComment st; switches := switches st;
       inTextBlock := inTextBlock st; inRawBlock := inRawBlock st;
       currentTextBlock := currentTextBlock st; textBlocks := textBlocks st;
       desiredIndents := <[i := None]> (desiredIndents st) |}
  else
    let trimmed := trimStart (rest info) in
    let lc := countLine st line info in
    let sh := docShape trimmed in
    let inSwitch := inSwitchAt (switchDepths (switches st)) (level st) in
    let nextLevel := docNextLevel st lc in
    let lineIndent := docLineIndent indentSize st line info in
    let sw :=
      advanceSwitch true (shIsSwitchLine sh) (shIsCaseOrDefault sh) inSwitch
        (shCode sh) (open (braceResult lc)) (level st) nextLevel (switches st) in
    let opened := openedBlock trimmed i nextLevel in
    {| level := nextLevel;
       inComment := inCommentAfter lc;
       inRawTag := inRawTagAfter lc;
       inBlockComment := brInBlockComment (braceResult lc);
       switches := sw;
       inTextBlock := opensTag trimmed (lit "text") || inTextBlock st;
       inRawBlock :=
         opensTag trimmed (lit "script") || opensTag trimmed (lit "style") || inRawBlock st;
       currentTextBlock :=
         match opened with Some b => Some b | None => currentTextBlock st end;
       textBlocks := textBlocks st;
       desiredIndents := <[i := Some lineIndent]> (desiredIndents st) |}.

(** The loop, from line [i] on. *)
Fixpoint scanFrom (indentSize : Z) (i : nat) (lines : list jstring) (infos : list LineInfo)
    (st : ScanState) : ScanState :=
  match lines, infos with
  | line :: lines', info :: infos' =>
      scanFrom indentSize (S i) lines' infos' (scanLine indentSize i line info st)
  | _, _ => st
  end.

(** The state on entry to line [n], that is after the lines before it. *)
Definition scanPrefix (indentSize : Z) (lines : list jstring) (infos : list LineInfo)
    (n : nat) : ScanState :=
  scanFrom indentSize 0 (take n lines) (take n infos) (initialScan (length lines)).

(** The statement after the loop: a [<text>] block still open at the end of
    the document is recorded with [skip]. *)
Definition finishScan (n : nat) (st : ScanState) : list TextBlock :=
  if inTextBlock st then
    match currentTextBlock st with
    | Some b =>
        textBlocks st ++
        [{| startLine := startLine b; endLine := (n - 1)%nat; parentLevel := parentLevel b;
            tagName := tagName b; skip := true |}]
    | None => textBlocks st
    end
  else textBlocks st.

(* ================================================================== *)
(** ** The block pass *)

(** The four arrays the block pass writes. *)
Record Arrays := {
  indents : list (option Z);
  indentAfterRazorPrefix : list bool;
  razorTextContentIndents : list Z;
  rawLineMeta : list (option RawLineMeta)
}.

Definition initialArrays (desired : list (option Z)) (n : nat) : Arrays :=
  {| indents := desired;
     indentAfterRazorPrefix := replicate n false;
     razorTextContentIndents := replicate n 0;
     rawLineMeta := replicate n None |}.

(** The line indices [startLine .. endLine] of a block, in order. *)
Definition blockRange (block : TextBlock) : list nat :=
  seq (startLine block) (S (endLine block) - startLine block).

Record BlockState := {
  bLevel : Z;
  bInBlockComment : bool;
  razorBraceDepth : Z;
  inRazorCodeBlock : bool;
  bSwitches : SwitchState;
  razorTextGroupBaseLevel : option Z
}.

Definition initialBlock : BlockState :=
  {| bLevel := 0; bInBlockComment := false; razorBraceDepth := 0;
     inRazorCodeBlock := false; bSwitches := noSwitch;
     razorTextGroupBaseLevel := None |}.

(** [baseIndent] of a block. *)
Definition blockBaseIndent (indentSize : Z) (isRaw : bool) (block : TextBlock) : Z :=
  parentLevel block * indentSize
  + (if isRaw && (parentLevel block =? 0) then 0 else indentSize).

(** What the block pass computes for a line that is not empty. *)
Record BlockLine := {
  blIsRazorTextLine : bool;
  blLineInRazorBlock : bool;
  blCode : jstring;
  blIsSwitchLine : bool;
  blIsCaseOrDefault : bool;
  blIsBreakLine : bool;
  blInSwitch : bool;
  blBraces : BraceResult;
  blEffectiveLevel : Z;
  blNextLevel : Z;
  blExtra : Z
}.

Definition analyzeBlockLine (indentSize : Z) (isRaw : bool) (bs : BlockState) (rest : jstring)
  : BlockLine :=
  let trimmed := trimStart rest in
  let leadingCloseCount := countLeadingBraceClosings trimmed in
  let effectiveLevel := Z.max 0 (bLevel bs - (if 0 <? leadingCloseCount then 1 else 0)) in
  let isRazorLine := startsWith trimmed [ch_at] in
  let isRazorTextLine := startsWith trimmed (lit "@:") in
  let isRazorDirectiveLine := isRazorLine && negb isRazorTextLine in
  let jsTrimmed := codeText trimmed in
  let isCaseOrDefault := isRaw && caseOrDefaultAt jsTrimmed in
  let isClosingBraceLine := isRaw && startsWith jsTrimmed [ch_rbrace] in
  let depths := switchDepths (bSwitches bs) in
  let inSwitch := isRaw && inSwitchAt depths (bLevel bs) in
  let braces := countBraces rest (bInBlockComment bs) in
  let nextLevel := Z.max 0 (bLevel bs + open braces - close braces) in
  let closesSwitch := isClosingBraceLine && belowSwitchTop depths nextLevel in
  {| blIsRazorTextLine := isRazorTextLine;
     blLineInRazorBlock := isRaw && (inRazorCodeBlock bs || isRazorDirectiveLine);
     blCode := jsTrimmed;
     blIsSwitchLine := isRaw && switchAt jsTrimmed;
     blIsCaseOrDefault := isCaseOrDefault;
     blIsBreakLine := isRaw && keywordAt (lit "break") jsTrimmed;
     blInSwitch := inSwitch;
     blBraces := braces;
     blEffectiveLevel := effectiveLevel;
     blNextLevel := nextLevel;
     blExtra :=
       switchExtra inSwitch (caseIndentDepth (bSwitches bs)) isCaseOrDefault
         closesSwitch indentSize |}.

(** The base level of the run of [@:] lines the line belongs to. *)
Definition groupBase (bs : BlockState) (bl : BlockLine) : Z :=
  match razorTextGroupBaseLevel bs with
  | Some g => g
  | None => blEffectiveLevel bl
  end.

(** The width the block pass stores in [desiredIndents] for a line. *)
Definition blockLineIndent (indentSize baseIndent : Z) (isRaw : bool) (bs : BlockState)
    (rest : jstring) : Z :=
  if isEmpty rest then 0
  else
    let bl := analyzeBlockLine indentSize isRaw bs rest in
    if isRaw && blIsRazorTextLine bl
    then baseIndent + groupBase bs bl * indentSize
    else baseIndent + blEffectiveLevel bl * indentSize + blExtra bl.

(** [contentIndent] of a [@:] line of a raw block. *)
Definition blockContentIndent (indentSize : Z) (bs : BlockState) (bl : BlockLine) : Z :=
  Z.max 0 ((blEffectiveLevel bl - groupBase bs bl) * indentSize) + blExtra bl.

Definition blankMeta : RawLineMeta :=
  {| isRawBlock := true; isCaseOrDefault := false; isBreak := false;
     isSwitchLine := false |}.

(** The state after a line of the block. *)
Definition blockNextState (indentSize : Z) (isRaw : bool) (bs : BlockState) (rest : jstring)
  : BlockState :=
  if isEmpty rest then
    {| bLevel := bLevel bs; bInBlockComment := bInBlockComment bs;
       razorBraceDepth := razorBraceDepth bs; inRazorCodeBlock := inRazorCodeBlock bs;
       bSwitches := bSwitches bs; razorTextGroupBaseLevel := None |}
  else
    let bl := analyzeBlockLine indentSize isRaw bs rest in
    let depth :=
      if blLineInRazorBlock bl
      then Z.max 0 (razorBraceDepth bs + open (blBraces bl) - close (blBraces bl))
      else razorBraceDepth bs in
    {| bLevel := blNextLevel bl;
       bInBlockComment := brInBlockComment (blBraces bl);
       razorBraceDepth := depth;
       inRazorCodeBlock :=
         if blLineInRazorBlock bl then 0 <? depth else inRazorCodeBlock bs;
       bSwitches :=
         advanceSwitch isRaw (blIsSwitchLine bl) (blIsCaseOrDefault bl) (blInSwitch bl)
           (blCode bl) (open (blBraces bl)) (bLevel bs) (blNextLevel bl) (bSwitches bs);
       razorTextGroupBaseLevel :=
         if isRaw && blIsRazorTextLine bl then Some (groupBase bs bl)
         else if isRaw then None
         else razorTextGroupBaseLevel bs |}.

(** The writes of the block pass for line [lineIndex]. *)
Definition blockWrite (indentSize baseIndent : Z) (isRaw : bool) (bs : BlockState)
    (lineIndex : nat) (rest : jstring) (arr : Arrays) : Arrays :=
  let width := Some (blockLineIndent indentSize baseIndent isRaw bs rest) in
  if isEmpty rest then
    {| indents := <[lineIndex := width]> (indents arr);
       indentAfterRazorPrefix := indentAfterRazorPrefix arr;
       razorTextContentIndents := razorTextContentIndents arr;
       rawLineMeta :=
         if isRaw then <[lineIndex := Some blankMeta]> (rawLineMeta arr)
         else rawLineMeta arr |}
  else
    let bl := analyzeBlockLine indentSize isRaw bs rest in
    let razorText := isRaw && blIsRazorTextLine bl in
    {| indents := <[lineIndex := width]> (indents arr);
       indentAfterRazorPrefix :=
         if razorText then <[lineIndex := true]> (indentAfterRazorPrefix arr)
         else indentAfterRazorPrefix arr;
       razorTextContentIndents :=
         if razorText
         then <[lineIndex := blockContentIndent indentSize bs bl]>
                (razorTextContentIndents arr)
         else razorTextContentIndents arr;
       rawLineMeta :=
         if isRaw
         then <[lineIndex :=
                  Some {| isRawBlock := true;
                          isCaseOrDefault := blInSwitch bl && blIsCaseOrDefault bl;
                          isBreak := blInSwitch bl && blIsBreakLine bl;
                          isSwitchLine := blInSwitch bl && blIsSwitchLine bl |}]>
                (rawLineMeta arr)
         else rawLineMeta arr |}.

(** The inner [for] loop of [applyTextBlockIndentation] over the given line
    indices. *)
Fixpoint reindentLines (indentSize baseIndent : Z) (isRaw : bool) (infos : list LineInfo)
    (range : list nat) (bs : BlockState) (arr : Arrays) : Arrays :=
  match range with
  | [] => arr
  | lineIndex :: range' =>
      match infos !! lineIndex with
      | Some info =>
          reindentLines indentSize baseIndent isRaw infos range'
            (blockNextState indentSize isRaw bs (rest info))
            (blockWrite indentSize baseIndent isRaw bs lineIndex (rest info) arr)
      | None => arr
      end
  end.

(** The block state on entry to the [k]-th line of a range. *)
Fixpoint blockStateAt (indentSize : Z) (isRaw : bool) (infos : list LineInfo)
    (range : list nat) (k : nat) (bs : BlockState) : BlockState :=
  match k, range with
  | S k', lineIndex :: range' =>
      match infos !! lineIndex with
      | Some info =>
          blockStateAt indentSize isRaw infos range' k'
            (blockNextState indentSize isRaw bs (rest info))
      | None => bs
      end
  | _, _ => bs
  end.

Fixpoint restoreLines (infos : list LineInfo) (range : list nat) (desired : list (option Z))
  : list (option Z) :=
  match range with
  | [] => desired
  | lineIndex :: range' =>
      match infos !! lineIndex with
      | Some info =>
          restoreLines infos range' (<[lineIndex := Some (leadingWidth info)]> desired)
      | None => desired
      end
  end.

Definition applySingleTextBlockOriginalIndent (block : TextBlock)
    (desired : list (option Z)) (infos : list LineInfo) : list (option Z) :=
  restoreLines infos (blockRange block) desired.

Definition applyTextBlockOriginalIndent (blocks : list TextBlock)
    (desired : list (option Z)) (infos : list LineInfo) : list (option Z) :=
  fold_left (fun d block => restoreLines infos (blockRange block) d) blocks desired.

(** A Razor directive line: it starts with [@] and is not a [@:] line. *)
Definition isRazorDirective (trimmed : jstring) : bool :=
  startsWith trimmed [ch_at] && negb (startsWith trimmed (lit "@:")).

(** [razorBraceDepth] of [shouldPreserveRawBlockIndent] after a line. *)
Definition razorDepthAfter (razorBraceDepth : Z) (rest : jstring) : Z :=
  let trimmed := trimStart rest in
  if isEmpty trimmed then razorBraceDepth
  else if (0 <? razorBraceDepth) || isRazorDirective trimmed then
    let braces := countBraces rest false in
    Z.max 0 (razorBraceDepth + open braces - close braces)
  else razorBraceDepth.

(** [shouldPreserveRawBlockIndent]: the loop, with its three variables. *)
Fixpoint preserveScan (infos : list LineInfo) (range : list nat)
    (hasRazorDirective hasNonRazorLine : bool) (razorBraceDepth : Z) : bool :=
  match range with
  | [] => false
  | lineIndex :: range' =>
      match infos !! lineIndex with
      | None => false
      | Some info =>
          let trimmed := trimStart (rest info) in
          if isEmpty trimmed
          then preserveScan infos range' hasRazorDirective hasNonRazorLine razorBraceDepth
          else
            let isRazorDirectiveLine := isRazorDirective trimmed in
            let inRazorBlock := (0 <? razorBraceDepth) || isRazorDirectiveLine in
            let hasRazorDirective' := hasRazorDirective || isRazorDirectiveLine in
            let hasNonRazorLine' :=
              hasNonRazorLine
              || (negb isRazorDirectiveLine && negb (startsWith trimmed [ch_at])
                  && negb inRazorBlock) in
            if hasRazorDirective' && hasNonRazorLine' then true
            else preserveScan infos range' hasRazorDirective' hasNonRazorLine'
                   (razorDepthAfter razorBraceDepth (rest info))
      end
  end.

Definition shouldPreserveRawBlockIndent (block : TextBlock) (infos : list LineInfo) : bool :=
  preserveScan infos (blockRange block) false false 0.

Definition withIndents (desired : list (option Z)) (arr : Arrays) : Arrays :=
  {| indents := desired;
     indentAfterRazorPrefix := indentAfterRazorPrefix arr;
     razorTextContentIndents := razorTextContentIndents arr;
     rawLineMeta := rawLineMeta arr |}.

(** The body of the loop over the blocks. *)
Definition applyBlock (indentSize : Z) (infos : list LineInfo) (arr : Arrays)
    (block : TextBlock) : Arrays :=
  if skip block || (endLine block <? startLine block)%nat then
    withIndents (applySingleTextBlockOriginalIndent block (indents arr) infos) arr
  else
    let isRaw := setHas RAW_TAGS (tagName block) in
    if isRaw && shouldPreserveRawBlockIndent block infos then
      withIndents (applySingleTextBlockOriginalIndent block (indents arr) infos) arr
    else
      reindentLines indentSize (blockBaseIndent indentSize isRaw block) isRaw infos
        (blockRange block) initialBlock arr.

Definition applyTextBlockIndentation (blocks : list TextBlock) (arr : Arrays)
    (infos : list LineInfo) (indentSize : Z) : Arrays :=
  fold_left (applyBlock indentSize infos) blocks arr.

(* ================================================================== *)
(** ** Rendering, switch spacing and validation *)

(** The loop that replaces the widths still unresolved by the original
    leading width. *)
Fixpoint fillUnresolved (desired : list (option Z)) (infos : list LineInfo)
  : list (option Z) :=
  match desired, infos with
  | d :: desired', info :: infos' =>
      Some (match d with Some w => w | None => leadingWidth info end)
      :: fillUnresolved desired' infos'
  | _, _ => desired
  end.

(** [desiredIndents[index] ?? fallback]. *)
Definition indentAt (desired : list (option Z)) (index : nat) (fallback : Z) : Z :=
  match desired !! index with
  | Some (Some w) => w
  | _ => fallback
  end.

(** [rawLineMeta[index]?.isRawBlock]. *)
Definition isRawLine (meta : list (option RawLineMeta)) (index : nat) : bool :=
  match meta !! index with
  | Some (Some m) => isRawBlock m
  | _ => false
  end.

(** The callback of [lines.map] that builds [outputLines]. *)
Definition renderLine (arr : Arrays) (infos : list LineInfo) (index : nat) (line : jstring)
  : jstring :=
  let desired := indentAt (indents arr) index 0 in
  let rest0 := match infos !! index with Some info => rest info | None => [] end in
  let afterPrefix := default false (indentAfterRazorPrefix arr !! index) in
  let rest1 :=
    if isRawLine (rawLineMeta arr) index && negb afterPrefix
    then formatRawLineContent rest0 else rest0 in
  if afterPrefix
  then makeRazorTextIndentedLine rest1 desired
         (default 0 (razorTextContentIndents arr !! index))
  else makeIndentedLine rest1 desired.

(** The callback throws when its call of a rendering function does. *)
Definition renderLineThrows (maxLength : Z) (arr : Arrays) (infos : list LineInfo)
    (index : nat) : bool :=
  let desired := indentAt (indents arr) index 0 in
  let rest0 := match infos !! index with Some info => rest info | None => [] end in
  let afterPrefix := default false (indentAfterRazorPrefix arr !! index) in
  let rest1 :=
    if isRawLine (rawLineMeta arr) index && negb afterPrefix
    then formatRawLineContent rest0 else rest0 in
  if afterPrefix
  then makeRazorTextIndentedLineThrows maxLength rest1 desired
         (default 0 (razorTextContentIndents arr !! index))
  else makeIndentedLineThrows maxLength desired.

(** A line that is empty once trimmed, or is the bare prefix [@:]. *)
Definition isBlankLine (line : jstring) : bool :=
  let trimmed := trim line in
  isEmpty trimmed || eqStr trimmed (lit "@:").

(** [lines[i].match] with [^(\s* )@:]: the white space before the prefix. *)
Definition matchRazorPrefix (line : jstring) : option jstring :=
  if startsWith (dropWhile isSpace line) (lit "@:")
  then Some (takeWhile isSpace line) else None.

(** The separator placed before a label. *)
Definition separatorFor (line : jstring) : jstring :=
  match matchRazorPrefix line with
  | Some prefix => prefix ++ lit "@:"
  | None => []
  end.

(** [insertSwitchBlankLines]: the loop from line [i] on; the result is the
    list of lines and the flag [insertedBlankLines]. *)
Fixpoint insertSwitchBlankLines_go (lines : list jstring) (i : nat)
    (meta : list (option RawLineMeta)) (inRaw prevRawBreak prevRawLineBlank : bool)
  : list jstring * bool :=
  match lines with
  | [] => ([], false)
  | line :: lines' =>
      match meta !! i with
      | Some (Some m) =>
          if isRawBlock m then
            let prevRawBreak1 := if inRaw then prevRawBreak else false in
            let prevRawLineBlank1 := if inRaw then prevRawLineBlank else false in
            let insertHere :=
              isCaseOrDefault m && prevRawBreak1 && negb prevRawLineBlank1 in
            let isBlank := isBlankLine line in
            let r :=
              insertSwitchBlankLines_go lines' (S i) meta true
                (if isBlank then prevRawBreak1 else isBreak m) isBlank in
            if insertHere then (separatorFor line :: line :: fst r, true)
            else (line :: fst r, snd r)
          else
            let r := insertSwitchBlankLines_go lines' (S i) meta false false false in
            (line :: fst r, snd r)
      | _ =>
          let r := insertSwitchBlankLines_go lines' (S i) meta false false false in
          (line :: fst r, snd r)
      end
  end.

Definition insertSwitchBlankLines (lines : list jstring) (meta : list (option RawLineMeta))
  : list jstring * bool :=
  insertSwitchBlankLines_go lines 0 meta false false false.

Record Validation := {
  ok : bool;
  message : jstring
}.

Definition LINE_COUNT_CHANGED : jstring := lit "Validation failed: line count changed.".

Definition contentChanged (changedLines : list jstring) : jstring :=
  lit "Validation failed: non-indentation content changed on line(s) "
  ++ join (lit ", ") changedLines ++ lit ".".

(** The [while] loop of [validateOutput]: [originalIndex] is the number of
    original lines already passed, the lists are the lines not yet passed.
    The result is the numbers pushed to [changedLines], the original lines
    left and the output lines left. *)
Fixpoint validateLoop (allowBlankLineInsert : bool) (originalIndex : nat)
    (originalLines outputLines : list jstring)
  : list jstring * list jstring * list jstring :=
  match outputLines with
  | [] => ([], originalLines, [])
  | outputLine :: outputLines' =>
      match originalLines with
      | [] => ([], [], outputLines)
      | originalLine :: originalLines' =>
          if allowBlankLineInsert && isBlankLine outputLine then
            if isBlankLine originalLine
            then validateLoop allowBlankLineInsert (S originalIndex)
                   originalLines' outputLines'
            else validateLoop allowBlankLineInsert originalIndex
                   originalLines outputLines'
          else
            let '(changed, restOriginal, restOutput) :=
              validateLoop allowBlankLineInsert (S originalIndex)
                originalLines' outputLines' in
            if eqStr (normalizeForValidation originalLine)
                     (normalizeForValidation outputLine)
            then (changed, restOriginal, restOutput)
            else (numberToString (Z.of_nat originalIndex + 1) :: changed,
                  restOriginal, restOutput)
      end
  end.

Definition validateOutput (lineInfos : list LineInfo) (outputLines : list jstring)
    (allowBlankLineInsert : bool) : Validation :=
  let originalLines := List.map original lineInfos in
  if negb allowBlankLineInsert && negb (length originalLines =? length outputLines)%nat
  then {| ok := false; message := LINE_COUNT_CHANGED |}
  else
    let '(changed, restOriginal, restOutput) :=
      validateLoop allowBlankLineInsert 0 originalLines outputLines in
    let originalIndex := (length originalLines - length restOriginal)%nat in
    let unmatched :=
      List.map (fun i => numberToString (Z.of_nat i + 1))
        (seq originalIndex (length restOriginal)) in
    let changed := changed ++ unmatched in
    if negb allowBlankLineInsert && negb (isEmpty restOutput)
    then {| ok := false; message := LINE_COUNT_CHANGED |}
    else
      let trailing :=
        if allowBlankLineInsert && existsb (fun l => negb (isBlankLine l)) restOutput
        then [numberToString (Z.of_nat (length originalLines))] else [] in
      let changed := changed ++ trailing in
      if isEmpty changed then {| ok := true; message := [] |}
      else {| ok := false; message := contentChanged changed |}.

(* ================================================================== *)
(** ** [formatText] *)

(** The values [formatText] computes on its way, by the names of the
    source. *)
Record Trace := {
  trIndentSize : Z;
  trLines : list jstring;
  trLineEnding : jstring;
  trLineInfos : list LineInfo;
  trScan : ScanState;
  trTextBlocks : list TextBlock;
  trBlockArrays : Arrays;
  trArrays : Arrays;
  trOutputLines : list jstring;
  trSpacedLines : list jstring;
  trInserted : bool;
  trValidation : Validation
}.

Definition VALIDATION_OK : jstring := lit "Validation ok: non-leading content unchanged.".
Definition NO_CHANGES : jstring := lit "No indentation changes detected.".

(** One [Line i: before -> after] record. *)
Definition changeRecord (i : nat) (before after : Z) : jstring :=
  lit "Line " ++ numberToString (Z.of_nat i + 1) ++ lit ": "
  ++ numberToString before ++ lit " -> " ++ numberToString after.

(** The loop that logs the lines whose width changed, from line [i] on. *)
Fixpoint changeRecords (i : nat) (infos : list LineInfo) (desired : list (option Z))
  : list jstring :=
  match infos with
  | [] => []
  | info :: infos' =>
      let before := leadingWidth info in
      let after := indentAt desired i before in
      if before =? after then changeRecords (S i) infos' desired
      else changeRecord i before after :: changeRecords (S i) infos' desired
  end.

(** [formatText] from the call of [validateOutput] to the end. *)
Definition finishFormat (input lineEnding : jstring) (lineInfos : list LineInfo)
    (desired : list (option Z)) (spacedLines : list jstring) (validation : Validation)
  : FormatResult :=
  let output := join lineEnding spacedLines in
  if negb (ok validation) then
    {| output := input; logs := []; error := Some (message validation) |}
  else
    let logs := [VALIDATION_OK] ++ changeRecords 0 lineInfos desired in
    let logs := if (length logs =? 0)%nat then logs ++ [NO_CHANGES] else logs in
    {| output := output; logs := logs; error := None |}.

(** The [if (adjustTextBlocks) ... else ...] statement. *)
Definition resolveBlocks (adjust : bool) (blocks : list TextBlock)
    (desired : list (option Z)) (lineInfos : list LineInfo) (indentSize : Z) (n : nat)
  : Arrays :=
  let arr0 := initialArrays desired n in
  if adjust
  then applyTextBlockIndentation blocks arr0 lineInfos indentSize
  else withIndents (applyTextBlockOriginalIndent blocks (indents arr0) lineInfos) arr0.

Definition trace (input : jstring) (options : FormatOptions) : Trace :=
  let indentSize := sanitizeIndentSize (indentSize options) in
  let '(lines, lineEnding) := splitLines input in
  let lineInfos := List.map (fun line => analyzeLine line indentSize) lines in
  let scan := scanFrom indentSize 0 lines lineInfos (initialScan (length lines)) in
  let blocks := finishScan (length lines) scan in
  let arr1 :=
    resolveBlocks (adjustTextBlocks options) blocks (desiredIndents scan) lineInfos
      indentSize (length lines) in
  let arr := withIndents (fillUnresolved (indents arr1) lineInfos) arr1 in
  let outputLines := imap (renderLine arr lineInfos) lines in
  let switchSpacing := insertSwitchBlankLines outputLines (rawLineMeta arr) in
  {| trIndentSize := indentSize;
     trLines := lines;
     trLineEnding := lineEnding;
     trLineInfos := lineInfos;
     trScan := scan;
     trTextBlocks := blocks;
     trBlockArrays := arr1;
     trArrays := arr;
     trOutputLines := outputLines;
     trSpacedLines := fst switchSpacing;
     trInserted := snd switchSpacing;
     trValidation := validateOutput lineInfos (fst switchSpacing) (snd switchSpacing) |}.

Definition formatText (input : jstring) (options : FormatOptions) : FormatResult :=
  let t := trace input options in
  finishFormat input (trLineEnding t) (trLineInfos t) (indents (trArrays t))
    (trSpacedLines t) (trValidation t).

(** A call of [formatText] throws (a RangeError, out of [lines.map]) when
    a call of [repeat] does while a line is rendered; otherwise it returns
    [formatText input options]. *)
Definition formatTextThrows (maxLength : Z) (input : jstring) (options : FormatOptions)
  : bool :=
  let t := trace input options in
  existsb (renderLineThrows maxLength (trArrays t) (trLineInfos t))
    (seq 0 (length (trLines t))).

Definition formatTextRun (maxLength : Z) (input : jstring) (options : FormatOptions)
  : option FormatResult :=
  if formatTextThrows maxLength input options then None
  else Some (formatText input options).

(* ================================================================== *)
(** ** Documents and options for the examples *)

(** A document given line by line, joined with line feeds; an apostrophe
    stands for the double quote of the test suite (both open a string for
    [countBraces]). *)
Definition doc (ls : list string) : jstring := join [ch_lf] (List.map lit ls).

Definition opts (n : Z) : FormatOptions :=
  {| indentSize := Finite (inject_Z n); adjustTextBlocks := true |}.

(* ================================================================== *)
(** ** The choice of a decoder for a dropped file ([main.ts])

    [TextDecoder] belongs to the host: the two ways the source calls it are
    parameters of the embedding.  A byte array is the list of its bytes. *)

Inductive Encoding := utf_8 | shift_jis | euc_jp.

(** The text [decodeWithEncoding] searches for to tell that the decoder
    replaced a sequence of bytes, as the source file spells it. *)
Definition REPLACEMENT_LITERAL : jstring := [239; 191; 189]%N.

(** Hiragana, katakana, the common ideographs and the half-width
    katakana. *)
Definition isJapanese (code : N) : bool :=
  ((12352 <=? code) && (code <=? 12447) || (12448 <=? code) && (code <=? 12543)
   || (19968 <=? code) && (code <=? 40959) || (65381 <=? code) && (code <=? 65439))%N.

(** A control character other than tab, line feed and carriage return. *)
Definition isControl (code : N) : bool :=
  ((code <? 32) && negb (code =? 9) && negb (code =? 10) && negb (code =? 13))%N.

(** The loop of [scoreDecodedText] with its two counters. *)
Fixpoint scoreLoop (text : jstring) (jpCount controlCount : Z) : Z * Z :=
  match text with
  | [] => (jpCount, controlCount)
  | code :: text' =>
      if (code =? 65533)%N then scoreLoop text' jpCount controlCount
      else if isControl code then scoreLoop text' jpCount (controlCount + 1)
      else if isJapanese code then scoreLoop text' (jpCount + 1) controlCount
      else scoreLoop text' jpCount controlCount
  end.

Definition scoreDecodedText (text : jstring) (hadReplacement : bool) : Z :=
  let '(jpCount, controlCount) := scoreLoop text 0 0 in
  let score := jpCount * 2 - controlCount * 2 in
  if hadReplacement then score - 5 else score.

(** [best] of [detectEncoding]; a score of [None] is
    [Number.NEGATIVE_INFINITY]. *)
Record Best := {
  bestEncoding : Encoding;
  bestScore : option Z
}.

(** [score > best.score]. *)
Definition exceeds (score : Z) (best : option Z) : bool :=
  match best with
  | None => true
  | Some b => b <? score
  end.

Definition CANDIDATES : list Encoding := [utf_8; shift_jis; euc_jp].

(** The place of an encoding among the candidates. *)
Definition candidateRank (e : Encoding) : nat :=
  match e with utf_8 => 0 | shift_jis => 1 | euc_jp => 2 end.

Section Decoders.

(** [new TextDecoder('utf-8', { fatal: true }).decode(bytes)], [None] when
    it throws, and [new TextDecoder(encoding).decode(bytes)]. *)
Variable decodeFatal : list N -> option jstring.
Variable decode : Encoding -> list N -> jstring.

Definition decodeWithEncoding (bytes : list N) (encoding : Encoding) : jstring * bool :=
  let lenient :=
    let text := decode encoding bytes in (text, includes text REPLACEMENT_LITERAL) in
  match encoding with
  | utf_8 =>
      match decodeFatal bytes with
      | Some text => (text, false)
      | None => lenient
      end
  | _ => lenient
  end.

(** The score of a candidate, as the loop of [detectEncoding] computes
    it. *)
Definition candidateScore (bytes : list N) (encoding : Encoding) : Z :=
  let result := decodeWithEncoding bytes encoding in
  scoreDecodedText (fst result) (snd result).

Fixpoint detectLoop (bytes : list N) (candidates : list Encoding) (best : Best) : Best :=
  match candidates with
  | [] => best
  | encoding :: candidates' =>
      let score := candidateScore bytes encoding in
      detectLoop bytes candidates'
        (if exceeds score (bestScore best)
         then {| bestEncoding := encoding; bestScore := Some score |}
         else best)
  end.

Definition detectEncoding (bytes : list N) : Encoding :=
  bestEncoding (detectLoop bytes CANDIDATES {| bestEncoding := utf_8; bestScore := None |}).

End Decoders.

(* ================================================================== *)
(** ** The notions the contract is stated with *)

(** What [normalizeForValidation] does after the leading white space is
    gone. *)
Definition normalizeStripped (s : jstring) : jstring :=
  normalizeSwitchSpacing
    match stripPrefix (lit "@:") s with
    | Some r => lit "@:" ++ dropWhile isSpace r
    | None => s
    end.

(** Content preservation between the original lines and the lines of the
    output: every original line has its counterpart, equal to it once both
    are stripped of leading white space and normalised, and the other output
    lines are separators (blank, or the bare prefix [@:]). *)
Inductive Preserved : list jstring -> list jstring -> Prop :=
| Preserved_nil : Preserved [] []
| Preserved_line (o f : jstring) (os fs : list jstring) :
    normalizeForValidation o = normalizeForValidation f ->
    Preserved os fs -> Preserved (o :: os) (f :: fs)
| Preserved_separator (f : jstring) (os fs : list jstring) :
    isBlankLine f = true -> Preserved os fs -> Preserved os (f :: fs).

(** Line [i] of a raw block is a label that directly follows a line of the
    block that is a [break] and is not blank: the place of a separator. *)
Definition separatorBefore (lines : list jstring) (meta : list (option RawLineMeta))
    (i : nat) : bool :=
  match i with
  | O => false
  | S j =>
      match meta !! i, meta !! j, lines !! j with
      | Some (Some m), Some (Some mp), Some lp =>
          isRawBlock m && isCaseOrDefault m
          && isRawBlock mp && isBreak mp && negb (isBlankLine lp)
      | _, _, _ => false
      end
  end.

Definition separatorCount (lines : list jstring) (meta : list (option RawLineMeta)) : nat :=
  length (List.filter (separatorBefore lines meta) (seq 0 (length lines))).

(** A line of the input whose code text is a [break] statement, and one
    whose code text is a [case] or [default] label. *)
Definition isBreakText (line : jstring) : bool :=
  keywordAt (lit "break") (codeText (trimStart line)).

Definition isLabelText (line : jstring) : bool :=
  caseOrDefaultAt (codeText (trimStart line)).

(** No [break] line is directly followed by a label. *)
Definition NoBreakThenLabel (lines : list jstring) : Prop :=
  forall (j : nat) (l1 l2 : jstring),
    lines !! j = Some l1 -> lines !! (S j) = Some l2 ->
    isBreakText l1 = true -> isLabelText l2 = true -> False.

(** Line [i - 1] belongs to a raw block, is a [break] and is not blank. *)
Definition breakBefore (lines : list jstring) (meta : list (option RawLineMeta))
    (i : nat) : bool :=
  match i with
  | O => false
  | S j =>
      match meta !! j, lines !! j with
      | Some (Some mp), Some lp => isRawBlock mp && isBreak mp && negb (isBlankLine lp)
      | _, _ => false
      end
  end.

Definition labelAt (meta : list (option RawLineMeta)) (i : nat) : bool :=
  match meta !! i with
  | Some (Some m) => isRawBlock m && isCaseOrDefault m
  | _ => false
  end.

(** The flags of [rawLineMeta] are sound for the text of their line. *)
Definition MetaSound (lines : list jstring) (meta : list (option RawLineMeta)) : Prop :=
  forall (j : nat) (m : RawLineMeta),
    meta !! j = Some (Some m) ->
    exists line : jstring,
      lines !! j = Some line
      /\ (isCaseOrDefault m = true -> isLabelText line = true)
      /\ (isBreak m = true -> isBreakText line = true).

(** Line [j] lies inside a block being captured: the document pass leaves
    its width unresolved. *)
Definition Captured (u : Z) (lines : list jstring) (infos : list LineInfo) (j : nat) : bool :=
  match lines !! j, infos !! j with
  | Some line, Some info =>
      let st := closeCapture j line info (scanPrefix u lines infos j) in
      inTextBlock st || inRawBlock st
  | _, _ => false
  end.

(** The blocks follow one another: each ends before the next starts. *)
Definition BlocksOrdered (blocks : list TextBlock) : Prop :=
  forall (i1 i2 : nat) (b1 b2 : TextBlock),
    (i1 < i2)%nat -> blocks !! i1 = Some b1 -> blocks !! i2 = Some b2 ->
    (endLine b1 < startLine b2)%nat.

(** What the document pass maintains on entry to line [n]. *)
Record ScanInv (u : Z) (lines : list jstring) (infos : list LineInfo) (n : nat)
    (st : ScanState) : Prop := {
  inv_length : length (desiredIndents st) = length lines;
  inv_desired :
    forall (j : nat) (line : jstring) (info : LineInfo),
      (j < n)%nat -> lines !! j = Some line -> infos !! j = Some info ->
      desiredIndents st !! j
      = Some (if Captured u lines infos j then None
              else Some (docLineIndent u (scanPrefix u lines infos j) line info));
  inv_blocks :
    forall b : TextBlock,
      In b (textBlocks st) ->
      skip b = false /\ (1 <= startLine b)%nat /\ (endLine b < n)%nat
      /\ forall j : nat,
           (startLine b <= j <= endLine b)%nat -> Captured u lines infos j = true;
  inv_ordered : BlocksOrdered (textBlocks st);
  inv_current :
    forall b : TextBlock,
      currentTextBlock st = Some b ->
      skip b = false /\ (1 <= startLine b <= n)%nat
      /\ (forall j : nat, (startLine b <= j < n)%nat -> Captured u lines infos j = true)
      /\ (forall b' : TextBlock, In b' (textBlocks st) -> (endLine b' < startLine b)%nat);
  inv_idle :
    inTextBlock st = false -> inRawBlock st = false -> currentTextBlock st = None
}.

(** What holds of the blocks handed to the block pass. *)
Record BlocksSound (u : Z) (lines : list jstring) (infos : list LineInfo)
    (blocks : list TextBlock) : Prop := {
  bs_ordered : BlocksOrdered blocks;
  bs_block :
    forall b : TextBlock,
      In b blocks ->
      (1 <= startLine b)%nat
      /\ (startLine b <= endLine b -> endLine b < length lines)%nat
      /\ forall j : nat,
           (startLine b <= j <= endLine b)%nat -> Captured u lines infos j = true
}.

(** The value [applyBlock] leaves at a line of its block. *)
Definition blockValue (u : Z) (infos : list LineInfo) (b : TextBlock) (k : nat)
    (info : LineInfo) : Z :=
  let isRaw := setHas RAW_TAGS (tagName b) in
  if skip b || (isRaw && shouldPreserveRawBlockIndent b infos)
  then leadingWidth info
  else blockLineIndent u (blockBaseIndent u isRaw b) isRaw
         (blockStateAt u isRaw infos (blockRange b) k initialBlock) (rest info).

(** The line pushes a switch body on the stack of the document pass. *)
Definition docOpensSwitch (st : ScanState) (line : jstring) (info : LineInfo) : bool :=
  let lc := countLine st line info in
  let sh := docShape (trimStart (rest info)) in
  let opensBrace := 0 <? open (braceResult lc) in
  (shIsSwitchLine sh && opensBrace)
  || (negb (shIsSwitchLine sh) && pendingSwitch (switches st) && opensBrace
      && startsWith (shCode sh) [ch_lbrace]).

(** On entry to line [i] a switch body is open (pushed by a line [s] and
    not left since) and a label [l] has been seen in it. *)
Definition LabelSeenInOpenSwitch (u : Z) (lines : list jstring) (infos : list LineInfo)
    (i : nat) : Prop :=
  exists (s l : nat) (line_s : jstring) (info_s info_l : LineInfo),
    (s < l < i)%nat
    /\ lines !! s = Some line_s /\ infos !! s = Some info_s /\ infos !! l = Some info_l
    /\ Captured u lines infos s = false /\ Captured u lines infos l = false
    /\ docOpensSwitch (scanPrefix u lines infos s) line_s info_s = true
    /\ shIsCaseOrDefault (docShape (trimStart (rest info_l))) = true
    /\ forall k : nat,
         (s < k <= i)%nat ->
         level (scanPrefix u lines infos (S s)) <= level (scanPrefix u lines infos k).

(** A switch nested in a case of another switch. *)
Definition nestedSwitchDoc : jstring :=
  doc ["switch(a){"; "case 1:"; "switch(b){"; "case 2:"; "x();"; "}"; "y();";
       "case 3:"; "z();"; "}"]%string.

(** [razorBraceDepth] of [shouldPreserveRawBlockIndent] on entry to the
    [k]-th line of a range. *)
Fixpoint razorDepthAt (infos : list LineInfo) (range : list nat) (k : nat) (depth : Z) : Z :=
  match k, range with
  | S k', lineIndex :: range' =>
      match infos !! lineIndex with
      | Some info => razorDepthAt infos range' k' (razorDepthAfter depth (rest info))
      | None => depth
      end
  | _, _ => depth
  end.

(** The block holds a Razor directive line, and a line that is not blank,
    does not start with [@] and lies outside the braces opened by directive
    lines. *)
Definition MixesDirectiveAndOutsidePlain (infos : list LineInfo) (block : TextBlock)
  : Prop :=
  exists (p q jp jq : nat) (ip iq : LineInfo),
    blockRange block !! p = Some jp /\ infos !! jp = Some ip
    /\ isRazorDirective (trimStart (rest ip)) = true
    /\ blockRange block !! q = Some jq /\ infos !! jq = Some iq
    /\ isEmpty (trimStart (rest iq)) = false
    /\ startsWith (trimStart (rest iq)) [ch_at] = false
    /\ razorDepthAt infos (blockRange block) q 0 <= 0.

(** The block holds a Razor directive line and a line that is not blank
    and does not start with [@], wherever that line stands. *)
Definition MixesDirectiveAndPlain (infos : list LineInfo) (block : TextBlock) : Prop :=
  exists (jp jq : nat) (ip iq : LineInfo),
    In jp (blockRange block) /\ infos !! jp = Some ip
    /\ isRazorDirective (trimStart (rest ip)) = true
    /\ In jq (blockRange block) /\ infos !! jq = Some iq
    /\ isEmpty (trimStart (rest iq)) = false
    /\ startsWith (trimStart (rest iq)) [ch_at] = false.

(** Documents of the test suite (an apostrophe stands for a double
    quote). *)
Definition razorCodeBlockDoc : jstring :=
  doc ["<script>"; "@{"; "var count = 3;"; "var isEnabled = true;"; "}"; "</script>"]%string.

Definition switchScriptDoc : jstring :=
  doc ["<script>"; "switch(mode){"; "case 'A':"; "console.log('mode A');"; "break;";
       "  case 'B':"; "console.log('mode B');"; "break;"; "default:";
       " console.log('default');"; "break;"; "}"; "</script>"]%string.

Definition mixedDirectiveDoc : jstring :=
  doc ["<div>"; "<script>"; "  var a = 1;"; "    @if (x) {"; " foo();"; "    }";
       "</script>"; "</div>"]%string.

(** A [<text>] block whose only line holds a line separator (U+2028) after
    its first word; a lone carriage return or U+2029 behaves alike.  The
    second document has the same line inside a tag. *)
Definition ch_ls : N := 8232.

Definition strayTerminatorLine : jstring := [ch_tab] ++ lit "x" ++ [ch_ls] ++ lit "y".

Definition strayTerminatorDoc : jstring :=
  lit "<text>" ++ [ch_lf] ++ strayTerminatorLine ++ [ch_lf] ++ lit "</text>".

Definition strayTerminatorInTag : jstring :=
  lit "<div>" ++ [ch_lf] ++ strayTerminatorLine ++ [ch_lf] ++ lit "</div>".

(** The lines the spacing pass hands to the validator: every original line
    has its rendered line, which is blank exactly when the original is, and a
    separator only stands before the rendered line of an original line that
    is not blank. *)
Inductive Spaced : list jstring -> list jstring -> Prop :=
| Spaced_nil : Spaced [] []
| Spaced_line (o f : jstring) (os fs : list jstring) :
    normalizeForValidation o = normalizeForValidation f ->
    isBlankLine f = isBlankLine o ->
    Spaced os fs -> Spaced (o :: os) (f :: fs)
| Spaced_separator (sep o f : jstring) (os fs : list jstring) :
    isBlankLine sep = true -> isBlankLine o = false ->
    normalizeForValidation o = normalizeForValidation f ->
    isBlankLine f = false ->
    Spaced os fs -> Spaced (o :: os) (sep :: f :: fs).

(** The text of a line number. *)
Definition lineNumber (n : nat) : jstring := numberToString (Z.of_nat n).

(** The number of separators the spacing pass inserts into the lines
    [formatText] renders. *)
Definition separatorsInserted (input : jstring) (options : FormatOptions) : nat :=
  let t := trace input options in
  separatorCount (trOutputLines t) (rawLineMeta (trArrays t)).

(** Line [i] of the document is a label and line [i - 1] is a [break]
    statement; the number of such places. *)
Definition breakThenLabelAt (lines : list jstring) (i : nat) : bool :=
  match i with
  | O => false
  | S j =>
      match lines !! j, lines !! i with
      | Some l1, Some l2 => isBreakText l1 && isLabelText l2
      | _, _ => false
      end
  end.

Definition breakThenLabelCount (lines : list jstring) : nat :=
  length (List.filter (breakThenLabelAt lines) (seq 0 (length lines))).

(** The lockstep walk of the validator, told by what it decides and not by
    its cursors.  Every original line is paired with the output line it is
    held against: when separators may have been inserted ([allow]), a blank
    output line that faces an original line that is not blank is passed
    over; [None] says that the output has no line left. *)
Fixpoint counterparts (allow : bool) (originals outputs : list jstring)
  : list (option jstring) :=
  match outputs with
  | [] => List.map (fun _ => None) originals
  | f :: outputs' =>
      match originals with
      | [] => []
      | o :: originals' =>
          if allow && isBlankLine f && negb (isBlankLine o)
          then counterparts allow originals outputs'
          else Some f :: counterparts allow originals' outputs'
      end
  end.

(** The output lines that are left when every original line has its
    counterpart. *)
Fixpoint leftover (allow : bool) (originals outputs : list jstring) : list jstring :=
  match outputs with
  | [] => []
  | f :: outputs' =>
      match originals with
      | [] => outputs
      | o :: originals' =>
          if allow && isBlankLine f && negb (isBlankLine o)
          then leftover allow originals outputs'
          else leftover allow originals' outputs'
      end
  end.







(* ================================================================== *)
(** ** Notions for the properties of the helper functions *)

(** The number of line feeds of a text. *)
Fixpoint countLf (s : jstring) : nat :=
  match s with
  | [] => 0%nat
  | c :: s' => ((if (c =? ch_lf)%N then 1 else 0) + countLf s')%nat
  end.

(** A text without a line feed, and one with neither a line feed nor a
    carriage return. *)
Definition noLf (s : jstring) : bool := forallb (fun c => negb (c =? ch_lf)%N) s.

Definition noLineBreak (s : jstring) : bool :=
  forallb (fun c => negb (c =? ch_lf)%N && negb (c =? ch_cr)%N) s.

(** Every line feed of the text directly follows a carriage return;
    [prevCr] tells whether the unit before the text is one. *)
Fixpoint everyLfAfterCr (prevCr : bool) (s : jstring) : bool :=
  match s with
  | [] => true
  | c :: s' => (negb (c =? ch_lf)%N || prevCr) && everyLfAfterCr (c =? ch_cr)%N s'
  end.

(** The line breaks of the text are all of one kind: no [\r\n] at all, or
    no line feed without its carriage return. *)
Definition uniformLineEndings (input : jstring) : bool :=
  negb (includes input CRLF) || everyLfAfterCr false input.

(** The text ends with a carriage return; no line of the list but the
    last one does. *)
Fixpoint endsWithCr (s : jstring) : bool :=
  match s with
  | [] => false
  | [c] => (c =? ch_cr)%N
  | _ :: s' => endsWithCr s'
  end.

Fixpoint innerNoCr (ls : list jstring) : bool :=
  match ls with
  | [] => true
  | [_] => true
  | l :: ls' => negb (endsWithCr l) && innerNoCr ls'
  end.

(** The number of tabs of a text. *)
Fixpoint countTabs (s : jstring) : nat :=
  match s with
  | [] => 0%nat
  | c :: s' => ((if (c =? ch_tab)%N then 1 else 0) + countTabs s')%nat
  end.

(** A line [analyzeLine] takes apart: no line terminator follows its leading
    white space. *)
Definition regularLine (line : jstring) : bool :=
  noLineTerminator (dropWhile isSpace line).

(** A tag name as [extractTags] reports it: not empty, made of the units of
    [[a-zA-Z0-9:-]], without an upper case letter. *)
Definition isLowerTagName (nm : jstring) : bool :=
  negb (isEmpty nm) && forallb (fun c => isTagNameChar c && negb (isUpper c)) nm.

(** The texts of the expression [<\s*\/\s*NAME\s*>] under the [i] flag. *)
Definition ClosingTagText (tagName s : jstring) : Prop :=
  exists ws1 ws2 nm ws3 : jstring,
    s = [ch_lt] ++ ws1 ++ [ch_slash] ++ ws2 ++ nm ++ ws3 ++ [ch_gt]
    /\ forallb isSpace ws1 = true /\ forallb isSpace ws2 = true
    /\ forallb isSpace ws3 = true /\ toLowerCase nm = tagName.

(** Case analysis on the range tests of a code unit. *)
Ltac range_cases :=
  repeat match goal with
  | |- context [N.leb ?a ?b] => destruct (N.leb_spec a b)
  | |- context [N.eqb ?a ?b] => destruct (N.eqb_spec a b)
  | H : context [N.leb ?a ?b] |- _ => destruct (N.leb_spec a b)
  | H : context [N.eqb ?a ?b] |- _ => destruct (N.eqb_spec a b)
  end; simpl in *; try done; try lia.


(** The number of occurrences of a code unit. *)
Fixpoint countChar (d : N) (s : jstring) : Z :=
  match s with
  | [] => 0
  | c :: s' => (if (c =? d)%N then 1 else 0) + countChar d s'
  end.

(** A code unit that opens a string, a template or a comment for
    [countBraces]. *)
Definition isQuoteOrSlash (c : N) : bool :=
  ((c =? ch_squote) || (c =? ch_dquote) || (c =? ch_backtick) || (c =? ch_slash))%N.

Definition plainCode (s : jstring) : bool := forallb (fun c => negb (isQuoteOrSlash c)) s.

(** The line with every backslash replaced by the letter [a]. *)
Definition ch_backslash : N := 92.
Definition ch_a : N := 97.

Definition withoutBackslashes (s : jstring) : jstring :=
  List.map (fun c => if (c =? ch_backslash)%N then ch_a else c) s.

(** A normal form of [normalizeForValidation] that stands for a blank
    line. *)
Definition isBlankNormal (n : jstring) : bool := isEmpty n || eqStr n (lit "@:").

Definition nonBlank (line : jstring) : bool := negb (isBlankLine line).

(** Two lines with the same content for the validator. *)
Definition sameContent (a b : jstring) : Prop :=
  normalizeForValidation a = normalizeForValidation b.

(** The line opens a raw block: its text starts with the opening tag of a
    [script] or [style] element. *)
Definition opensRawBlock (line : jstring) : bool :=
  isLineOpeningTag (trimStart line) (lit "script")
  || isLineOpeningTag (trimStart line) (lit "style").

(** A script block that is never closed. *)
Definition unclosedScriptDoc : jstring :=
  lit "<div>" ++ [ch_lf] ++ lit "<script>" ++ [ch_lf] ++ [ch_tab] ++ lit "  x();".

(** The state of the document pass while no line has opened a raw block:
    the blocks are [text] blocks. *)
Definition TextOnly (st : ScanState) : Prop :=
  inRawBlock st = false
  /\ (forall b, currentTextBlock st = Some b -> tagName b = lit "text")
  /\ (forall b, In b (textBlocks st) -> tagName b = lit "text").

(** A text block whose content holds braces. *)
Definition textBlockDoc : jstring :=
  doc ["<div>"; "<text>"; "  if (a) {"; "x();"; "     }"; "</text>"; "</div>"]%string.

(** A width that is resolved is not negative. *)
Definition nonnegWidth (x : option Z) : Prop :=
  match x with Some w => 0 <= w | None => True end.

(** A width that is resolved and not negative. *)
Definition resolvedWidth (x : option Z) : Prop :=
  match x with Some w => 0 <= w | None => False end.

(** The blocks the document pass knows have a parent level that is not
    negative. *)
Definition ParentNonneg (st : ScanState) : Prop :=
  (forall b, currentTextBlock st = Some b -> 0 <= parentLevel b)
  /\ (forall b, In b (textBlocks st) -> 0 <= parentLevel b).

(** The base level of the current run of [@:] lines is not negative. *)
Definition GroupNonneg (bs : BlockState) : Prop :=
  match razorTextGroupBaseLevel bs with Some g => 0 <= g | None => True end.

(** What the block pass keeps of its arrays. *)
Definition ArraysNonneg (arr : Arrays) : Prop :=
  Forall nonnegWidth (indents arr) /\ Forall (fun c => 0 <= c) (razorTextContentIndents arr).

(** A [text] element written on one line, followed by markup. *)
Definition oneLineTextDoc : jstring :=
  doc ["<div>"; "<text>hello</text>"; "<p>"; "  </p>"; "</div>"]%string.

(** Case analysis on the tests of a conditional. *)
Ltac branch_cases :=
  repeat match goal with
  | |- context [if ?b then _ else _] => destruct b
  end.

(* ================================================================== *)
(** * Theorems *)

(** ** Strings *)

Lemma eqStr_eq (a b : jstring) : eqStr a b = true <-> a = b.
Proof.
  revert b; induction a as [|x a IH]; intros [|y b]; simpl; split; try done.
  - intros H. apply andb_prop in H as [Hx Hab].
    apply N.eqb_eq in Hx. apply IH in Hab. by subst.
  - intros [= -> ->]. rewrite N.eqb_refl. simpl. by apply IH.
Qed.

Lemma eqStr_refl (a : jstring) : eqStr a a = true.
Proof. by apply eqStr_eq. Qed.

Lemma stripPrefix_app (p s r : jstring) : stripPrefix p s = Some r <-> s = p ++ r.
Proof.
  revert s; induction p as [|x p IH]; intros s; simpl.
  - split; [by intros [= ->] | by intros ->].
  - destruct s as [|y s]; [split; done|].
    destruct (N.eqb_spec x y) as [->|Hne].
    + rewrite IH. split; [by intros -> | by intros [= ->]].
    + split; [done | intros [= -> _]; done].
Qed.

Lemma stripPrefix_lit_app (p r : jstring) : stripPrefix p (p ++ r) = Some r.
Proof. by apply stripPrefix_app. Qed.

Lemma dropWhile_idem (f : N -> bool) (s : jstring) :
  dropWhile f (dropWhile f s) = dropWhile f s.
Proof.
  induction s as [|c s IH]; simpl; [done|].
  destruct (f c) eqn:E; [done|]. simpl. by rewrite E.
Qed.

Lemma takeWhile_dropWhile (f : N -> bool) (s : jstring) :
  takeWhile f s ++ dropWhile f s = s.
Proof.
  induction s as [|c s IH]; simpl; [done|].
  destruct (f c); simpl; [by rewrite IH | done].
Qed.

Lemma dropWhile_all (f : N -> bool) (a s : jstring) :
  forallb f a = true -> dropWhile f (a ++ s) = dropWhile f s.
Proof.
  induction a as [|c a IH]; simpl; [done|].
  intros H. apply andb_prop in H as [Hc Ha]. rewrite Hc. by apply IH.
Qed.

Lemma takeWhile_forallb (f : N -> bool) (s : jstring) : forallb f (takeWhile f s) = true.
Proof.
  induction s as [|c s IH]; simpl; [done|].
  destruct (f c) eqn:E; simpl; [by rewrite E | done].
Qed.

Lemma dropWhile_head (f : N -> bool) (s : jstring) (c : N) (r : jstring) :
  dropWhile f s = c :: r -> f c = false.
Proof.
  induction s as [|d s IH]; simpl; [done|].
  destruct (f d) eqn:E; [done|]. by intros [= <- _].
Qed.

Lemma dropWhile_fixed (f : N -> bool) (s : jstring) :
  match s with [] => True | c :: _ => f c = false end -> dropWhile f s = s.
Proof. destruct s as [|c s]; simpl; [done|]. by intros ->. Qed.

Lemma forallb_spaces (n : Z) : forallb isSpace (spaces n) = true.
Proof.
  unfold spaces. induction (Z.to_nat n) as [|k IH]; simpl; [done|]. by rewrite IH.
Qed.

Lemma dropWhile_spaces (n : Z) (s : jstring) :
  dropWhile isSpace (spaces n ++ s) = dropWhile isSpace s.
Proof. apply dropWhile_all, forallb_spaces. Qed.

Lemma length_spaces (n : Z) : length (spaces n) = Z.to_nat n.
Proof. unfold spaces. apply repeat_length. Qed.

(** [dropWhile] keeps a suffix. *)
Lemma dropWhile_suffix (f : N -> bool) (s : jstring) :
  exists pre : jstring, s = pre ++ dropWhile f s.
Proof. exists (takeWhile f s). by rewrite takeWhile_dropWhile. Qed.

Lemma noLineTerminator_app (a b : jstring) :
  noLineTerminator (a ++ b) = noLineTerminator a && noLineTerminator b.
Proof. unfold noLineTerminator. apply forallb_app. Qed.

Lemma noLineTerminator_rev (a : jstring) : noLineTerminator (rev a) = noLineTerminator a.
Proof.
  induction a as [|c a IH]; simpl; [done|].
  rewrite noLineTerminator_app, IH. simpl. rewrite andb_true_r. apply andb_comm.
Qed.

Lemma noLineTerminator_dropWhile (f : N -> bool) (s : jstring) :
  noLineTerminator s = true -> noLineTerminator (dropWhile f s) = true.
Proof.
  destruct (dropWhile_suffix f s) as [pre E]. intros H. rewrite E in H.
  rewrite noLineTerminator_app in H. by apply andb_prop in H as [_ H].
Qed.

(** A trimmed text neither starts nor ends with white space. *)
Lemma trimEnd_fixed (s : jstring) :
  match rev s with [] => True | c :: _ => isSpace c = false end -> trimEnd s = s.
Proof.
  intros H. unfold trimEnd. rewrite dropWhile_fixed by done. apply rev_involutive.
Qed.

Lemma trim_idem (s : jstring) : trim (trim s) = trim s.
Proof.
  unfold trim, trimStart, trimEnd.
  set (a := dropWhile isSpace s).
  set (b := dropWhile isSpace (rev a)).
  assert (Hb : dropWhile isSpace (rev b) = rev b).
  { apply dropWhile_fixed.
    destruct (dropWhile_suffix isSpace (rev a)) as [pre E]. fold b in E.
    assert (Ha : a = rev b ++ rev pre).
    { rewrite <- (rev_involutive a), E, rev_app_distr. done. }
    destruct (rev b) as [|c r] eqn:Er; [done|].
    simpl in Ha. subst a. by apply dropWhile_head in Ha. }
  rewrite Hb, rev_involutive. subst b. by rewrite dropWhile_idem.
Qed.

Lemma noLineTerminator_trim (s : jstring) :
  noLineTerminator s = true -> noLineTerminator (trim s) = true.
Proof.
  intros H. unfold trim, trimEnd, trimStart.
  rewrite noLineTerminator_rev. apply noLineTerminator_dropWhile.
  rewrite noLineTerminator_rev. by apply noLineTerminator_dropWhile.
Qed.

(** ** Rendering keeps the content of a line *)

Lemma rest_analyzeLine (line : jstring) (u : Z) :
  dropWhile isSpace (rest (analyzeLine line u)) = dropWhile isSpace line.
Proof.
  unfold analyzeLine, matchLeadingRest.
  destruct (noLineTerminator (dropWhile isSpace line)); simpl; [|done].
  apply dropWhile_idem.
Qed.

Lemma makeIndentedLine_strip (r : jstring) (w : Z) :
  dropWhile isSpace (makeIndentedLine r w) = dropWhile isSpace r.
Proof.
  unfold makeIndentedLine. destruct (w <=? 0); [done|]. apply dropWhile_spaces.
Qed.

Lemma normalizeForValidation_strip (line : jstring) :
  normalizeForValidation line = normalizeStripped (dropWhile isSpace line).
Proof. reflexivity. Qed.

Lemma normalize_same_strip (a b : jstring) :
  dropWhile isSpace a = dropWhile isSpace b ->
  normalizeForValidation a = normalizeForValidation b.
Proof. intros H. by rewrite !normalizeForValidation_strip, H. Qed.

Lemma matchSwitchHeader_switchHeader (inner : jstring) :
  noLineTerminator inner = true ->
  matchSwitchHeader (switchHeader inner) = Some (trim inner).
Proof.
  intros Hlt. unfold switchHeader, matchSwitchHeader.
  change (lit "switch (") with (lit "switch" ++ [ch_space; ch_lparen]).
  rewrite <- app_assoc, stripPrefix_lit_app. simpl.
  rewrite rev_app_distr. simpl.
  rewrite noLineTerminator_rev, (noLineTerminator_trim _ Hlt). simpl.
  by rewrite rev_involutive.
Qed.

Lemma matchSwitchHeader_noLineTerminator (s inner : jstring) :
  matchSwitchHeader s = Some inner -> noLineTerminator inner = true.
Proof.
  unfold matchSwitchHeader.
  destruct (stripPrefix (lit "switch") s) as [r|]; [|done].
  destruct (trimStart r) as [|c body]; [done|].
  destruct (c =? ch_lparen)%N; [|done].
  destruct (dropWhile isSpace (rev body)) as [|b r1]; [done|].
  destruct (b =? ch_lbrace)%N; [|done].
  destruct (dropWhile isSpace r1) as [|p r2]; [done|].
  destruct ((p =? ch_rparen)%N && noLineTerminator r2) eqn:E; [|done].
  intros [= <-]. apply andb_prop in E as [_ E]. by rewrite noLineTerminator_rev.
Qed.

Lemma normalizeSwitchSpacing_idem (s : jstring) :
  normalizeSwitchSpacing (normalizeSwitchSpacing s) = normalizeSwitchSpacing s.
Proof.
  unfold normalizeSwitchSpacing at 2 3.
  destruct (matchSwitchHeader s) as [inner|] eqn:E.
  - unfold normalizeSwitchSpacing.
    rewrite matchSwitchHeader_switchHeader
      by (by eapply matchSwitchHeader_noLineTerminator).
    unfold switchHeader. by rewrite trim_idem.
  - unfold normalizeSwitchSpacing. by rewrite E.
Qed.

Lemma matchSwitchHeader_starts (s inner : jstring) :
  matchSwitchHeader s = Some inner -> exists r, s = lit "switch" ++ r.
Proof.
  unfold matchSwitchHeader.
  destruct (stripPrefix (lit "switch") s) as [r|] eqn:E; [|done].
  intros _. exists r. by apply stripPrefix_app.
Qed.

Lemma stripPrefix_razor_switch (r : jstring) :
  stripPrefix (lit "@:") (lit "switch" ++ r) = None.
Proof. reflexivity. Qed.

Lemma normalizeStripped_switch (s inner : jstring) :
  matchSwitchHeader s = Some inner -> normalizeStripped s = switchHeader inner.
Proof.
  intros E. destruct (matchSwitchHeader_starts _ _ E) as [r Hr].
  unfold normalizeStripped. rewrite Hr, stripPrefix_razor_switch, <- Hr.
  unfold normalizeSwitchSpacing. by rewrite E.
Qed.

Lemma normalizeForValidation_switchHeader (inner : jstring) :
  noLineTerminator inner = true ->
  normalizeForValidation (switchHeader inner) = switchHeader inner.
Proof.
  intros Hlt. rewrite normalizeForValidation_strip.
  assert (Hd : dropWhile isSpace (switchHeader inner) = switchHeader inner) by done.
  rewrite Hd.
  rewrite (normalizeStripped_switch _ _ (matchSwitchHeader_switchHeader _ Hlt)).
  unfold switchHeader. by rewrite trim_idem.
Qed.

Lemma formatRawLineContent_normalize (r : jstring) :
  normalizeForValidation (formatRawLineContent r) = normalizeForValidation r.
Proof.
  unfold formatRawLineContent, trimStart.
  destruct (matchSwitchHeader (dropWhile isSpace r)) as [inner|] eqn:E; [|done].
  rewrite (normalizeForValidation_strip r), (normalizeStripped_switch _ _ E).
  apply normalizeForValidation_switchHeader.
  by eapply matchSwitchHeader_noLineTerminator.
Qed.

Lemma matchRazorText_shape (r content : jstring) :
  matchRazorText r = Some content ->
  exists r', r = lit "@:" ++ r' /\ content = dropWhile isSpace r'.
Proof.
  unfold matchRazorText.
  destruct (stripPrefix (lit "@:") r) as [r'|] eqn:E; [|done].
  destruct (noLineTerminator _); [|done].
  intros [= <-]. exists r'. split; [by apply stripPrefix_app | done].
Qed.

Lemma normalizeStripped_razor (r' : jstring) :
  normalizeStripped (lit "@:" ++ r')
  = normalizeSwitchSpacing (lit "@:" ++ dropWhile isSpace r').
Proof. reflexivity. Qed.

Lemma makeRazorTextIndentedLine_normalize (r : jstring) (w c : Z) :
  normalizeForValidation (makeRazorTextIndentedLine r w c) = normalizeForValidation r.
Proof.
  unfold makeRazorTextIndentedLine.
  destruct (matchRazorText r) as [content|] eqn:E.
  - destruct (matchRazorText_shape _ _ E) as (r' & -> & ->).
    rewrite !normalizeForValidation_strip.
    assert (Hi : forall t : jstring,
      dropWhile isSpace ((if 0 <? w then spaces w else []) ++ lit "@:" ++ t)
      = lit "@:" ++ t).
    { intros t. destruct (0 <? w); [|done]. by rewrite dropWhile_spaces. }
    assert (Hr : dropWhile isSpace (lit "@:" ++ r') = lit "@:" ++ r') by done.
    rewrite Hr, normalizeStripped_razor.
    destruct (isEmpty (dropWhile isSpace r')) eqn:Ee.
    + pose proof (Hi []) as Hi0. rewrite app_nil_r in Hi0. rewrite Hi0.
      rewrite <- (app_nil_r (lit "@:")) at 1. rewrite normalizeStripped_razor.
      simpl dropWhile. by destruct (dropWhile isSpace r').
    + pose proof (Hi ([ch_space] ++ spaces c ++ trimStart (dropWhile isSpace r'))) as Hi1.
      rewrite (Hi1 : dropWhile isSpace
                 ((if 0 <? w then spaces w else []) ++
                    lit "@: " ++ spaces c ++ trimStart (dropWhile isSpace r')) = _).
      rewrite normalizeStripped_razor. simpl app at 2. simpl dropWhile.
      unfold trimStart. by rewrite dropWhile_spaces, !dropWhile_idem.
  - apply normalize_same_strip, makeIndentedLine_strip.
Qed.

Lemma renderLine_normalize (arr : Arrays) (lines : list jstring) (u : Z) (i : nat)
    (line : jstring) :
  lines !! i = Some line ->
  normalizeForValidation
    (renderLine arr (List.map (fun l => analyzeLine l u) lines) i line)
  = normalizeForValidation line.
Proof.
  intros Hi. unfold renderLine.
  change (List.map (fun l => analyzeLine l u) lines) with ((fun l => analyzeLine l u) <$> lines).
  rewrite list_lookup_fmap, Hi. simpl.
  set (r := rest (analyzeLine line u)).
  assert (Hr : normalizeForValidation r = normalizeForValidation line)
    by apply normalize_same_strip, rest_analyzeLine.
  destruct (default false (indentAfterRazorPrefix arr !! i)).
  - rewrite andb_false_r. by rewrite makeRazorTextIndentedLine_normalize.
  - rewrite andb_true_r.
    destruct (isRawLine (rawLineMeta arr) i).
    + rewrite (normalize_same_strip _ (formatRawLineContent r))
        by apply makeIndentedLine_strip.
      by rewrite formatRawLineContent_normalize.
    + rewrite (normalize_same_strip _ r) by apply makeIndentedLine_strip. done.
Qed.

(** ** Separators *)

Lemma isBlankLine_separatorFor (line : jstring) : isBlankLine (separatorFor line) = true.
Proof.
  unfold separatorFor, matchRazorPrefix.
  destruct (startsWith (dropWhile isSpace line) (lit "@:")); [|done].
  unfold isBlankLine, trim, trimStart.
  rewrite dropWhile_all by apply takeWhile_forallb. done.
Qed.

Lemma insertSwitchBlankLines_go_preserved (origs rendered : list jstring) :
  Forall2 (fun o f => normalizeForValidation o = normalizeForValidation f) origs rendered ->
  forall (i : nat) (meta : list (option RawLineMeta)) (a b c : bool),
    Preserved origs (fst (insertSwitchBlankLines_go rendered i meta a b c)).
Proof.
  induction 1 as [|o f os fs Hof _ IH]; intros i meta a b c; simpl.
  - constructor.
  - destruct (meta !! i) as [[m|]|]; simpl;
      try (apply Preserved_line; [done | apply IH]).
    destruct (isRawBlock m); simpl; [|apply Preserved_line; [done | apply IH]].
    destruct (isCaseOrDefault m && (if a then b else false)
              && negb (if a then c else false)); simpl.
    + apply Preserved_separator; [apply isBlankLine_separatorFor|].
      apply Preserved_line; [done | apply IH].
    + apply Preserved_line; [done | apply IH].
Qed.

Lemma Forall2_imap {A B : Type} (R : A -> B -> Prop) (l : list A) (f : nat -> A -> B) :
  (forall (i : nat) (x : A), l !! i = Some x -> R x (f i x)) ->
  Forall2 R l (imap f l).
Proof.
  revert f; induction l as [|x l IH]; intros f H; simpl; constructor.
  - by apply (H 0%nat).
  - apply IH. intros i y Hi. by apply (H (S i)).
Qed.

(** ** The stages of [formatText] *)

Lemma trace_lines (input : jstring) (o : FormatOptions) :
  trLines (trace input o) = splitOnNewlines input.
Proof. reflexivity. Qed.

Lemma trace_lineInfos (input : jstring) (o : FormatOptions) :
  trLineInfos (trace input o)
  = List.map (fun l => analyzeLine l (trIndentSize (trace input o))) (trLines (trace input o)).
Proof. reflexivity. Qed.

Lemma trace_outputLines (input : jstring) (o : FormatOptions) :
  trOutputLines (trace input o)
  = imap (renderLine (trArrays (trace input o)) (trLineInfos (trace input o)))
      (trLines (trace input o)).
Proof. reflexivity. Qed.

Lemma trace_spacedLines (input : jstring) (o : FormatOptions) :
  trSpacedLines (trace input o)
  = fst (insertSwitchBlankLines (trOutputLines (trace input o))
           (rawLineMeta (trArrays (trace input o)))).
Proof. reflexivity. Qed.

Lemma trace_inserted (input : jstring) (o : FormatOptions) :
  trInserted (trace input o)
  = snd (insertSwitchBlankLines (trOutputLines (trace input o))
           (rawLineMeta (trArrays (trace input o)))).
Proof. reflexivity. Qed.

Lemma trace_validation (input : jstring) (o : FormatOptions) :
  trValidation (trace input o)
  = validateOutput (trLineInfos (trace input o)) (trSpacedLines (trace input o))
      (trInserted (trace input o)).
Proof. reflexivity. Qed.

Lemma formatText_error (input : jstring) (o : FormatOptions) :
  error (formatText input o)
  = if ok (trValidation (trace input o)) then None
    else Some (message (trValidation (trace input o))).
Proof. unfold formatText, finishFormat. by destruct (ok _). Qed.

Lemma formatText_output (input : jstring) (o : FormatOptions) :
  output (formatText input o)
  = if ok (trValidation (trace input o))
    then join (trLineEnding (trace input o)) (trSpacedLines (trace input o))
    else input.
Proof. unfold formatText, finishFormat. by destruct (ok _). Qed.

Lemma trace_preserved (input : jstring) (o : FormatOptions) :
  Preserved (trLines (trace input o)) (trSpacedLines (trace input o)).
Proof.
  rewrite trace_spacedLines. apply insertSwitchBlankLines_go_preserved.
  rewrite trace_outputLines. apply Forall2_imap.
  intros i line Hi. symmetry. rewrite trace_lineInfos. by apply renderLine_normalize.
Qed.

(** ** Validation *)

Lemma validateLoop_same_length (k : nat) (orig out : list jstring) :
  length orig = length out ->
  exists changed, validateLoop false k orig out = (changed, [], []).
Proof.
  revert k out; induction orig as [|o orig IH]; intros k [|f out] Hlen;
    simpl in *; try done.
  - by exists [].
  - injection Hlen as Hlen. destruct (IH (S k) out Hlen) as [changed ->].
    destruct (eqStr _ _); eauto.
Qed.

Lemma contentChanged_nonempty (changed : list jstring) : contentChanged changed <> [].
Proof. done. Qed.

(** A failed validation carries one of the two messages of the source. *)
Lemma validateOutput_failure (infos : list LineInfo) (out : list jstring) (allow : bool) :
  ok (validateOutput infos out allow) = false ->
  message (validateOutput infos out allow) = LINE_COUNT_CHANGED
  \/ exists changed : list jstring,
       changed <> [] /\ message (validateOutput infos out allow) = contentChanged changed.
Proof.
  unfold validateOutput.
  destruct (negb allow && negb (length (List.map original infos) =? length out)%nat);
    [by left|].
  destruct (validateLoop allow 0 (List.map original infos) out) as [[changed ro] rout].
  destruct (negb allow && negb (isEmpty rout)); [by left|].
  cbv zeta.
  match goal with |- context [isEmpty ?c] => destruct c as [|x c'] eqn:E end; simpl;
    [done|].
  intros _. right. eexists. split; [|reflexivity]. done.
Qed.

(** Without inserted separators the renderer hands over as many lines as it
    received, and then the message lists line numbers. *)
Lemma validateOutput_failure_same_length (infos : list LineInfo) (out : list jstring) :
  length out = length infos ->
  ok (validateOutput infos out false) = false ->
  exists changed : list jstring,
    changed <> [] /\ message (validateOutput infos out false) = contentChanged changed.
Proof.
  intros Hlen. unfold validateOutput.
  rewrite length_map, Hlen, Nat.eqb_refl. simpl.
  destruct (validateLoop_same_length 0 (List.map original infos) out) as [changed ->];
    [by rewrite length_map|].
  simpl. rewrite !app_nil_r.
  destruct changed as [|x c']; simpl; [done|].
  intros _. eexists. split; [|reflexivity]. done.
Qed.

Lemma lineNumber_S (i : nat) : numberToString (Z.of_nat i + 1) = lineNumber (S i).
Proof. unfold lineNumber. f_equal. lia. Qed.

(** The numbers the loop reports are numbers of lines it has passed. *)
Lemma validateLoop_numbers (allow : bool) (out : list jstring) :
  forall (k : nat) (orig changed ro rout : list jstring),
    validateLoop allow k orig out = (changed, ro, rout) ->
    (length ro <= length orig)%nat
    /\ exists nums : list nat,
         changed = List.map lineNumber nums
         /\ Forall (fun n => (k < n <= k + (length orig - length ro))%nat) nums.
Proof.
  induction out as [|f out IH]; intros k orig changed ro rout H; simpl in H.
  - injection H as <- <- <-. split; [lia|]. by exists [].
  - destruct orig as [|o orig]; [injection H as <- <- <-; split; [simpl; lia | by exists []]|].
    destruct (allow && isBlankLine f).
    + destruct (isBlankLine o).
      * apply IH in H as (Hlen & nums & -> & Hall). split; [simpl; lia|].
        exists nums. split; [done|]. eapply Forall_impl; [exact Hall|].
        simpl. intros n Hn. lia.
      * apply IH in H as (Hlen & nums & -> & Hall). split; [done|]. by exists nums.
    + destruct (validateLoop allow (S k) orig out) as [[c r1] r2] eqn:E.
      apply IH in E as (Hlen & nums & -> & Hall).
      assert (Hall' : Forall (fun n => (k < n <= k + (length (o :: orig) - length r1))%nat)
                        nums).
      { eapply Forall_impl; [exact Hall|]. simpl. intros n Hn. lia. }
      destruct (eqStr _ _); injection H as <- <- <-.
      * split; [simpl; lia|]. by exists nums.
      * split; [simpl; lia|]. exists (S k :: nums). split.
        -- simpl. by rewrite lineNumber_S.
        -- constructor; [simpl; lia | done].
Qed.

Lemma unmatched_numbers (i len : nat) :
  List.map (fun i => numberToString (Z.of_nat i + 1)) (seq i len)
  = List.map lineNumber (seq (S i) len).
Proof.
  revert i; induction len as [|len IH]; intros i; simpl; [done|].
  by rewrite lineNumber_S, IH.
Qed.

(** The message of a failed validation, when the line count is not at
    stake: the numbers of some lines of the input. *)
Lemma validateOutput_changed_lines (infos : list LineInfo) (out : list jstring)
    (allow : bool) :
  infos <> [] ->
  (allow = false -> length out = length infos) ->
  ok (validateOutput infos out allow) = false ->
  exists nums : list nat,
    nums <> []
    /\ Forall (fun n => (1 <= n <= length infos)%nat) nums
    /\ message (validateOutput infos out allow) = contentChanged (List.map lineNumber nums).
Proof.
  intros Hne Hlen. unfold validateOutput.
  assert (Hcount : negb allow && negb (length (List.map original infos) =? length out)%nat
                   = false).
  { destruct allow; [done|]. rewrite length_map, Hlen by done. by rewrite Nat.eqb_refl. }
  rewrite Hcount.
  destruct (validateLoop allow 0 (List.map original infos) out) as [[changed ro] rout] eqn:E.
  assert (Hrout : negb allow && negb (isEmpty rout) = false).
  { destruct allow; [done|].
    destruct (validateLoop_same_length 0 (List.map original infos) out) as [c Hc];
      [by rewrite length_map, Hlen|].
    rewrite Hc in E. by injection E as <- <- <-. }
  rewrite Hrout.
  apply validateLoop_numbers in E as (Hro & nums & -> & Hall).
  rewrite length_map in *. rewrite unmatched_numbers.
  set (n := length infos) in *.
  assert (Hn : (1 <= n)%nat) by (unfold n; destruct infos; [done | simpl; lia]).
  set (trailing := if allow && existsb (fun l => negb (isBlankLine l)) rout
                   then [n] else []).
  assert (Ht : (if allow && existsb (fun l => negb (isBlankLine l)) rout
                then [numberToString (Z.of_nat n)] else [])
               = List.map lineNumber trailing).
  { unfold trailing. by destruct (allow && _). }
  rewrite Ht, <- !map_app.
  set (all := (nums ++ seq (S (n - length ro)) (length ro)) ++ trailing).
  destruct all as [|x xs] eqn:Eall; [done|]. intros _.
  exists (x :: xs). split; [done|]. split; [|done].
  rewrite <- Eall. unfold all. rewrite !Forall_app. repeat split.
  - eapply Forall_impl; [exact Hall|]. simpl. intros m Hm. lia.
  - apply Forall_forall. intros m Hm. apply list_elem_of_In, in_seq in Hm. lia.
  - unfold trailing. destruct (allow && _); [|done]. constructor; [lia | done].
Qed.











(** With inserted separators a blank output line is passed over: the
    second original line is held against the third output line. *)
Example validation_failure_message :
  let infos := List.map (fun l => analyzeLine l 4) [lit "a"; lit "b"] in
  let out := [lit "a"; []; lit "x"; lit "y"] in
  counterparts true (List.map original infos) out = [Some (lit "a"); Some (lit "x")]
  /\ leftover true (List.map original infos) out = [lit "y"]
  /\ error (finishFormat (lit "a") [ch_lf] infos [Some 0; Some 0] out
              (validateOutput infos out true))
     = Some (lit "Validation failed: non-indentation content changed on line(s) 2, 2.").
Proof. vm_compute. done. Qed.

(** The premise of C2 on line counts holds for the stages of
    [formatText]. *)
Lemma insertSwitchBlankLines_go_not_inserted (lines : list jstring) (i : nat)
    (meta : list (option RawLineMeta)) (a b c : bool) :
  snd (insertSwitchBlankLines_go lines i meta a b c) = false ->
  fst (insertSwitchBlankLines_go lines i meta a b c) = lines.
Proof.
  revert i a b c; induction lines as [|l lines IH]; intros i a b c; simpl; [done|].
  destruct (meta !! i) as [[m|]|]; simpl; try (intros H; by rewrite IH).
  destruct (isRawBlock m); simpl; [|intros H; by rewrite IH].
  destruct (isCaseOrDefault m && _ && _); simpl; [done|].
  intros H; by rewrite IH.
Qed.

Lemma splitOnNewlines_nonempty (input : jstring) : splitOnNewlines input <> [].
Proof.
  induction input as [|c s IH]; simpl; [done|].
  destruct (c =? ch_lf)%N; [done|].
  destruct ((c =? ch_cr)%N && startsWith s [ch_lf]); [done|].
  by destruct (splitOnNewlines s).
Qed.

Lemma formatText_stages (input : jstring) (o : FormatOptions) :
  let t := trace input o in
  formatText input o
  = finishFormat input (trLineEnding t) (trLineInfos t) (indents (trArrays t))
      (trSpacedLines t)
      (validateOutput (trLineInfos t) (trSpacedLines t) (trInserted t))
  /\ trLineInfos t <> []
  /\ (trInserted t = false -> length (trSpacedLines t) = length (trLineInfos t)).
Proof.
  split; [reflexivity|]. split.
  { rewrite trace_lineInfos, trace_lines.
    pose proof (splitOnNewlines_nonempty input) as Hne.
    by destruct (splitOnNewlines input). }
  rewrite trace_inserted, trace_spacedLines. intros H.
  unfold insertSwitchBlankLines in *.
  rewrite (insertSwitchBlankLines_go_not_inserted _ _ _ _ _ _ H).
  rewrite trace_outputLines, length_imap, trace_lineInfos. by rewrite length_map.
Qed.

(** ** The log *)

Lemma changeRecords_not_no_changes (i : nat) (infos : list LineInfo)
    (desired : list (option Z)) :
  ~ In NO_CHANGES (changeRecords i infos desired).
Proof.
  revert i; induction infos as [|info infos IH]; intros i; simpl; [tauto|].
  destruct (_ =? _); [apply IH|].
  intros [H|H]; [discriminate H | by apply IH in H].
Qed.

(** The record [No indentation changes detected.] is never logged: on
    success the log starts with [VALIDATION_OK], so it is never empty when
    the source tests its length. *)
Lemma formatText_logs (input : jstring) (o : FormatOptions) :
  logs (formatText input o) = []
  \/ logs (formatText input o)
     = VALIDATION_OK
       :: changeRecords 0 (trLineInfos (trace input o)) (indents (trArrays (trace input o))).
Proof.
  unfold formatText, finishFormat. destruct (ok _); simpl; [by right | by left].
Qed.

Lemma no_changes_never_logged (input : jstring) (o : FormatOptions) :
  ~ In NO_CHANGES (logs (formatText input o)).
Proof.
  destruct (formatText_logs input o) as [-> | ->]; simpl; [tauto|].
  intros [H|H]; [discriminate H | by apply changeRecords_not_no_changes in H].
Qed.

(** C9 (failing input).  A document whose indentation is already right is
    formatted without an error and without a change, and its log holds the
    single record [VALIDATION_OK], not the record [NO_CHANGES] the source
    means to log when nothing changed. *)
Theorem unchanged_document_log :
  let input := doc ["<div>"; "</div>"]%string in
  let r := formatText input (opts 4) in
  error r = None /\ output r = input /\
  logs r = [VALIDATION_OK] /\ ~ In NO_CHANGES (logs r).
Proof.
  intros input r. repeat split; try (vm_compute; reflexivity).
  apply no_changes_never_logged.
Qed.

(** ** Line count *)

Lemma separatorBefore_split (lines : list jstring) (meta : list (option RawLineMeta))
    (i : nat) :
  separatorBefore lines meta i = labelAt meta i && breakBefore lines meta i.
Proof.
  unfold separatorBefore, labelAt, breakBefore. destruct i as [|j].
  - by rewrite andb_false_r.
  - destruct (meta !! S j) as [[m|]|]; [|done|done].
    destruct (meta !! j) as [[mp|]|]; [|by rewrite andb_false_r|by rewrite andb_false_r].
    destruct (lines !! j); [|by rewrite andb_false_r].
    by rewrite !andb_assoc.
Qed.

Lemma insertSwitchBlankLines_go_length (all : list jstring)
    (meta : list (option RawLineMeta)) (suffix pre : list jstring) (a b c : bool) :
  all = pre ++ suffix ->
  (if a then b && negb c else false) = breakBefore all meta (length pre) ->
  length (fst (insertSwitchBlankLines_go suffix (length pre) meta a b c))
  = (length suffix
     + length (List.filter (separatorBefore all meta) (seq (length pre) (length suffix))))%nat.
Proof.
  revert pre a b c; induction suffix as [|l suffix IH]; intros pre a b c Hall Hc;
    [done|].
  assert (Hl : all !! length pre = Some l).
  { rewrite Hall. by rewrite list_lookup_middle. }
  assert (Hall' : all = (pre ++ [l]) ++ suffix) by (by rewrite <- app_assoc).
  assert (Hlen : length (pre ++ [l]) = S (length pre))
    by (rewrite length_app; simpl; lia).
  specialize (IH (pre ++ [l])). rewrite Hlen in IH.
  cbn [insertSwitchBlankLines_go seq List.filter length].
  rewrite separatorBefore_split. unfold labelAt.
  destruct (meta !! length pre) as [[m|]|] eqn:Em.
  - destruct (isRawBlock m) eqn:Er.
    + assert (Hins : isCaseOrDefault m && (if a then b else false)
                     && negb (if a then c else false)
                     = isCaseOrDefault m && breakBefore all meta (length pre)).
      { rewrite <- Hc. destruct a; [by rewrite andb_assoc|]. by rewrite andb_false_r. }
      rewrite Hins. cbn [andb].
      match goal with
      | |- context [insertSwitchBlankLines_go suffix _ meta true ?b' ?c'] =>
          specialize (IH true b' c' Hall')
      end.
      assert (Hb : (if isBlankLine l then false else isBreak m)
                   = breakBefore all meta (S (length pre))).
      { cbn [breakBefore]. rewrite Em, Hl, Er. cbn [andb].
        destruct (isBlankLine l); [by rewrite andb_false_r | by rewrite andb_true_r]. }
      destruct (isCaseOrDefault m && breakBefore all meta (length pre));
        cbn [fst length List.filter]; rewrite IH; try lia.
      all: rewrite <- Hb; destruct (isBlankLine l); simpl;
        [apply andb_false_r | apply andb_true_r].
    + cbn [andb]. simpl. rewrite (IH false false false Hall'); [done|].
      cbn [breakBefore]. by rewrite Em, Hl, Er.
  - simpl. rewrite (IH false false false Hall'); [done|].
    cbn [breakBefore]. by rewrite Em.
  - simpl. rewrite (IH false false false Hall'); [done|].
    cbn [breakBefore]. by rewrite Em.
Qed.

Lemma insertSwitchBlankLines_length (lines : list jstring)
    (meta : list (option RawLineMeta)) :
  length (fst (insertSwitchBlankLines lines meta))
  = (length lines + separatorCount lines meta)%nat.
Proof.
  unfold insertSwitchBlankLines, separatorCount.
  by apply (insertSwitchBlankLines_go_length lines meta lines []).
Qed.

Lemma MetaSound_insert (lines : list jstring) (meta : list (option RawLineMeta))
    (k : nat) (line : jstring) (m : RawLineMeta) :
  MetaSound lines meta ->
  lines !! k = Some line ->
  (isCaseOrDefault m = true -> isLabelText line = true) ->
  (isBreak m = true -> isBreakText line = true) ->
  MetaSound lines (<[k := Some m]> meta).
Proof.
  intros Hm Hk Hc Hb j m' Hj.
  apply list_lookup_insert_Some in Hj as [(-> & [= <-] & _) | (_ & Hj)]; [|by apply Hm].
  by exists line.
Qed.

Lemma trimStart_rest_analyzeLine (line : jstring) (u : Z) :
  trimStart (rest (analyzeLine line u)) = trimStart line.
Proof. apply rest_analyzeLine. Qed.

Lemma blockWrite_meta (lines : list jstring) (u base : Z) (isRaw : bool) (bs : BlockState)
    (k : nat) (line : jstring) (arr : Arrays) :
  MetaSound lines (rawLineMeta arr) ->
  lines !! k = Some line ->
  MetaSound lines
    (rawLineMeta (blockWrite u base isRaw bs k (rest (analyzeLine line u)) arr)).
Proof.
  intros Hm Hk. unfold blockWrite.
  destruct (isEmpty (rest (analyzeLine line u))); cbn [rawLineMeta];
    (destruct isRaw; [|done]).
  - by apply (MetaSound_insert _ _ _ line).
  - apply (MetaSound_insert _ _ _ line); [done | done | |]; cbn;
      unfold isLabelText, isBreakText; rewrite trimStart_rest_analyzeLine;
      intros H; by apply andb_prop in H as [_ H].
Qed.

Lemma reindentLines_meta (lines : list jstring) (u base : Z) (isRaw : bool)
    (range : list nat) (bs : BlockState) (arr : Arrays) :
  MetaSound lines (rawLineMeta arr) ->
  MetaSound lines
    (rawLineMeta (reindentLines u base isRaw (List.map (fun l => analyzeLine l u) lines)
                    range bs arr)).
Proof.
  revert bs arr; induction range as [|k range IH]; intros bs arr Hm; simpl; [done|].
  change (List.map (fun l => analyzeLine l u) lines) with ((fun l => analyzeLine l u) <$> lines).
  rewrite list_lookup_fmap.
  destruct (lines !! k) as [line|] eqn:Hk; simpl; [|done].
  apply IH. by apply blockWrite_meta.
Qed.

Lemma applyTextBlockIndentation_meta (lines : list jstring) (u : Z)
    (blocks : list TextBlock) (arr : Arrays) :
  MetaSound lines (rawLineMeta arr) ->
  MetaSound lines
    (rawLineMeta (applyTextBlockIndentation blocks arr
                    (List.map (fun l => analyzeLine l u) lines) u)).
Proof.
  unfold applyTextBlockIndentation.
  revert arr; induction blocks as [|b blocks IH]; intros arr Hm; simpl; [done|].
  apply IH. unfold applyBlock.
  destruct (skip b || _); [done|].
  destruct (setHas RAW_TAGS (tagName b) && _); [done|].
  by apply reindentLines_meta.
Qed.

Lemma MetaSound_initial (lines : list jstring) (n : nat) :
  MetaSound lines (replicate n None).
Proof. intros j m Hj. apply lookup_replicate in Hj as [? _]. done. Qed.

Lemma trace_meta (input : jstring) (o : FormatOptions) :
  MetaSound (trLines (trace input o)) (rawLineMeta (trArrays (trace input o))).
Proof.
  change (rawLineMeta (trArrays (trace input o)))
    with (rawLineMeta (trBlockArrays (trace input o))).
  unfold trace, resolveBlocks. cbn [trLines trBlockArrays splitLines].
  destruct (adjustTextBlocks o).
  - apply applyTextBlockIndentation_meta. apply MetaSound_initial.
  - apply MetaSound_initial.
Qed.

Lemma no_separator (lines rendered : list jstring) (meta : list (option RawLineMeta)) :
  MetaSound lines meta -> NoBreakThenLabel lines ->
  forall i : nat, separatorBefore rendered meta i = false.
Proof.
  intros Hm Hno i. destruct (separatorBefore rendered meta i) eqn:E; [|done].
  exfalso. unfold separatorBefore in E. destruct i as [|j]; [done|].
  destruct (meta !! S j) as [[m|]|] eqn:E1; [|done|done].
  destruct (meta !! j) as [[mp|]|] eqn:E2; [|done|done].
  destruct (rendered !! j); [|done].
  destruct (Hm _ _ E1) as (l2 & Hl2 & Hc & _).
  destruct (Hm _ _ E2) as (l1 & Hl1 & _ & Hb).
  repeat (apply andb_prop in E as [E ?]).
  by apply (Hno j l1 l2); [| | apply Hb | apply Hc].
Qed.

Lemma filter_all_false {A : Type} (f : A -> bool) (l : list A) :
  (forall x, f x = false) -> List.filter f l = [].
Proof. intros H. induction l as [|x l IH]; simpl; [done|]. by rewrite H. Qed.

(** ** Blank lines *)

Lemma dropWhile_nil_forallb (f : N -> bool) (s : jstring) :
  dropWhile f s = [] <-> forallb f s = true.
Proof.
  induction s as [|c s IH]; simpl; [done|].
  destruct (f c); simpl; [done|]. split; done.
Qed.

Lemma forallb_rev (f : N -> bool) (s : jstring) : forallb f (rev s) = forallb f s.
Proof.
  induction s as [|c s IH]; simpl; [done|].
  rewrite forallb_app, IH. simpl. rewrite andb_true_r. apply andb_comm.
Qed.

Lemma dropWhile_app_nonempty (f : N -> bool) (a b : jstring) :
  dropWhile f a <> [] -> dropWhile f (a ++ b) = dropWhile f a ++ b.
Proof.
  induction a as [|c a IH]; simpl; [done|].
  destruct (f c); [apply IH | done].
Qed.

Lemma trimEnd_app_nonblank (a b : jstring) :
  dropWhile isSpace b <> [] ->
  trimEnd (a ++ b) = a ++ trimEnd b /\ trimEnd b <> [].
Proof.
  intros Hb. unfold trimEnd.
  assert (Hr : dropWhile isSpace (rev b) <> []).
  { intros H. apply Hb. apply dropWhile_nil_forallb.
    apply dropWhile_nil_forallb in H. by rewrite forallb_rev in H. }
  split.
  - rewrite rev_app_distr, dropWhile_app_nonempty by done.
    by rewrite rev_app_distr, rev_involutive.
  - intros H. apply Hr. apply (f_equal (@rev N)) in H.
    by rewrite rev_involutive in H.
Qed.

Lemma isBlankLine_strip (l : jstring) : isBlankLine l = isBlankLine (dropWhile isSpace l).
Proof. unfold isBlankLine, trim, trimStart. by rewrite dropWhile_idem. Qed.

Lemma blank_same_strip (a b : jstring) :
  dropWhile isSpace a = dropWhile isSpace b -> isBlankLine a = isBlankLine b.
Proof. intros H. by rewrite (isBlankLine_strip a), (isBlankLine_strip b), H. Qed.

Lemma dropWhile_snoc_stop (f : N -> bool) (a : jstring) (c : N) :
  f c = false -> exists x : jstring, dropWhile f (a ++ [c]) = x ++ [c].
Proof.
  intros Hc. induction a as [|d a IH]; simpl.
  - rewrite Hc. by exists [].
  - destruct (f d); [done|]. by exists (d :: a).
Qed.

Lemma trimEnd_cons (c : N) (r : jstring) :
  isSpace c = false -> exists r' : jstring, trimEnd (c :: r) = c :: r'.
Proof.
  intros Hc. unfold trimEnd. simpl.
  destruct (dropWhile_snoc_stop isSpace (rev r) c Hc) as [x ->].
  exists (rev x). by rewrite rev_app_distr.
Qed.

(** A line whose text starts with a unit other than [@] is not blank. *)
Lemma nonblank_head (l : jstring) (c : N) (r : jstring) :
  dropWhile isSpace l = c :: r -> (c =? ch_at)%N = false -> isBlankLine l = false.
Proof.
  intros Hl Hc. unfold isBlankLine, trim, trimStart. rewrite Hl.
  assert (Hsp : isSpace c = false) by (by apply dropWhile_head in Hl).
  destruct (trimEnd_cons c r Hsp) as [r' ->]. cbn [isEmpty eqStr lit list_ascii_of_string List.map orb].
  change (N_of_ascii "@") with ch_at. by rewrite Hc.
Qed.

(** A line whose text starts with [@:] is blank when nothing but white
    space follows the prefix. *)
Lemma blank_razor (l r : jstring) :
  dropWhile isSpace l = lit "@:" ++ r -> isBlankLine l = isEmpty (dropWhile isSpace r).
Proof.
  intros Hl. unfold isBlankLine, trim, trimStart. rewrite Hl.
  destruct (dropWhile isSpace r) as [|d r0] eqn:E.
  - apply dropWhile_nil_forallb in E.
    assert (Ht : trimEnd (lit "@:" ++ r) = lit "@:").
    { unfold trimEnd. rewrite rev_app_distr.
      rewrite dropWhile_all by (by rewrite forallb_rev). done. }
    by rewrite Ht.
  - destruct (trimEnd_app_nonblank (lit "@:") r) as [-> Hne]; [by rewrite E|].
    by destruct (trimEnd r).
Qed.

Lemma makeIndentedLine_blank (r : jstring) (w : Z) :
  isBlankLine (makeIndentedLine r w) = isBlankLine r.
Proof. apply blank_same_strip, makeIndentedLine_strip. Qed.

Lemma rest_blank (line : jstring) (u : Z) :
  isBlankLine (rest (analyzeLine line u)) = isBlankLine line.
Proof. apply blank_same_strip, rest_analyzeLine. Qed.

Lemma formatRawLineContent_blank (r : jstring) :
  isBlankLine (formatRawLineContent r) = isBlankLine r.
Proof.
  unfold formatRawLineContent, trimStart.
  destruct (matchSwitchHeader (dropWhile isSpace r)) as [inner|] eqn:E; [|done].
  destruct (matchSwitchHeader_starts _ _ E) as [r' Hr'].
  rewrite (nonblank_head r 115%N (tl (lit "switch") ++ r') Hr' eq_refl).
  by apply (nonblank_head _ 115%N (tl (lit "switch (") ++ trim inner ++ lit ") {")).
Qed.

Lemma makeRazorTextIndentedLine_blank (r : jstring) (w c : Z) :
  isBlankLine (makeRazorTextIndentedLine r w c) = isBlankLine r.
Proof.
  unfold makeRazorTextIndentedLine.
  destruct (matchRazorText r) as [content|] eqn:E; [|apply makeIndentedLine_blank].
  destruct (matchRazorText_shape _ _ E) as (r' & -> & ->).
  rewrite (blank_razor (lit "@:" ++ r') r') by done.
  assert (Hi : forall t : jstring,
    dropWhile isSpace ((if 0 <? w then spaces w else []) ++ lit "@:" ++ t)
    = lit "@:" ++ t).
  { intros t. destruct (0 <? w); [|done]. by rewrite dropWhile_spaces. }
  destruct (dropWhile isSpace r') as [|d r0] eqn:Ed; cbn [isEmpty].
  - pose proof (Hi []) as Hi0. rewrite app_nil_r in Hi0.
    by rewrite (blank_razor _ [] Hi0).
  - etrans;
      [apply (blank_razor _ ([ch_space] ++ spaces c ++ trimStart (d :: r0))
                (Hi ([ch_space] ++ spaces c ++ trimStart (d :: r0))))|].
    simpl dropWhile at 1. rewrite dropWhile_spaces. unfold trimStart.
    rewrite <- Ed, !dropWhile_idem, Ed. done.
Qed.

Lemma renderLine_blank (arr : Arrays) (lines : list jstring) (u : Z) (i : nat)
    (line : jstring) :
  lines !! i = Some line ->
  isBlankLine (renderLine arr (List.map (fun l => analyzeLine l u) lines) i line)
  = isBlankLine line.
Proof.
  intros Hi. unfold renderLine.
  change (List.map (fun l => analyzeLine l u) lines) with ((fun l => analyzeLine l u) <$> lines).
  rewrite list_lookup_fmap, Hi. simpl.
  destruct (default false (indentAfterRazorPrefix arr !! i)).
  - rewrite andb_false_r. by rewrite makeRazorTextIndentedLine_blank, rest_blank.
  - rewrite andb_true_r. rewrite makeIndentedLine_blank.
    destruct (isRawLine (rawLineMeta arr) i);
      [by rewrite formatRawLineContent_blank, rest_blank | apply rest_blank].
Qed.

(** A label is not a blank line. *)
Lemma keywordAt_head (kw s : jstring) (k : N) (kw' : jstring) :
  kw = k :: kw' -> keywordAt kw s = true -> exists r, s = k :: r.
Proof.
  intros -> H. unfold keywordAt in H.
  destruct (stripPrefix (k :: kw') s) as [r|] eqn:E; [|done].
  apply stripPrefix_app in E. by exists (kw' ++ r).
Qed.

Lemma label_not_blank (line : jstring) : isLabelText line = true -> isBlankLine line = false.
Proof.
  unfold isLabelText, caseOrDefaultAt, codeText, trimStart. intros H.
  assert (Hk : forall s : jstring,
    keywordAt (lit "case") s || keywordAt (lit "default") s = true ->
    exists (c : N) (r : jstring), s = c :: r /\ (c =? ch_at)%N = false).
  { intros s Hs. apply orb_prop in Hs as [Hs|Hs].
    - destruct (keywordAt_head _ _ 99%N (tl (lit "case")) eq_refl Hs) as [r ->].
      by exists 99%N, r.
    - destruct (keywordAt_head _ _ 100%N (tl (lit "default")) eq_refl Hs) as [r ->].
      by exists 100%N, r. }
  destruct (startsWith (dropWhile isSpace line) (lit "@:")) eqn:E1.
  - unfold startsWith in E1.
    destruct (stripPrefix (lit "@:") (dropWhile isSpace line)) as [r|] eqn:E; [|done].
    apply stripPrefix_app in E. rewrite (blank_razor line r E).
    rewrite E in H. change (drop 2 (lit "@:" ++ r)) with r in H.
    destruct (Hk _ H) as (c & r0 & Hs & _). by rewrite Hs.
  - destruct (startsWith (dropWhile isSpace line) [ch_at]) eqn:E2.
    + by destruct (Hk _ H) as (c & r0 & ? & _).
    + destruct (Hk _ H) as (c & r0 & Hs & Hc).
      by apply (nonblank_head line c r0).
Qed.

(** ** Validation never fails on what [formatText] renders *)

Lemma validateLoop_rendered (origs outs : list jstring) :
  Forall2 (fun o f => normalizeForValidation o = normalizeForValidation f) origs outs ->
  forall k : nat, validateLoop false k origs outs = ([], [], []).
Proof.
  induction 1 as [|o f os fs Hof _ IH]; intros k; simpl; [done|].
  rewrite IH, Hof. by rewrite eqStr_refl.
Qed.

Lemma validateLoop_spaced (origs outs : list jstring) :
  Spaced origs outs -> forall k : nat, validateLoop true k origs outs = ([], [], []).
Proof.
  induction 1 as [|o f os fs Hof Hb _ IH|sep o f os fs Hsep Ho Hof Hf _ IH];
    intros k; [done| |].
  - simpl. destruct (isBlankLine f) eqn:Ef.
    + rewrite <- Hb. apply IH.
    + rewrite IH, Hof. by rewrite eqStr_refl.
  - cbn [validateLoop andb]. rewrite Hsep, Ho, Hf. cbn [andb].
    rewrite IH, Hof. by rewrite eqStr_refl.
Qed.

Lemma insertSwitchBlankLines_go_spaced (origs rendered : list jstring) :
  Forall2 (fun o f => normalizeForValidation o = normalizeForValidation f
                      /\ isBlankLine f = isBlankLine o) origs rendered ->
  forall (i0 : nat) (meta : list (option RawLineMeta)) (a b c : bool),
    (forall (i : nat) (m : RawLineMeta) (o : jstring),
       meta !! (i0 + i)%nat = Some (Some m) -> isCaseOrDefault m = true ->
       origs !! i = Some o -> isBlankLine o = false) ->
    Spaced origs (fst (insertSwitchBlankLines_go rendered i0 meta a b c)).
Proof.
  induction 1 as [|o f os fs [Hof Hb] _ IH]; intros i0 meta a b c Hlabel; simpl.
  - constructor.
  - assert (Htail : forall a' b' c',
      Spaced os (fst (insertSwitchBlankLines_go fs (S i0) meta a' b' c'))).
    { intros a' b' c'. apply IH. intros i m o' Hm Hc Ho.
      apply (Hlabel (S i) m o'); [|done|done].
      by replace (i0 + S i)%nat with (S i0 + i)%nat by lia. }
    destruct (meta !! i0) as [[m|]|] eqn:Em; simpl;
      try (apply Spaced_line; [done | done | apply Htail]).
    destruct (isRawBlock m); simpl; [|apply Spaced_line; [done | done | apply Htail]].
    destruct (isCaseOrDefault m) eqn:Ec; simpl;
      [|apply Spaced_line; [done | done | apply Htail]].
    destruct ((if a then b else false) && negb (if a then c else false)); simpl;
      [|apply Spaced_line; [done | done | apply Htail]].
    assert (Ho : isBlankLine o = false).
    { apply (Hlabel 0%nat m o); [by rewrite Nat.add_0_r | done | done]. }
    apply Spaced_separator; [apply isBlankLine_separatorFor | done | done | | apply Htail].
    by rewrite Hb.
Qed.

Lemma original_analyzeLine (lines : list jstring) (u : Z) :
  List.map original (List.map (fun l => analyzeLine l u) lines) = lines.
Proof.
  induction lines as [|l lines IH]; simpl; [done|]. rewrite IH. f_equal.
  unfold analyzeLine. by destruct (matchLeadingRest l) as [[? ?]|].
Qed.

Lemma trace_rendered (input : jstring) (o : FormatOptions) :
  Forall2 (fun o f => normalizeForValidation o = normalizeForValidation f
                      /\ isBlankLine f = isBlankLine o)
    (trLines (trace input o)) (trOutputLines (trace input o)).
Proof.
  rewrite trace_outputLines. apply Forall2_imap. intros i line Hi.
  rewrite trace_lineInfos. split.
  - symmetry. by apply renderLine_normalize.
  - by apply renderLine_blank.
Qed.

Lemma trace_validation_ok (input : jstring) (o : FormatOptions) :
  ok (trValidation (trace input o)) = true.
Proof.
  rewrite trace_validation. unfold validateOutput.
  rewrite trace_lineInfos, original_analyzeLine.
  destruct (trInserted (trace input o)) eqn:Eins; cbn [negb andb].
  - assert (Hs : Spaced (trLines (trace input o)) (trSpacedLines (trace input o))).
    { rewrite trace_spacedLines. apply insertSwitchBlankLines_go_spaced;
        [apply trace_rendered|].
      intros i m l Hm Hc Hl. simpl in Hm.
      destruct (trace_meta input o i m Hm) as (l' & Hl' & Hlab & _).
      rewrite Hl in Hl'. injection Hl' as <-. by apply label_not_blank, Hlab. }
    by rewrite (validateLoop_spaced _ _ Hs).
  - assert (Hr : trSpacedLines (trace input o) = trOutputLines (trace input o)).
    { rewrite trace_spacedLines. apply insertSwitchBlankLines_go_not_inserted.
      by rewrite trace_inserted in Eins. }
    rewrite Hr.
    assert (Hlen : length (trLines (trace input o))
                   = length (trOutputLines (trace input o)))
      by (by rewrite trace_outputLines, length_imap).
    rewrite Hlen, Nat.eqb_refl. cbn [negb].
    rewrite validateLoop_rendered; [done|].
    eapply Forall2_impl; [apply trace_rendered|]. by intros ? ? [? _].
Qed.

(** [formatText] never takes its error branch: the lines it renders always
    pass its own validation. *)
Theorem formatText_never_fails (input : jstring) (o : FormatOptions) :
  error (formatText input o) = None
  /\ output (formatText input o)
     = join (trLineEnding (trace input o)) (trSpacedLines (trace input o)).
Proof.
  rewrite formatText_error, formatText_output. by rewrite trace_validation_ok.
Qed.

(** ** The scanning passes step by step *)

Lemma scanFrom_app (u : Z) (l1 l2 : list jstring) (i1 i2 : list LineInfo) (i : nat)
    (st : ScanState) :
  length l1 = length i1 ->
  scanFrom u i (l1 ++ l2) (i1 ++ i2) st
  = scanFrom u (i + length l1) l2 i2 (scanFrom u i l1 i1 st).
Proof.
  revert i1 i st; induction l1 as [|l l1 IH]; intros [|x i1] i st Hlen; simpl in *;
    try done.
  - by rewrite Nat.add_0_r.
  - rewrite IH by lia. f_equal. lia.
Qed.

Lemma scanPrefix_0 (u : Z) (lines : list jstring) (infos : list LineInfo) :
  scanPrefix u lines infos 0 = initialScan (length lines).
Proof. reflexivity. Qed.

Lemma scanPrefix_S (u : Z) (lines : list jstring) (infos : list LineInfo) (n : nat)
    (line : jstring) (info : LineInfo) :
  lines !! n = Some line -> infos !! n = Some info ->
  scanPrefix u lines infos (S n)
  = scanLine u n line info (scanPrefix u lines infos n).
Proof.
  intros Hl Hi. unfold scanPrefix.
  rewrite (take_S_r _ _ _ Hl), (take_S_r _ _ _ Hi).
  assert (Hn : length (take n lines) = n).
  { rewrite length_take. apply lookup_lt_Some in Hl. lia. }
  rewrite scanFrom_app.
  - rewrite Hn. done.
  - rewrite !length_take. apply lookup_lt_Some in Hl, Hi. lia.
Qed.

Lemma scanPrefix_all (u : Z) (lines : list jstring) (infos : list LineInfo) :
  length infos = length lines ->
  scanPrefix u lines infos (length lines)
  = scanFrom u 0 lines infos (initialScan (length lines)).
Proof.
  intros H. unfold scanPrefix. rewrite firstn_all. rewrite <- H at 1. by rewrite firstn_all.
Qed.


Lemma closeCapture_level (i : nat) (line : jstring) (info : LineInfo) (st : ScanState) :
  level (closeCapture i line info st) = level st.
Proof.
  unfold closeCapture.
  destruct (inTextBlock st && _); destruct (currentTextBlock st);
    destruct (inRawBlock st && _); done.
Qed.

Lemma scanLine_level_nonneg (u : Z) (i : nat) (line : jstring) (info : LineInfo)
    (st : ScanState) :
  0 <= level st -> 0 <= level (scanLine u i line info st).
Proof.
  intros H. unfold scanLine.
  destruct (inTextBlock _ || inRawBlock _); cbn [level].
  - by rewrite closeCapture_level.
  - unfold docNextLevel. lia.
Qed.

Lemma scanFrom_level_nonneg (u : Z) (lines : list jstring) (infos : list LineInfo)
    (i : nat) (st : ScanState) :
  0 <= level st -> 0 <= level (scanFrom u i lines infos st).
Proof.
  revert infos i st; induction lines as [|l lines IH]; intros [|x infos] i st H;
    simpl; try done.
  by apply IH, scanLine_level_nonneg.
Qed.

Lemma blockNextState_nonneg (u : Z) (isRaw : bool) (bs : BlockState) (r : jstring) :
  0 <= bLevel bs /\ 0 <= razorBraceDepth bs ->
  0 <= bLevel (blockNextState u isRaw bs r)
  /\ 0 <= razorBraceDepth (blockNextState u isRaw bs r).
Proof.
  intros [H1 H2]. unfold blockNextState.
  destruct (isEmpty r); cbn [bLevel razorBraceDepth]; [done|].
  split; [cbn; lia|].
  destruct (blLineInRazorBlock _); lia.
Qed.

Lemma blockStateAt_nonneg (u : Z) (isRaw : bool) (infos : list LineInfo)
    (range : list nat) (k : nat) (bs : BlockState) :
  0 <= bLevel bs /\ 0 <= razorBraceDepth bs ->
  0 <= bLevel (blockStateAt u isRaw infos range k bs)
  /\ 0 <= razorBraceDepth (blockStateAt u isRaw infos range k bs).
Proof.
  revert range bs; induction k as [|k IH]; intros [|j range] bs H; simpl; try done.
  destruct (infos !! j); [|done]. by apply IH, blockNextState_nonneg.
Qed.

(** C8.  Non-negative nesting.  In the document pass the nesting level on
    entry to every line, and the level the line leaves behind, are at least
    0 whatever the lines hold; in the pass over a block the block-local
    level and the Razor brace depth on entry to every line are at least 0 as
    well. *)
Theorem nesting_level_nonneg (indentSize : Z) (lines : list jstring)
    (infos : list LineInfo) :
  (forall n : nat, 0 <= level (scanPrefix indentSize lines infos n))
  /\ (forall (n : nat) (line : jstring) (info : LineInfo),
        0 <= docNextLevel (scanPrefix indentSize lines infos n)
               (countLine (scanPrefix indentSize lines infos n) line info))
  /\ (forall (isRaw : bool) (range : list nat) (k : nat),
        0 <= bLevel (blockStateAt indentSize isRaw infos range k initialBlock)
        /\ 0 <= razorBraceDepth (blockStateAt indentSize isRaw infos range k initialBlock)).
Proof.
  split; [|split].
  - intros n. by apply scanFrom_level_nonneg.
  - intros n line info. unfold docNextLevel. lia.
  - intros isRaw range k. by apply blockStateAt_nonneg.
Qed.

(** ** The invariant of the document pass *)

Lemma closeCapture_cases (i : nat) (line : jstring) (info : LineInfo) (st : ScanState) :
  let st' := closeCapture i line info st in
  level st' = level st /\ inComment st' = inComment st /\ inRawTag st' = inRawTag st
  /\ inBlockComment st' = inBlockComment st /\ switches st' = switches st
  /\ desiredIndents st' = desiredIndents st
  /\ ((textBlocks st' = textBlocks st /\ currentTextBlock st' = currentTextBlock st)
      \/ (exists b, currentTextBlock st = Some b
                    /\ textBlocks st' = textBlocks st ++ [closedAt i b]
                    /\ currentTextBlock st' = None))
  /\ ((inTextBlock st = false -> inRawBlock st = false -> currentTextBlock st = None) ->
      inTextBlock st' = false -> inRawBlock st' = false -> currentTextBlock st' = None).
Proof.
  unfold closeCapture.
  destruct (inTextBlock st) eqn:Et, (TEXT_CLOSE_RE_test _), (inRawBlock st) eqn:Er,
    (containsClosingTag _ _), (currentTextBlock st) as [b|] eqn:Ec;
    cbn -[closedAt]; repeat split; eauto 8; try done; intros H; by try apply H.
Qed.

Lemma docLineIndent_closeCapture (u : Z) (i : nat) (line : jstring) (info : LineInfo)
    (st : ScanState) (l : jstring) (x : LineInfo) :
  docLineIndent u (closeCapture i l x st) line info = docLineIndent u st line info.
Proof.
  destruct (closeCapture_cases i l x st) as (H1 & H2 & H3 & H4 & H5 & _).
  unfold docLineIndent, docNextLevel, countLine. by rewrite H1, H2, H3, H4, H5.
Qed.

Lemma BlocksOrdered_snoc (blocks : list TextBlock) (b : TextBlock) :
  BlocksOrdered blocks ->
  (forall b', In b' blocks -> (endLine b' < startLine b)%nat) ->
  BlocksOrdered (blocks ++ [b]).
Proof.
  intros Ho Hb i1 i2 b1 b2 Hlt H1 H2.
  apply lookup_app_Some in H2 as [H2 | [Hge H2]].
  - rewrite lookup_app_l in H1 by (apply lookup_lt_Some in H2; lia).
    by apply (Ho i1 i2).
  - apply list_lookup_singleton_Some in H2 as [Hi ->].
    rewrite lookup_app_l in H1 by lia.
    apply Hb. apply list_elem_of_In. by eapply list_elem_of_lookup_2.
Qed.

Lemma openedBlock_shape (trimmed : jstring) (i : nat) (lv : Z) (b : TextBlock) :
  openedBlock trimmed i lv = Some b -> startLine b = S i /\ skip b = false.
Proof.
  unfold openedBlock.
  repeat (destruct (opensTag trimmed _); [intros [= <-]; simpl; split; [lia | done]|]).
  done.
Qed.

Lemma openedBlock_none (trimmed : jstring) (i : nat) (lv : Z) :
  opensTag trimmed (lit "text") = false ->
  opensTag trimmed (lit "script") = false ->
  opensTag trimmed (lit "style") = false ->
  openedBlock trimmed i lv = None.
Proof. unfold openedBlock. by intros -> -> ->. Qed.

Section Scan.
Variable u : Z.
Variable lines : list jstring.
Variable infos : list LineInfo.
Hypothesis Hinfos : length infos = length lines.

Lemma ScanInv_initial : ScanInv u lines infos 0 (initialScan (length lines)).
Proof.
  split; simpl; try done.
  - apply length_replicate.
  - intros; lia.
Qed.

Lemma ScanInv_step (n : nat) (line : jstring) (info : LineInfo) (st : ScanState) :
  lines !! n = Some line -> infos !! n = Some info ->
  st = scanPrefix u lines infos n ->
  ScanInv u lines infos n st ->
  ScanInv u lines infos (S n) (scanLine u n line info st).
Proof.
  intros Hl Hi Hst [Hlen Hdes Hblocks Hord Hcur Hidle].
  assert (Hcap : Captured u lines infos n
                 = inTextBlock (closeCapture n line info st)
                   || inRawBlock (closeCapture n line info st)).
  { unfold Captured. by rewrite Hl, Hi, Hst. }
  assert (Hn : (n < length lines)%nat) by (by apply lookup_lt_Some in Hl).
  destruct (closeCapture_cases n line info st)
    as (_ & _ & _ & _ & _ & Hd' & Hpush & Hidle').
  specialize (Hidle' Hidle).
  set (st' := closeCapture n line info st) in *.
  (* the blocks and the open block after [closeCapture] *)
  assert (Hblocks' : forall b : TextBlock, In b (textBlocks st') ->
    skip b = false /\ (1 <= startLine b)%nat /\ (endLine b < S n)%nat
    /\ forall j : nat,
         (startLine b <= j <= endLine b)%nat -> Captured u lines infos j = true).
  { intros b Hb. destruct Hpush as [[Hp _] | (b0 & Hb0 & Hp & _)]; rewrite Hp in Hb.
    - destruct (Hblocks b Hb) as (? & ? & ? & ?). repeat split; try done. lia.
    - apply in_app_or in Hb as [Hb | [<- | []]].
      + destruct (Hblocks b Hb) as (? & ? & ? & ?). repeat split; try done. lia.
      + destruct (Hcur b0 Hb0) as (? & ? & Hc & _). simpl.
        repeat split; try done; try lia. intros j Hj. apply Hc. lia. }
  assert (Hord' : BlocksOrdered (textBlocks st')).
  { destruct Hpush as [[Hp _] | (b0 & Hb0 & Hp & _)]; rewrite Hp; [done|].
    apply BlocksOrdered_snoc; [done|].
    intros b' Hb'. simpl. by apply (Hcur b0 Hb0). }
  assert (Hcur' : forall b : TextBlock, currentTextBlock st' = Some b ->
    skip b = false /\ (1 <= startLine b <= n)%nat
    /\ (forall j : nat, (startLine b <= j < n)%nat -> Captured u lines infos j = true)
    /\ (forall b' : TextBlock, In b' (textBlocks st') -> (endLine b' < startLine b)%nat)).
  { intros b Hb. destruct Hpush as [[Hp Hc] | (b0 & _ & _ & Hc)].
    - rewrite Hc in Hb. rewrite Hp. by apply Hcur.
    - by rewrite Hc in Hb. }
  unfold scanLine. fold st'.
  destruct (inTextBlock st' || inRawBlock st') eqn:Eflags.
  - (* a captured line *)
    split; cbn [desiredIndents textBlocks currentTextBlock inTextBlock inRawBlock].
    + by rewrite length_insert, Hd'.
    + intros j l x Hj Hlj Hxj. destruct (decide (j = n)) as [->|Hne].
      * rewrite list_lookup_insert_eq by (rewrite Hd'; lia). by rewrite Hcap.
      * rewrite list_lookup_insert_ne by done. rewrite Hd'. apply Hdes; [lia|done|done].
    + done.
    + done.
    + intros b Hb. destruct (Hcur' b Hb) as (? & ? & Hc & ?).
      repeat split; try done; try lia.
      intros j Hj. destruct (decide (j = n)) as [->|Hne]; [by rewrite Hcap|].
      apply Hc. lia.
    + intros H1 H2. by rewrite H1, H2 in Eflags.
  - (* a line of the document pass *)
    apply orb_false_elim in Eflags as [Et Er].
    assert (Hnone : currentTextBlock st' = None) by (by apply Hidle').
    split; cbn [desiredIndents textBlocks currentTextBlock inTextBlock inRawBlock].
    + by rewrite length_insert, Hd'.
    + intros j l x Hj Hlj Hxj. destruct (decide (j = n)) as [->|Hne].
      * rewrite list_lookup_insert_eq by (rewrite Hd'; lia).
        rewrite Hcap.
        rewrite Hl in Hlj. rewrite Hi in Hxj. injection Hlj as <-. injection Hxj as <-.
        unfold st'. by rewrite docLineIndent_closeCapture, Hst.
      * rewrite list_lookup_insert_ne by done. rewrite Hd'. apply Hdes; [lia|done|done].
    + done.
    + done.
    + intros b Hb. rewrite Hnone in Hb.
      destruct (openedBlock _ _ _) as [b0|] eqn:Eo; [|done].
      injection Hb as <-. apply openedBlock_shape in Eo as [Hs Hk].
      repeat split; try done; try lia.
      intros b' Hb'. destruct (Hblocks' b' Hb') as (_ & _ & He & _). lia.
    + rewrite Et, Er, !orb_false_r. intros H1 H2.
      apply orb_false_elim in H2 as [H2 H3].
      by rewrite openedBlock_none.
Qed.

Lemma ScanInv_prefix (n : nat) :
  (n <= length lines)%nat -> ScanInv u lines infos n (scanPrefix u lines infos n).
Proof.
  induction n as [|n IH]; intros Hn.
  - apply ScanInv_initial.
  - destruct (lookup_lt_is_Some_2 lines n) as [line Hl]; [lia|].
    destruct (lookup_lt_is_Some_2 infos n) as [info Hi]; [lia|].
    rewrite (scanPrefix_S _ _ _ _ _ _ Hl Hi).
    apply ScanInv_step; [done | done | done | apply IH; lia].
Qed.
End Scan.

(** ** The block pass writes inside the blocks only *)

Lemma in_blockRange (b : TextBlock) (j : nat) :
  In j (blockRange b) <-> (startLine b <= j <= endLine b)%nat.
Proof. unfold blockRange. rewrite in_seq. lia. Qed.

Lemma restoreLines_length (infos : list LineInfo) (range : list nat)
    (d : list (option Z)) :
  length (restoreLines infos range d) = length d.
Proof.
  revert d; induction range as [|k range IH]; intros d; simpl; [done|].
  destruct (infos !! k); [|done]. by rewrite IH, length_insert.
Qed.

Lemma restoreLines_other (infos : list LineInfo) (range : list nat)
    (d : list (option Z)) (j : nat) :
  ~ In j range -> restoreLines infos range d !! j = d !! j.
Proof.
  revert d; induction range as [|k range IH]; intros d Hj; simpl; [done|].
  destruct (infos !! k); [|done].
  rewrite IH by (intros H; apply Hj; by right).
  apply list_lookup_insert_ne. intros ->. apply Hj. by left.
Qed.

Lemma blockWrite_length (u base : Z) (isRaw : bool) (bs : BlockState) (k : nat)
    (r : jstring) (arr : Arrays) :
  length (indents (blockWrite u base isRaw bs k r arr)) = length (indents arr).
Proof. unfold blockWrite. destruct (isEmpty r); cbn [indents]; apply length_insert. Qed.

Lemma blockWrite_other (u base : Z) (isRaw : bool) (bs : BlockState) (k : nat)
    (r : jstring) (arr : Arrays) (j : nat) :
  j <> k -> indents (blockWrite u base isRaw bs k r arr) !! j = indents arr !! j.
Proof.
  intros H. unfold blockWrite.
  destruct (isEmpty r); cbn [indents]; by apply list_lookup_insert_ne.
Qed.

Lemma blockWrite_same (u base : Z) (isRaw : bool) (bs : BlockState) (k : nat)
    (r : jstring) (arr : Arrays) :
  (k < length (indents arr))%nat ->
  indents (blockWrite u base isRaw bs k r arr) !! k
  = Some (Some (blockLineIndent u base isRaw bs r)).
Proof.
  intros H. unfold blockWrite.
  destruct (isEmpty r); cbn [indents]; by apply list_lookup_insert_eq.
Qed.

Lemma reindentLines_length (u base : Z) (isRaw : bool) (infos : list LineInfo)
    (range : list nat) (bs : BlockState) (arr : Arrays) :
  length (indents (reindentLines u base isRaw infos range bs arr)) = length (indents arr).
Proof.
  revert bs arr; induction range as [|k range IH]; intros bs arr; simpl; [done|].
  destruct (infos !! k); [|done]. by rewrite IH, blockWrite_length.
Qed.

Lemma reindentLines_other (u base : Z) (isRaw : bool) (infos : list LineInfo)
    (range : list nat) (bs : BlockState) (arr : Arrays) (j : nat) :
  ~ In j range ->
  indents (reindentLines u base isRaw infos range bs arr) !! j = indents arr !! j.
Proof.
  revert bs arr; induction range as [|k range IH]; intros bs arr Hj; simpl; [done|].
  destruct (infos !! k); [|done].
  rewrite IH by (intros H; apply Hj; by right).
  apply blockWrite_other. intros ->. apply Hj. by left.
Qed.

Lemma applyBlock_length (u : Z) (infos : list LineInfo) (arr : Arrays) (b : TextBlock) :
  length (indents (applyBlock u infos arr b)) = length (indents arr).
Proof.
  unfold applyBlock, applySingleTextBlockOriginalIndent.
  destruct (skip b || _); [apply restoreLines_length|].
  destruct (setHas RAW_TAGS (tagName b) && _);
    [apply restoreLines_length | apply reindentLines_length].
Qed.

Lemma applyBlock_other (u : Z) (infos : list LineInfo) (arr : Arrays) (b : TextBlock)
    (j : nat) :
  ~ In j (blockRange b) -> indents (applyBlock u infos arr b) !! j = indents arr !! j.
Proof.
  intros Hj. unfold applyBlock, applySingleTextBlockOriginalIndent.
  destruct (skip b || _); [by apply restoreLines_other|].
  destruct (setHas RAW_TAGS (tagName b) && _);
    [by apply restoreLines_other | by apply reindentLines_other].
Qed.

Lemma applyTextBlockIndentation_length (u : Z) (infos : list LineInfo)
    (blocks : list TextBlock) (arr : Arrays) :
  length (indents (applyTextBlockIndentation blocks arr infos u)) = length (indents arr).
Proof.
  unfold applyTextBlockIndentation.
  revert arr; induction blocks as [|b blocks IH]; intros arr; simpl; [done|].
  by rewrite IH, applyBlock_length.
Qed.

Lemma applyTextBlockIndentation_other (u : Z) (infos : list LineInfo)
    (blocks : list TextBlock) (arr : Arrays) (j : nat) :
  (forall b, In b blocks -> ~ In j (blockRange b)) ->
  indents (applyTextBlockIndentation blocks arr infos u) !! j = indents arr !! j.
Proof.
  unfold applyTextBlockIndentation.
  revert arr; induction blocks as [|b blocks IH]; intros arr Hj; simpl; [done|].
  rewrite IH by (intros b' Hb'; apply Hj; by right).
  apply applyBlock_other, Hj. by left.
Qed.

Lemma applyTextBlockOriginalIndent_length (infos : list LineInfo)
    (blocks : list TextBlock) (d : list (option Z)) :
  length (applyTextBlockOriginalIndent blocks d infos) = length d.
Proof.
  unfold applyTextBlockOriginalIndent.
  revert d; induction blocks as [|b blocks IH]; intros d; simpl; [done|].
  by rewrite IH, restoreLines_length.
Qed.

Lemma applyTextBlockOriginalIndent_other (infos : list LineInfo)
    (blocks : list TextBlock) (d : list (option Z)) (j : nat) :
  (forall b, In b blocks -> ~ In j (blockRange b)) ->
  applyTextBlockOriginalIndent blocks d infos !! j = d !! j.
Proof.
  unfold applyTextBlockOriginalIndent.
  revert d; induction blocks as [|b blocks IH]; intros d Hj; simpl; [done|].
  rewrite IH by (intros b' Hb'; apply Hj; by right).
  apply restoreLines_other, Hj. by left.
Qed.

Lemma resolveBlocks_length (adjust : bool) (blocks : list TextBlock)
    (d : list (option Z)) (infos : list LineInfo) (u : Z) (n : nat) :
  length (indents (resolveBlocks adjust blocks d infos u n)) = length d.
Proof.
  unfold resolveBlocks. destruct adjust.
  - by rewrite applyTextBlockIndentation_length.
  - cbn [indents withIndents initialArrays]. apply applyTextBlockOriginalIndent_length.
Qed.

Lemma resolveBlocks_other (adjust : bool) (blocks : list TextBlock)
    (d : list (option Z)) (infos : list LineInfo) (u : Z) (n : nat) (j : nat) :
  (forall b, In b blocks -> ~ In j (blockRange b)) ->
  indents (resolveBlocks adjust blocks d infos u n) !! j = d !! j.
Proof.
  intros Hj. unfold resolveBlocks. destruct adjust.
  - by rewrite applyTextBlockIndentation_other.
  - cbn [indents withIndents initialArrays]. by apply applyTextBlockOriginalIndent_other.
Qed.

Lemma fillUnresolved_lookup (d : list (option Z)) (infos : list LineInfo) (j : nat)
    (x : option Z) (info : LineInfo) :
  d !! j = Some x -> infos !! j = Some info ->
  fillUnresolved d infos !! j
  = Some (Some (match x with Some w => w | None => leadingWidth info end)).
Proof.
  revert infos j; induction d as [|y d IH]; intros [|i infos] [|j] Hd Hi;
    simpl in *; try done.
  - by injection Hd as ->; injection Hi as ->.
  - by apply IH.
Qed.

Lemma fillUnresolved_length (d : list (option Z)) (infos : list LineInfo) :
  length (fillUnresolved d infos) = length d.
Proof.
  revert infos; induction d as [|y d IH]; intros [|i infos]; simpl; try done.
  by rewrite IH.
Qed.

(** ** The blocks found by the document pass *)

Lemma trace_scan (input : jstring) (o : FormatOptions) :
  trScan (trace input o) = scanPrefix (trIndentSize (trace input o)) (trLines (trace input o)) (trLineInfos (trace input o)) (length (trLines (trace input o))).
Proof.
  rewrite scanPrefix_all; [reflexivity|].
  by rewrite trace_lineInfos, length_map.
Qed.

Lemma trace_scanInv (input : jstring) (o : FormatOptions) :
  ScanInv (trIndentSize (trace input o)) (trLines (trace input o)) (trLineInfos (trace input o)) (length (trLines (trace input o))) (trScan (trace input o)).
Proof.
  rewrite trace_scan. apply ScanInv_prefix; [|done].
  by rewrite trace_lineInfos, length_map.
Qed.

Lemma trace_textBlocks (input : jstring) (o : FormatOptions) :
  trTextBlocks (trace input o) = finishScan (length (trLines (trace input o))) (trScan (trace input o)).
Proof. reflexivity. Qed.

Lemma trace_blockArrays (input : jstring) (o : FormatOptions) :
  trBlockArrays (trace input o)
  = resolveBlocks (adjustTextBlocks o) (trTextBlocks (trace input o)) (desiredIndents (trScan (trace input o)))
      (trLineInfos (trace input o)) (trIndentSize (trace input o)) (length (trLines (trace input o))).
Proof. reflexivity. Qed.

Lemma trace_arrays (input : jstring) (o : FormatOptions) :
  trArrays (trace input o)
  = withIndents (fillUnresolved (indents (trBlockArrays (trace input o))) (trLineInfos (trace input o)))
      (trBlockArrays (trace input o)).
Proof. reflexivity. Qed.

Lemma finishScan_sound (u : Z) (lines : list jstring) (infos : list LineInfo)
    (st : ScanState) :
  ScanInv u lines infos (length lines) st ->
  BlocksSound u lines infos (finishScan (length lines) st).
Proof.
  intros [Hlen Hdes Hblocks Hord Hcur Hidle].
  assert (Hold : forall b : TextBlock, In b (textBlocks st) ->
    (1 <= startLine b)%nat
    /\ (startLine b <= endLine b -> endLine b < length lines)%nat
    /\ forall j : nat,
         (startLine b <= j <= endLine b)%nat -> Captured u lines infos j = true).
  { intros b Hb. destruct (Hblocks b Hb) as (_ & ? & ? & ?). by repeat split. }
  unfold finishScan.
  destruct (inTextBlock st); [|by split].
  destruct (currentTextBlock st) as [b0|] eqn:Ec; [|by split].
  destruct (Hcur b0 eq_refl) as (_ & Hs & Hc & Hb).
  split.
  - by apply BlocksOrdered_snoc.
  - intros b Hin. apply in_app_or in Hin as [Hin | [<- | []]]; [by apply Hold|].
    simpl. repeat split; [lia | lia |]. intros j Hj. apply Hc. lia.
Qed.

Lemma trace_blocks_sound (input : jstring) (o : FormatOptions) :
  BlocksSound (trIndentSize (trace input o)) (trLines (trace input o)) (trLineInfos (trace input o)) (trTextBlocks (trace input o)).
Proof. apply finishScan_sound, trace_scanInv. Qed.

(** ** The width of a line of the document pass *)

Lemma trace_document_line (input : jstring) (o : FormatOptions) (i : nat)
    (line : jstring) (info : LineInfo) :
  trLines (trace input o) !! i = Some line -> trLineInfos (trace input o) !! i = Some info ->
  Captured (trIndentSize (trace input o)) (trLines (trace input o)) (trLineInfos (trace input o)) i = false ->
  indents (trArrays (trace input o)) !! i
  = Some (Some (docLineIndent (trIndentSize (trace input o))
                  (scanPrefix (trIndentSize (trace input o)) (trLines (trace input o)) (trLineInfos (trace input o)) i) line info)).
Proof.
  intros Hl Hi Hc.
  pose proof (trace_scanInv input o) as Hinv.
  pose proof (trace_blocks_sound input o) as Hb.
  set (t := trace input o) in *.
  assert (Hn : (i < length (trLines t))%nat) by (by apply lookup_lt_Some in Hl).
  assert (Hd : indents (trBlockArrays t) !! i
    = Some (Some (docLineIndent (trIndentSize t)
                    (scanPrefix (trIndentSize t) (trLines t) (trLineInfos t) i) line info))).
  { unfold t. rewrite trace_blockArrays. fold t. rewrite resolveBlocks_other.
    - rewrite (inv_desired _ _ _ _ _ Hinv i line info Hn Hl Hi). by rewrite Hc.
    - intros b Hin Hj. apply in_blockRange in Hj.
      destruct (bs_block _ _ _ _ Hb b Hin) as (_ & _ & Hcap).
      rewrite (Hcap i Hj) in Hc. done. }
  unfold t. rewrite trace_arrays. fold t. cbn [indents withIndents].
  by rewrite (fillUnresolved_lookup _ _ _ _ _ Hd Hi).
Qed.

(** The width the document pass computes.  A line that the pass handles
    itself, because it does not lie inside a block being captured, ends up
    with the width [max(0, level - leadingCloseCount) * indentSize], plus
    one indent size exactly when the switch stack is not empty with its top
    at or below the current level, the one variable [caseIndentDepth] holds
    a level, and the line is neither a label nor a line that starts with a
    closing brace and drops the level below the top of the stack. *)
Theorem document_line_width (input : jstring) (options : FormatOptions) (i : nat)
    (line : jstring) (info : LineInfo) :
  let t := trace input options in
  let u := trIndentSize t in
  let st := scanPrefix u (trLines t) (trLineInfos t) i in
  let lc := countLine st line info in
  let shape := docShape (trimStart (rest info)) in
  let depths := switchDepths (switches st) in
  let extra :=
    inSwitchAt depths (level st)
    && bool_decide (caseIndentDepth (switches st) <> None)
    && negb (shIsCaseOrDefault shape)
    && negb (shIsClosingBraceLine shape && belowSwitchTop depths (docNextLevel st lc)) in
  trLines t !! i = Some line -> trLineInfos t !! i = Some info ->
  Captured u (trLines t) (trLineInfos t) i = false ->
  indents (trArrays t) !! i
  = Some (Some (Z.max 0 (level st - leadingCloseCount lc) * u
                + (if extra then u else 0))).
Proof.
  intros t u st lc shape depths extra Hl Hi Hc.
  etrans; [apply (trace_document_line input options i line info Hl Hi Hc)|].
  do 2 f_equal. unfold docLineIndent, switchExtra.
  change (Z.max 0 (level st - leadingCloseCount lc) * u
          + (if inSwitchAt depths (level st)
                && match caseIndentDepth (switches st) with
                   | Some _ => true
                   | None => false
                   end
                && negb (shIsCaseOrDefault shape)
                && negb (shIsClosingBraceLine shape
                         && belowSwitchTop depths (docNextLevel st lc))
             then u else 0)
          = Z.max 0 (level st - leadingCloseCount lc) * u + (if extra then u else 0)).
  unfold extra. by destruct (caseIndentDepth (switches st)).
Qed.

Lemma document_line_width_witness :
  let t := trace nestedSwitchDoc (opts 4) in
  trLines t !! 4%nat = Some (lit "x();")
  /\ trLineInfos t !! 4%nat = Some (analyzeLine (lit "x();") 4)
  /\ Captured 4 (trLines t) (trLineInfos t) 4 = false
  /\ indents (trArrays t) !! 4%nat = Some (Some 12).
Proof.
  intros t. split; [reflexivity|]. split; [reflexivity|]. split; [vm_compute; reflexivity|].
  etrans;
    [apply (document_line_width nestedSwitchDoc (opts 4) 4 (lit "x();")
              (analyzeLine (lit "x();") 4));
     vm_compute; reflexivity|].
  vm_compute. reflexivity.
Defined.

(** C5 (failing input).  A switch nested in a case of another switch.
    After the inner switch is closed, [y();] (line index 6) stands in the
    body of the outer switch, which is still open and whose label [case 1:]
    has been seen; it is neither a label nor a closing brace line.  The
    claim gives it the width of its level plus one indent unit, 8, the width
    [z();] gets under [case 3:].  The code gives it 4, the width of the
    labels: [switchDepths] is a stack, but the level of the most recent
    label is kept in one variable, which closing the inner switch clears. *)
Theorem nested_switch_loses_extra_indent :
  let t := trace nestedSwitchDoc (opts 4) in
  let u := trIndentSize t in
  let st := scanPrefix u (trLines t) (trLineInfos t) 6 in
  let line := lit "y();" in
  let info := analyzeLine line 4 in
  let lc := countLine st line info in
  trLines t !! 6%nat = Some line /\ trLineInfos t !! 6%nat = Some info
  /\ Captured u (trLines t) (trLineInfos t) 6 = false
  /\ LabelSeenInOpenSwitch u (trLines t) (trLineInfos t) 6
  /\ shIsCaseOrDefault (docShape (trimStart (rest info))) = false
  /\ shIsClosingBraceLine (docShape (trimStart (rest info))) = false
  /\ indents (trArrays t) !! 6%nat
     = Some (Some (Z.max 0 (level st - leadingCloseCount lc) * u))
  /\ indents (trArrays t) !! 6%nat
     <> Some (Some (Z.max 0 (level st - leadingCloseCount lc) * u + u))
  /\ fst (splitLines (output (formatText nestedSwitchDoc (opts 4))))
     = List.map lit ["switch(a){"; "    case 1:"; "        switch(b){"; "        case 2:";
                     "            x();"; "    }"; "    y();"; "    case 3:";
                     "        z();"; "}"]%string.
Proof.
  intros t u st line info lc.
  split; [reflexivity|]. split; [reflexivity|]. split; [vm_compute; reflexivity|].
  split.
  { exists 0%nat, 1%nat, (lit "switch(a){"), (analyzeLine (lit "switch(a){") 4),
      (analyzeLine (lit "case 1:") 4).
    split; [lia|]. do 7 (split; [vm_compute; reflexivity|]).
    intros k Hk.
    assert (Hcases : k = 1%nat \/ k = 2%nat \/ k = 3%nat \/ k = 4%nat \/ k = 5%nat
                     \/ k = 6%nat) by lia.
    destruct Hcases as [->|[->|[->|[->|[->| ->]]]]]; vm_compute; discriminate. }
  split; [vm_compute; reflexivity|]. split; [vm_compute; reflexivity|].
  split; [vm_compute; reflexivity|].
  split; [vm_compute; discriminate | vm_compute; reflexivity].
Qed.

(** ** The widths the block pass leaves inside a block *)

Lemma restoreLines_lookup (infos : list LineInfo) (len s : nat) (d : list (option Z))
    (k : nat) (info : LineInfo) :
  (s + len <= length infos)%nat -> length d = length infos -> (k < len)%nat ->
  infos !! (s + k)%nat = Some info ->
  restoreLines infos (seq s len) d !! (s + k)%nat = Some (Some (leadingWidth info)).
Proof.
  revert s d k; induction len as [|len IH]; intros s d k Hs Hd Hk Hi; [lia|].
  simpl. destruct (lookup_lt_is_Some_2 infos s) as [x Hx]; [lia|]. rewrite Hx.
  destruct k as [|k].
  - rewrite Nat.add_0_r in *. rewrite restoreLines_other by (rewrite in_seq; lia).
    rewrite list_lookup_insert_eq by lia. rewrite Hx in Hi. by injection Hi as ->.
  - replace (s + S k)%nat with (S s + k)%nat in * by lia.
    apply IH; [lia | by rewrite length_insert | lia | done].
Qed.

Lemma reindentLines_lookup (u base : Z) (isRaw : bool) (infos : list LineInfo)
    (len s : nat) (bs : BlockState) (arr : Arrays) (k : nat) (info : LineInfo) :
  (s + len <= length infos)%nat -> length (indents arr) = length infos ->
  (k < len)%nat -> infos !! (s + k)%nat = Some info ->
  indents (reindentLines u base isRaw infos (seq s len) bs arr) !! (s + k)%nat
  = Some (Some (blockLineIndent u base isRaw
                  (blockStateAt u isRaw infos (seq s len) k bs) (rest info))).
Proof.
  revert s bs arr k; induction len as [|len IH]; intros s bs arr k Hs Hd Hk Hi; [lia|].
  simpl. destruct (lookup_lt_is_Some_2 infos s) as [x Hx]; [lia|]. rewrite Hx.
  destruct k as [|k].
  - rewrite Nat.add_0_r in *. rewrite reindentLines_other by (rewrite in_seq; lia).
    rewrite blockWrite_same by lia. rewrite Hx in Hi. by injection Hi as ->.
  - replace (s + S k)%nat with (S s + k)%nat in * by lia.
    apply IH; [lia | by rewrite blockWrite_length | lia | done].
Qed.

Lemma blockRange_lookup (b : TextBlock) (k : nat) :
  (startLine b + k <= endLine b)%nat ->
  blockRange b !! k = Some (startLine b + k)%nat.
Proof. intros H. unfold blockRange. apply lookup_seq. lia. Qed.

Lemma applyBlock_lookup (u : Z) (infos : list LineInfo) (arr : Arrays) (b : TextBlock)
    (k : nat) (info : LineInfo) :
  (endLine b < length infos)%nat -> length (indents arr) = length infos ->
  (startLine b + k <= endLine b)%nat ->
  infos !! (startLine b + k)%nat = Some info ->
  indents (applyBlock u infos arr b) !! (startLine b + k)%nat
  = Some (Some (blockValue u infos b k info)).
Proof.
  intros He Hd Hk Hi. unfold applyBlock, blockValue, applySingleTextBlockOriginalIndent.
  assert (Hlt : (endLine b <? startLine b)%nat = false) by (apply Nat.ltb_ge; lia).
  rewrite Hlt, orb_false_r.
  destruct (skip b); cbn [orb indents withIndents].
  - unfold blockRange. apply restoreLines_lookup; [lia | done | lia | done].
  - destruct (setHas RAW_TAGS (tagName b) && _); cbn [indents withIndents].
    + unfold blockRange. apply restoreLines_lookup; [lia | done | lia | done].
    + unfold blockRange. apply reindentLines_lookup; [lia | done | lia | done].
Qed.

Lemma BlocksOrdered_later (pre post : list TextBlock) (b b2 : TextBlock) :
  BlocksOrdered (pre ++ b :: post) -> In b2 post -> (endLine b < startLine b2)%nat.
Proof.
  intros Ho Hin. apply list_elem_of_In, list_elem_of_lookup_1 in Hin as [q Hq].
  apply (Ho (length pre) (length pre + S q)%nat); [lia | |].
  - by rewrite list_lookup_middle.
  - rewrite lookup_app_r by lia.
    replace (length pre + S q - length pre)%nat with (S q) by lia. done.
Qed.

Lemma applyTextBlockIndentation_lookup (u : Z) (infos : list LineInfo)
    (blocks : list TextBlock) (arr : Arrays) (b : TextBlock) (k : nat) (info : LineInfo) :
  BlocksOrdered blocks -> In b blocks ->
  (endLine b < length infos)%nat -> length (indents arr) = length infos ->
  (startLine b + k <= endLine b)%nat ->
  infos !! (startLine b + k)%nat = Some info ->
  indents (applyTextBlockIndentation blocks arr infos u) !! (startLine b + k)%nat
  = Some (Some (blockValue u infos b k info)).
Proof.
  intros Ho Hin He Hd Hk Hi.
  apply in_split in Hin as (pre & post & ->).
  unfold applyTextBlockIndentation. rewrite fold_left_app. simpl.
  fold (applyTextBlockIndentation post
          (applyBlock u infos (fold_left (applyBlock u infos) pre arr) b) infos u).
  rewrite applyTextBlockIndentation_other.
  - apply applyBlock_lookup; try done.
    fold (applyTextBlockIndentation pre arr infos u).
    by rewrite applyTextBlockIndentation_length.
  - intros b2 Hb2 Hj. apply in_blockRange in Hj.
    pose proof (BlocksOrdered_later _ _ _ _ Ho Hb2). lia.
Qed.

Lemma applyTextBlockOriginalIndent_lookup (infos : list LineInfo)
    (blocks : list TextBlock) (d : list (option Z)) (b : TextBlock) (k : nat)
    (info : LineInfo) :
  BlocksOrdered blocks -> In b blocks ->
  (endLine b < length infos)%nat -> length d = length infos ->
  (startLine b + k <= endLine b)%nat ->
  infos !! (startLine b + k)%nat = Some info ->
  applyTextBlockOriginalIndent blocks d infos !! (startLine b + k)%nat
  = Some (Some (leadingWidth info)).
Proof.
  intros Ho Hin He Hd Hk Hi.
  apply in_split in Hin as (pre & post & ->).
  unfold applyTextBlockOriginalIndent. rewrite fold_left_app. simpl.
  match goal with
  | |- fold_left ?f post ?d' !! _ = _ =>
      change (fold_left f post d') with (applyTextBlockOriginalIndent post d' infos)
  end.
  rewrite applyTextBlockOriginalIndent_other.
  - unfold blockRange. apply restoreLines_lookup; [lia | | lia | done].
    match goal with
    | |- length (fold_left ?f pre d) = _ =>
        change (fold_left f pre d) with (applyTextBlockOriginalIndent pre d infos)
    end.
    by rewrite applyTextBlockOriginalIndent_length.
  - intros b2 Hb2 Hj. apply in_blockRange in Hj.
    pose proof (BlocksOrdered_later _ _ _ _ Ho Hb2). lia.
Qed.

(** The final width of a line of a block. *)
Lemma trace_block_line (input : jstring) (o : FormatOptions) (b : TextBlock) (k : nat)
    (info : LineInfo) :
  In b (trTextBlocks (trace input o)) ->
  (startLine b + k <= endLine b)%nat ->
  trLineInfos (trace input o) !! (startLine b + k)%nat = Some info ->
  indents (trArrays (trace input o)) !! (startLine b + k)%nat
  = Some (Some (if adjustTextBlocks o
                then blockValue (trIndentSize (trace input o))
                       (trLineInfos (trace input o)) b k info
                else leadingWidth info)).
Proof.
  intros Hin Hk Hi.
  pose proof (trace_scanInv input o) as Hinv.
  pose proof (trace_blocks_sound input o) as Hb.
  set (t := trace input o) in *.
  assert (Hlen : length (trLineInfos t) = length (trLines t))
    by (unfold t; by rewrite trace_lineInfos, length_map).
  assert (Hd : length (desiredIndents (trScan t)) = length (trLineInfos t))
    by (rewrite Hlen; apply (inv_length _ _ _ _ _ Hinv)).
  destruct (bs_block _ _ _ _ Hb b Hin) as (_ & He & _).
  assert (He' : (endLine b < length (trLineInfos t))%nat) by (rewrite Hlen; apply He; lia).
  unfold t. rewrite trace_arrays. fold t. cbn [indents withIndents].
  assert (Hv : indents (trBlockArrays t) !! (startLine b + k)%nat
    = Some (Some (if adjustTextBlocks o
                  then blockValue (trIndentSize t) (trLineInfos t) b k info
                  else leadingWidth info))).
  { unfold t. rewrite trace_blockArrays. fold t. unfold resolveBlocks.
    destruct (adjustTextBlocks o).
    - apply applyTextBlockIndentation_lookup; try done. apply (bs_ordered _ _ _ _ Hb).
    - cbn [indents withIndents initialArrays].
      apply applyTextBlockOriginalIndent_lookup; try done. apply (bs_ordered _ _ _ _ Hb). }
  by rewrite (fillUnresolved_lookup _ _ _ _ _ Hv Hi).
Qed.

(** ** C6: the width of a line of a re-indented block *)




(** ** C7: raw blocks that mix directives and plain lines *)

Lemma razorDirective_not_blank (info : LineInfo) :
  isRazorDirective (trimStart (rest info)) = true ->
  isEmpty (trimStart (rest info)) = false.
Proof. by destruct (trimStart (rest info)). Qed.

Lemma preserveScan_mix (infos : list LineInfo) (range : list nat) :
  forall (hd hn : bool) (depth : Z),
    (forall j : nat, In j range -> is_Some (infos !! j)) ->
    hd && hn = false ->
    (hd = true \/
     exists (p jp : nat) (ip : LineInfo),
       range !! p = Some jp /\ infos !! jp = Some ip
       /\ isRazorDirective (trimStart (rest ip)) = true) ->
    (hn = true \/
     exists (q jq : nat) (iq : LineInfo),
       range !! q = Some jq /\ infos !! jq = Some iq
       /\ isEmpty (trimStart (rest iq)) = false
       /\ startsWith (trimStart (rest iq)) [ch_at] = false
       /\ razorDepthAt infos range q depth <= 0) ->
    preserveScan infos range hd hn depth = true.
Proof.
  induction range as [|j0 range IH]; intros hd hn depth Hvalid Hnot Hd Hn.
  - exfalso. destruct Hd as [-> | (p & jp & ip & Hp & _)]; [|by rewrite lookup_nil in Hp].
    destruct Hn as [-> | (q & jq & iq & Hq & _)]; [done | by rewrite lookup_nil in Hq].
  - simpl. destruct (Hvalid j0 (or_introl eq_refl)) as [info Hinfo]. rewrite Hinfo.
    assert (Hvalid' : forall j : nat, In j range -> is_Some (infos !! j))
      by (intros j Hj; apply Hvalid; by right).
    destruct (isEmpty (trimStart (rest info))) eqn:Eblank.
    + apply IH; [done | done | |].
      * destruct Hd as [Hd | (p & jp & ip & Hp & Hip & Hdir)]; [by left | right].
        destruct p as [|p]; [|by exists p, jp, ip].
        simpl in Hp. injection Hp as <-. rewrite Hinfo in Hip. injection Hip as <-.
        apply razorDirective_not_blank in Hdir. congruence.
      * destruct Hn as [Hn | (q & jq & iq & Hq & Hiq & Hnb & Hat & Hdepth)];
          [by left | right].
        destruct q as [|q].
        -- simpl in Hq. injection Hq as <-. rewrite Hinfo in Hiq. injection Hiq as <-.
           congruence.
        -- exists q, jq, iq. repeat split; try done.
           simpl in Hdepth. rewrite Hinfo in Hdepth.
           unfold razorDepthAfter in Hdepth. by rewrite Eblank in Hdepth.
    + set (dir := isRazorDirective (trimStart (rest info))).
      set (hd' := hd || dir).
      set (hn' := hn || (negb dir && negb (startsWith (trimStart (rest info)) [ch_at])
                         && negb ((0 <? depth) || dir))).
      destruct (hd' && hn') eqn:Eboth; [done|].
      apply IH; [done | done | |].
      * destruct Hd as [Hd | (p & jp & ip & Hp & Hip & Hdir)];
          [left; unfold hd'; by rewrite Hd|].
        destruct p as [|p]; [|right; by exists p, jp, ip].
        simpl in Hp. injection Hp as <-. rewrite Hinfo in Hip. injection Hip as <-.
        left. unfold hd', dir. rewrite Hdir. apply orb_true_r.
      * destruct Hn as [Hn | (q & jq & iq & Hq & Hiq & Hnb & Hat & Hdepth)];
          [left; unfold hn'; by rewrite Hn|].
        destruct q as [|q].
        -- simpl in Hq. injection Hq as <-. rewrite Hinfo in Hiq. injection Hiq as <-.
           left. unfold hn', dir, isRazorDirective. rewrite Hat. simpl in Hdepth.
           assert (Hz : (0 <? depth) = false) by (apply Z.ltb_ge; lia).
           rewrite Hz. simpl. apply orb_true_r.
        -- right. exists q, jq, iq. repeat split; try done.
           simpl in Hdepth. by rewrite Hinfo in Hdepth.
Qed.

(** C7 (amended).  A raw block that holds a Razor directive line together
    with a line that is not blank, does not start with [@] and lies outside
    the braces opened by directive lines keeps, on every line, the original
    leading width; the lines the document pass handles itself get their
    computed width all the same. *)
Theorem mixed_raw_block_restored (input : jstring) (options : FormatOptions)
    (block : TextBlock) (j : nat) (info : LineInfo) :
  let t := trace input options in
  let u := trIndentSize t in
  In block (trTextBlocks t) ->
  setHas RAW_TAGS (tagName block) = true ->
  MixesDirectiveAndOutsidePlain (trLineInfos t) block ->
  (startLine block <= j <= endLine block)%nat ->
  trLineInfos t !! j = Some info ->
  indents (trArrays t) !! j = Some (Some (leadingWidth info))
  /\ forall (i : nat) (line' : jstring) (info' : LineInfo),
       trLines t !! i = Some line' -> trLineInfos t !! i = Some info' ->
       Captured u (trLines t) (trLineInfos t) i = false ->
       indents (trArrays t) !! i
       = Some (Some (docLineIndent u (scanPrefix u (trLines t) (trLineInfos t) i)
                       line' info')).
Proof.
  intros t u Hin Hraw Hmix Hj Hi. split; [|intros i l x; apply trace_document_line].
  replace j with (startLine block + (j - startLine block))%nat in * by lia.
  etrans; [apply (trace_block_line input options block _ info Hin); [lia | exact Hi]|].
  destruct (adjustTextBlocks options); [|done].
  unfold blockValue. fold t. rewrite Hraw.
  assert (Hp : shouldPreserveRawBlockIndent block (trLineInfos t) = true).
  { destruct Hmix as (p & q & jp & jq & ip & iq & Hp & Hip & Hdir & Hq & Hiq & Hnb & Hat & Hd).
    apply preserveScan_mix; [| done | right; by exists p, jp, ip | right; by exists q, jq, iq].
    intros j' Hj'. apply in_blockRange in Hj'. apply lookup_lt_is_Some_2.
    pose proof (trace_blocks_sound input options) as Hb.
    destruct (bs_block _ _ _ _ Hb block Hin) as (_ & He & _). fold t in He.
    assert (Hlen : length (trLineInfos t) = length (trLines t))
      by (unfold t; by rewrite trace_lineInfos, length_map).
    lia. }
  rewrite Hp. by rewrite orb_true_r.
Qed.

Lemma mixed_raw_block_restored_witness :
  let t := trace mixedDirectiveDoc (opts 4) in
  let block := {| startLine := 2; endLine := 5; parentLevel := 1;
                  tagName := lit "script"; skip := false |} in
  let info := analyzeLine (lit " foo();") 4 in
  In block (trTextBlocks t)
  /\ MixesDirectiveAndOutsidePlain (trLineInfos t) block
  /\ trLineInfos t !! 4%nat = Some info
  /\ indents (trArrays t) !! 4%nat = Some (Some 1).
Proof.
  intros t block info.
  assert (Hin : In block (trTextBlocks t)) by (vm_compute; by left).
  assert (Hmix : MixesDirectiveAndOutsidePlain (trLineInfos t) block).
  { exists 1%nat, 0%nat, 3%nat, 2%nat, (analyzeLine (lit "    @if (x) {") 4),
      (analyzeLine (lit "  var a = 1;") 4).
    repeat split; try (vm_compute; reflexivity). vm_compute. discriminate. }
  split; [done|]. split; [done|]. split; [reflexivity|].
  apply (mixed_raw_block_restored mixedDirectiveDoc (opts 4) block 4 info);
    [done | reflexivity | done | simpl; lia | reflexivity].
Defined.

(** C7 as worded fails on the Razor code block of the test suite: the
    script block holds the directive line [@{] and plain lines, but the
    plain lines stand inside the braces of the directive, so the block is
    re-indented: [var count = 3;] goes from width 0 to width 4. *)
Lemma razor_code_block_is_reindented :
  let t := trace razorCodeBlockDoc (opts 4) in
  let block := {| startLine := 1; endLine := 4; parentLevel := 0;
                  tagName := lit "script"; skip := false |} in
  let info := analyzeLine (lit "var count = 3;") 4 in
  In block (trTextBlocks t)
  /\ setHas RAW_TAGS (tagName block) = true
  /\ MixesDirectiveAndPlain (trLineInfos t) block
  /\ trLineInfos t !! 2%nat = Some info
  /\ leadingWidth info = 0
  /\ indents (trArrays t) !! 2%nat = Some (Some 4)
  /\ indents (trArrays t) !! 2%nat <> Some (Some (leadingWidth info)).
Proof.
  intros t block info. split; [vm_compute; by left|]. split; [reflexivity|].
  split.
  { exists 1%nat, 2%nat, (analyzeLine (lit "@{") 4), info.
    repeat split; try (vm_compute; reflexivity); vm_compute; tauto. }
  do 3 (split; [vm_compute; reflexivity|]). vm_compute. discriminate.
Qed.

(** ** Leading white space of the output *)

Lemma takeWhile_app_stop (f : N -> bool) (a s : jstring) :
  forallb f a = true ->
  match s with [] => True | c :: _ => f c = false end ->
  takeWhile f (a ++ s) = a.
Proof.
  intros Ha Hs. induction a as [|c a IH]; simpl in *.
  - destruct s as [|c s]; [done|]. simpl. by rewrite Hs.
  - apply andb_prop in Ha as [Hc Ha]. rewrite Hc. by rewrite IH.
Qed.

Lemma makeIndentedLine_leading (r : jstring) (w : Z) :
  match r with [] => True | c :: _ => isSpace c = false end ->
  takeWhile isSpace (makeIndentedLine r w) = spaces w.
Proof.
  intros Hr. unfold makeIndentedLine. destruct (Z.leb_spec w 0).
  - unfold spaces. replace (Z.to_nat w) with 0%nat by lia. simpl.
    rewrite <- (app_nil_l r). by apply takeWhile_app_stop.
  - apply takeWhile_app_stop; [apply forallb_spaces | done].
Qed.

Lemma formatRawLineContent_head (r : jstring) :
  match r with [] => True | c :: _ => isSpace c = false end ->
  match formatRawLineContent r with [] => True | c :: _ => isSpace c = false end.
Proof.
  intros Hr. unfold formatRawLineContent.
  by destruct (matchSwitchHeader (trimStart r)).
Qed.

Lemma makeRazorTextIndentedLine_leading (r : jstring) (w c : Z) :
  match r with [] => True | d :: _ => isSpace d = false end ->
  takeWhile isSpace (makeRazorTextIndentedLine r w c) = spaces w.
Proof.
  intros Hr. unfold makeRazorTextIndentedLine.
  destruct (matchRazorText r) as [content|]; [|by apply makeIndentedLine_leading].
  assert (Hi : forall t : jstring,
    takeWhile isSpace ((if 0 <? w then spaces w else []) ++ lit "@:" ++ t) = spaces w).
  { intros t. destruct (Z.ltb_spec 0 w).
    - apply takeWhile_app_stop; [apply forallb_spaces | done].
    - unfold spaces. replace (Z.to_nat w) with 0%nat by lia. done. }
  destruct (isEmpty content).
  - rewrite <- (app_nil_r (lit "@:")). apply Hi.
  - apply (Hi ([ch_space] ++ spaces c ++ trimStart content)).
Qed.

(** The leading white space of a rendered line is the computed width in
    spaces, for every line in which no line terminator follows the leading
    white space (the lines [analyzeLine] takes apart). *)
Lemma renderLine_leading (arr : Arrays) (lines : list jstring) (u : Z) (i : nat)
    (line : jstring) :
  lines !! i = Some line ->
  noLineTerminator (dropWhile isSpace line) = true ->
  takeWhile isSpace (renderLine arr (List.map (fun l => analyzeLine l u) lines) i line)
  = spaces (indentAt (indents arr) i 0).
Proof.
  intros Hi Hlt. unfold renderLine.
  change (List.map (fun l => analyzeLine l u) lines) with ((fun l => analyzeLine l u) <$> lines).
  rewrite list_lookup_fmap, Hi. simpl.
  assert (Hr : rest (analyzeLine line u) = dropWhile isSpace line).
  { unfold analyzeLine, matchLeadingRest. by rewrite Hlt. }
  assert (Hh : match rest (analyzeLine line u) with
               | [] => True
               | c :: _ => isSpace c = false
               end).
  { rewrite Hr. destruct (dropWhile isSpace line) as [|c r] eqn:E; [done|].
    by apply dropWhile_head in E. }
  destruct (default false (indentAfterRazorPrefix arr !! i)).
  - rewrite andb_false_r. by apply makeRazorTextIndentedLine_leading.
  - rewrite andb_true_r. destruct (isRawLine (rawLineMeta arr) i).
    + by apply makeIndentedLine_leading, formatRawLineContent_head.
    + by apply makeIndentedLine_leading.
Qed.

(** C10 (failing input).  The line of the block of [strayTerminatorDoc] is
    a tab, [x], a line separator and [y].  [analyzeLine] does not take it
    apart: it reports no leading white space and keeps the whole line as
    content.  The line is given width 4 and rendered as four spaces before
    the untouched line, so the tab survives and the leading white space of
    the output line is not the four spaces of the computed width. *)
Theorem stray_terminator_keeps_tab :
  let t := trace strayTerminatorDoc (opts 4) in
  let line := strayTerminatorLine in
  error (formatText strayTerminatorDoc (opts 4)) = None
  /\ trLines t !! 1%nat = Some line
  /\ trLineInfos t !! 1%nat
     = Some {| original := line; leading := []; rest := line; leadingWidth := 0 |}
  /\ indents (trArrays t) !! 1%nat = Some (Some 4)
  /\ trSpacedLines t !! 1%nat = Some (spaces 4 ++ line)
  /\ takeWhile isSpace (spaces 4 ++ line) = spaces 4 ++ [ch_tab]
  /\ takeWhile isSpace (spaces 4 ++ line) <> spaces 4.
Proof. vm_compute. repeat split; discriminate. Qed.

(** C4 (failing input).  [strayTerminatorDoc] is one [<text>] block, closed
    by its tag, and it passes validation; yet formatting is not idempotent
    on it: every pass puts four more spaces in front of the line of the
    block. *)
Theorem stray_terminator_not_idempotent :
  let first := formatText strayTerminatorDoc (opts 4) in
  let second := formatText (output first) (opts 4) in
  trTextBlocks (trace strayTerminatorDoc (opts 4))
  = [{| startLine := 1; endLine := 1; parentLevel := 0; tagName := lit "text";
        skip := false |}]
  /\ error first = None /\ error second = None
  /\ output first
     = lit "<text>" ++ [ch_lf] ++ spaces 4 ++ strayTerminatorLine ++ [ch_lf]
       ++ lit "</text>"
  /\ output second
     = lit "<text>" ++ [ch_lf] ++ spaces 8 ++ strayTerminatorLine ++ [ch_lf]
       ++ lit "</text>"
  /\ output second <> output first.
Proof. vm_compute. repeat split; discriminate. Qed.

(** The same happens to the line outside a block. *)
Example stray_terminator_in_tag :
  let first := formatText strayTerminatorInTag (opts 4) in
  let second := formatText (output first) (opts 4) in
  output first
  = lit "<div>" ++ [ch_lf] ++ spaces 4 ++ strayTerminatorLine ++ [ch_lf] ++ lit "</div>"
  /\ output second
     = lit "<div>" ++ [ch_lf] ++ spaces 8 ++ strayTerminatorLine ++ [ch_lf]
       ++ lit "</div>".
Proof. vm_compute. split; reflexivity. Qed.

(** The formatter is idempotent on the documents of the test suite. *)
Example idempotent_on_text_block :
  let input := doc ["<div>"; "  <text>"; "        <span>Inner</span>"; "    Text line";
                    "  </text>"; "</div>"]%string in
  let first := formatText input (opts 2) in
  output (formatText (output first) (opts 2)) = output first.
Proof. vm_compute. reflexivity. Qed.

Example idempotent_on_switch_script :
  let first := formatText switchScriptDoc (opts 4) in
  output (formatText (output first) (opts 4)) = output first.
Proof. vm_compute. reflexivity. Qed.

(** ** Examples of the test suite *)

Example test_line_count_and_content :
  output (formatText (doc ["<div>"; "  <span>Test</span>"; "</div>"]%string) (opts 4))
  = doc ["<div>"; "    <span>Test</span>"; "</div>"]%string.
Proof. vm_compute. reflexivity. Qed.

Example test_text_js_indentation :
  output (formatText
            (doc ["<text>"; "    function test() {"; "console.log('test');"; "}";
                  "</text>"]%string) (opts 4))
  = doc ["<text>"; "    function test() {"; "        console.log('test');"; "    }";
         "</text>"]%string.
Proof. vm_compute. reflexivity. Qed.

Example test_switch_outside_raw_blocks :
  let input := doc ["switch(foo) {"; "    case '1':"; "        if(bar) {";
                    "            zoo = 'zoo';"; "        }"; "        break;"; "}"]%string in
  output (formatText input (opts 4)) = input.
Proof. vm_compute. reflexivity. Qed.

Example test_script_block_with_switch :
  output (formatText switchScriptDoc (opts 4))
  = doc ["<script>"; "switch (mode) {"; "    case 'A':"; "        console.log('mode A');";
         "        break;"; ""; "    case 'B':"; "        console.log('mode B');";
         "        break;"; ""; "    default:"; "        console.log('default');";
         "        break;"; "}"; "</script>"]%string.
Proof. vm_compute. reflexivity. Qed.

Example test_script_block_razor_code :
  output (formatText razorCodeBlockDoc (opts 4))
  = doc ["<script>"; "@{"; "    var count = 3;"; "    var isEnabled = true;"; "}";
         "</script>"]%string.
Proof. vm_compute. reflexivity. Qed.

Example test_switch_in_razor_text_lines :
  output (formatText
            (doc ["<script>"; "@{"; "var mode = 'A';"; "}"; ""; "@: switch ('@mode')";
                  "@:"; "@: {"; "@: case 'A':"; "@: console.log('mode A');"; "@: break;";
                  "@:   case 'B':"; "@: console.log('mode B');"; "@: break;";
                  "@:default:"; "@:  console.log('default');"; "@:break;"; "@: }";
                  "</script>"]%string) (opts 4))
  = doc ["<script>"; "@{"; "    var mode = 'A';"; "}"; ""; "@: switch ('@mode')"; "@:";
         "@: {"; "@:     case 'A':"; "@:         console.log('mode A');";
         "@:         break;"; "@:"; "@:     case 'B':";
         "@:         console.log('mode B');"; "@:         break;"; "@:";
         "@:     default:"; "@:         console.log('default');"; "@:         break;";
         "@: }"; "</script>"]%string.
Proof. vm_compute. reflexivity. Qed.

Example test_mixed_directives_preserved :
  output (formatText mixedDirectiveDoc (opts 4))
  = doc ["<div>"; "    <script>"; "  var a = 1;"; "    @if (x) {"; " foo();"; "    }";
         "    </script>"; "</div>"]%string.
Proof. vm_compute. reflexivity. Qed.

(* ================================================================== *)
(** * Properties of the helper functions *)

(** ** The indent size *)

(** X1.  [sanitizeIndentSize] returns [2] for NaN, for the infinities and
    for a finite value that is not positive, and the integer part of any
    other value: the integer [n] with [n <= value < n + 1].  So the size is
    never negative, and it is [0] exactly for the finite values strictly
    between 0 and 1. *)
Theorem sanitizeIndentSize_range (value : JsNumber) :
  match value with
  | NaN | Infinity _ => sanitizeIndentSize value = 2
  | Finite q =>
      ((q <= 0)%Q -> sanitizeIndentSize value = 2)
      /\ ((0 < q)%Q ->
          sanitizeIndentSize value = Qfloor q
          /\ (inject_Z (sanitizeIndentSize value) <= q)%Q
          /\ (q < inject_Z (sanitizeIndentSize value + 1))%Q)
  end
  /\ 0 <= sanitizeIndentSize value
  /\ (sanitizeIndentSize value = 0
      <-> exists q : Q, value = Finite q /\ (0 < q)%Q /\ (q < 1)%Q).
Proof.
  destruct value as [| negative | q]; cbn [sanitizeIndentSize].
  - split; [done|]. split; [lia|]. split; [lia|]. by intros (q & ? & _).
  - split; [done|]. split; [lia|]. split; [lia|]. by intros (q & ? & _).
  - destruct (Qle_bool q 0) eqn:E.
    + apply Qle_bool_iff in E. split; [|split; [lia|split; [lia|]]].
      * split; [done|]. intros H. exfalso. by apply (Qlt_not_le 0 q).
      * intros (q' & [= <-] & H & _). exfalso. by apply (Qlt_not_le 0 q).
    + assert (Hpos : (0 < q)%Q).
      { apply Qnot_le_lt. intros H. apply Qle_bool_iff in H. congruence. }
      assert (H0 : 0 <= Qfloor q).
      { change 0 with (Qfloor (inject_Z 0)) at 1. apply Qfloor_resp_le.
        by apply Qlt_le_weak. }
      split; [|split; [done|split]].
      * split; [intros H; exfalso; by apply (Qlt_not_le 0 q)|].
        intros _. split; [done|]. split; [apply Qfloor_le | apply Qlt_floor].
      * intros Hz. exists q. split; [done|]. split; [done|].
        pose proof (Qlt_floor q) as Hlt. rewrite Hz in Hlt. exact Hlt.
      * intros (q' & [= <-] & _ & H1).
        assert (Qfloor q < 1); [|lia].
        apply Z.lt_nge. intros Hge.
        apply (Qlt_not_le q 1 H1).
        apply Qle_trans with (inject_Z (Qfloor q)); [|apply Qfloor_le].
        change 1%Q with (inject_Z 1). by rewrite <- Zle_Qle.
Qed.

(** Half a column becomes no indentation at all, and an infinite size the
    default. *)
Example sanitizeIndentSize_values :
  sanitizeIndentSize (Finite (1 # 2)) = 0
  /\ sanitizeIndentSize (Finite (47 # 10)) = 4
  /\ sanitizeIndentSize (Finite (- 3 # 1)) = 2
  /\ sanitizeIndentSize (Infinity false) = 2
  /\ sanitizeIndentSize NaN = 2.
Proof. vm_compute. done. Qed.

(** ** Lines *)

Lemma consHead_nonempty (c : N) (ls : list jstring) : consHead c ls <> [].
Proof. by destruct ls. Qed.

Lemma join_cons (sep l : jstring) (ls : list jstring) :
  ls <> [] -> join sep (l :: ls) = l ++ sep ++ join sep ls.
Proof. by destruct ls. Qed.

Lemma join_consHead (sep : jstring) (c : N) (ls : list jstring) :
  ls <> [] -> join sep (consHead c ls) = c :: join sep ls.
Proof. destruct ls as [|l [|l2 ls]]; done. Qed.

Lemma length_consHead (c : N) (ls : list jstring) :
  ls <> [] -> length (consHead c ls) = length ls.
Proof. by destruct ls. Qed.

Lemma startsWith_cons1 (s : jstring) (d : N) :
  startsWith s [d] = match s with c :: _ => (d =? c)%N | [] => false end.
Proof.
  unfold startsWith. destruct s as [|c s]; simpl; [done|]. by destruct (d =? c)%N.
Qed.

Lemma splitOnNewlines_crlf (s : jstring) :
  splitOnNewlines (ch_cr :: ch_lf :: s) = [] :: splitOnNewlines s.
Proof. reflexivity. Qed.

Lemma Forall_consHead (P : jstring -> Prop) (c : N) (ls : list jstring) :
  (forall l : jstring, P l -> P (c :: l)) -> P [c] ->
  Forall P ls -> Forall P (consHead c ls).
Proof.
  intros Hc H1 H. destruct ls as [|l ls]; simpl.
  - by constructor.
  - inversion H; subst. constructor; [by apply Hc | done].
Qed.

(** X2.  [splitLines] cuts the input at every line feed: the number of lines
    is the number of line feeds plus one (so the empty input is one empty
    line), no line holds a line feed, and the line ending it reports is
    [\r\n] when the input holds one and [\n] otherwise. *)
Theorem splitLines_lines (input : jstring) :
  length (fst (splitLines input)) = S (countLf input)
  /\ Forall (fun line => noLf line = true) (fst (splitLines input))
  /\ snd (splitLines input) = (if includes input CRLF then CRLF else [ch_lf]).
Proof.
  unfold splitLines. simpl. split; [|split; [|done]].
  - induction input as [|c s IH]; simpl; [done|].
    destruct (c =? ch_lf)%N eqn:E; simpl; [by rewrite IH|].
    destruct ((c =? ch_cr)%N && startsWith s [ch_lf]); [done|].
    rewrite length_consHead; [done | apply splitOnNewlines_nonempty].
  - induction input as [|c s IH]; simpl; [by constructor|].
    destruct (c =? ch_lf)%N eqn:E; [by constructor|].
    destruct ((c =? ch_cr)%N && startsWith s [ch_lf]); [done|].
    apply Forall_consHead; [| |done].
    + intros l Hl. unfold noLf. simpl. by rewrite E.
    + unfold noLf. simpl. by rewrite E.
Qed.

Lemma startsWith_cons (s p : jstring) (c d : N) :
  startsWith (c :: s) (d :: p) = (d =? c)%N && startsWith s p.
Proof. unfold startsWith. simpl. by destruct (d =? c)%N. Qed.

Lemma includes_cons_crlf (c : N) (s : jstring) :
  includes (c :: s) CRLF = ((c =? ch_cr)%N && startsWith s [ch_lf]) || includes s CRLF.
Proof.
  change (includes (c :: s) CRLF) with (startsWith (c :: s) CRLF || includes s CRLF).
  unfold CRLF. by rewrite startsWith_cons, (N.eqb_sym ch_cr c).
Qed.

Lemma join_split_lf (s : jstring) :
  includes s CRLF = false -> join [ch_lf] (splitOnNewlines s) = s.
Proof.
  induction s as [|c s IH]; [done|].
  rewrite includes_cons_crlf. intros H. apply orb_false_elim in H as [H1 H2].
  simpl. destruct (N.eqb_spec c ch_lf) as [->|Hne].
  - rewrite join_cons by apply splitOnNewlines_nonempty. simpl. by rewrite IH.
  - rewrite H1. rewrite join_consHead by apply splitOnNewlines_nonempty.
    by rewrite IH.
Qed.

Lemma everyLfAfterCr_weaken (s : jstring) :
  startsWith s [ch_lf] = false -> everyLfAfterCr true s = everyLfAfterCr false s.
Proof.
  rewrite startsWith_cons1. destruct s as [|c s]; [done|].
  intros H. rewrite N.eqb_sym in H. cbn [everyLfAfterCr]. by rewrite H.
Qed.

Lemma join_split_crlf (n : nat) (s : jstring) :
  (length s <= n)%nat ->
  everyLfAfterCr false s = true -> join CRLF (splitOnNewlines s) = s.
Proof.
  revert s; induction n as [|n IH]; intros s Hn H.
  - destruct s; [done | simpl in Hn; lia].
  - destruct s as [|c s]; [done|]. simpl in Hn.
    simpl in H. apply andb_prop in H as [Hc Hs].
    rewrite orb_false_r in Hc. apply negb_true_iff in Hc.
    simpl. rewrite Hc.
    destruct (N.eqb_spec c ch_cr) as [->|Hne]; simpl.
    + destruct (startsWith s [ch_lf]) eqn:Es.
      * rewrite startsWith_cons1 in Es. destruct s as [|d s]; [done|].
        apply N.eqb_eq in Es. subst d.
        change (splitOnNewlines (ch_lf :: s)) with ([] :: splitOnNewlines s).
        rewrite join_cons by apply splitOnNewlines_nonempty.
        simpl in Hs. simpl in Hn.
        change (ch_lf =? ch_cr)%N with false in Hs.
        simpl. rewrite IH; [done | lia | done].
      * rewrite join_consHead by apply splitOnNewlines_nonempty.
        rewrite IH; [done | lia |]. by rewrite <- everyLfAfterCr_weaken.
    + rewrite join_consHead by apply splitOnNewlines_nonempty.
      rewrite IH; [done | lia | done].
Qed.

(** X3.  Joining the lines of [splitLines] with the line ending it reports
    gives the input back, provided the line breaks of the input are all of
    one kind. *)
Theorem splitLines_join (input : jstring) :
  uniformLineEndings input = true ->
  join (snd (splitLines input)) (fst (splitLines input)) = input.
Proof.
  unfold uniformLineEndings, splitLines. simpl.
  destruct (includes input CRLF) eqn:E; simpl.
  - intros H. by apply (join_split_crlf (length input)).
  - intros _. by apply join_split_lf.
Qed.

Lemma splitLines_join_witness :
  uniformLineEndings (lit "a" ++ CRLF ++ lit " b" ++ CRLF) = true
  /\ join (snd (splitLines (lit "a" ++ CRLF ++ lit " b" ++ CRLF)))
       (fst (splitLines (lit "a" ++ CRLF ++ lit " b" ++ CRLF)))
     = lit "a" ++ CRLF ++ lit " b" ++ CRLF.
Proof.
  split; [reflexivity|].
  apply (splitLines_join (lit "a" ++ CRLF ++ lit " b" ++ CRLF)). reflexivity.
Defined.

Lemma splitOnNewlines_line (l rest : jstring) :
  noLineBreak l = true ->
  splitOnNewlines (l ++ ch_lf :: rest) = l :: splitOnNewlines rest
  /\ splitOnNewlines (l ++ ch_cr :: ch_lf :: rest) = l :: splitOnNewlines rest
  /\ splitOnNewlines l = [l].
Proof.
  induction l as [|c l IH]; intros H; [done|].
  simpl in H. apply andb_prop in H as [Hc Hl].
  apply andb_prop in Hc as [Hlf Hcr].
  apply negb_true_iff in Hlf, Hcr.
  destruct (IH Hl) as (E1 & E2 & E3).
  simpl. rewrite Hlf, Hcr. simpl. by rewrite E1, E2, E3.
Qed.

Lemma splitOnNewlines_join (le : jstring) (lines : list jstring) :
  le = [ch_lf] \/ le = CRLF ->
  lines <> [] ->
  Forall (fun l => noLineBreak l = true) lines ->
  splitOnNewlines (join le lines) = lines.
Proof.
  intros Hle Hne H. induction H as [|l ls Hl Hls IH]; [done|].
  destruct ls as [|l2 ls].
  - simpl. by apply splitOnNewlines_line.
  - rewrite join_cons by done.
    destruct (splitOnNewlines_line l (join le (l2 :: ls)) Hl) as (E1 & E2 & _).
    destruct Hle as [-> | ->].
    + change (l ++ [ch_lf] ++ join [ch_lf] (l2 :: ls))
        with (l ++ ch_lf :: join [ch_lf] (l2 :: ls)).
      rewrite E1, IH; done.
    + change (l ++ CRLF ++ join CRLF (l2 :: ls))
        with (l ++ ch_cr :: ch_lf :: join CRLF (l2 :: ls)).
      rewrite E2, IH; done.
Qed.

Lemma includes_app_crlf (l s : jstring) :
  noLineBreak l = true -> includes (l ++ s) CRLF = includes s CRLF.
Proof.
  induction l as [|c l IH]; intros H; [done|].
  simpl in H. apply andb_prop in H as [Hc Hl]. apply andb_prop in Hc as [_ Hcr].
  apply negb_true_iff in Hcr.
  change ((c :: l) ++ s) with (c :: (l ++ s)).
  rewrite includes_cons_crlf, Hcr. simpl. by apply IH.
Qed.

Lemma includes_join_lf (lines : list jstring) :
  Forall (fun l => noLineBreak l = true) lines ->
  includes (join [ch_lf] lines) CRLF = false.
Proof.
  intros H. induction H as [|l ls Hl Hls IH]; [done|].
  destruct ls as [|l2 ls].
  - simpl. rewrite <- (app_nil_r l). by rewrite includes_app_crlf.
  - rewrite join_cons by done. rewrite includes_app_crlf by done.
    change ([ch_lf] ++ join [ch_lf] (l2 :: ls)) with (ch_lf :: join [ch_lf] (l2 :: ls)).
    by rewrite includes_cons_crlf.
Qed.

Lemma includes_join_crlf (l l2 : jstring) (ls : list jstring) :
  noLineBreak l = true ->
  includes (join CRLF (l :: l2 :: ls)) CRLF = true.
Proof.
  intros Hl. rewrite join_cons by done. rewrite includes_app_crlf by done. done.
Qed.

Lemma splitLines_of_join_eq (le : jstring) (lines : list jstring) :
  le = [ch_lf] \/ le = CRLF ->
  (2 <= length lines)%nat ->
  Forall (fun l => noLineBreak l = true) lines ->
  splitLines (join le lines) = (lines, le).
Proof.
  intros Hle Hlen H. unfold splitLines.
  rewrite splitOnNewlines_join;
    [|done | destruct lines; [simpl in Hlen; lia | done] | done].
  f_equal. destruct Hle as [-> | ->].
  - by rewrite includes_join_lf.
  - destruct lines as [|l [|l2 ls]]; simpl in Hlen; [lia | lia |].
    inversion H; subst. by rewrite includes_join_crlf.
Qed.

(** X4.  [splitLines] undoes a join: lines that hold neither a line feed nor
    a carriage return, joined with [\n] or with [\r\n], are split into the
    same lines, and the line ending reported is the one used (for two lines
    or more; a single line is returned as the only line). *)
Theorem splitLines_of_join (le : jstring) (lines : list jstring) :
  le = [ch_lf] \/ le = CRLF ->
  lines <> [] ->
  Forall (fun l => noLineBreak l = true) lines ->
  fst (splitLines (join le lines)) = lines
  /\ ((2 <= length lines)%nat -> snd (splitLines (join le lines)) = le).
Proof.
  intros Hle Hne H. split.
  - by apply splitOnNewlines_join.
  - intros Hlen. by rewrite splitLines_of_join_eq.
Qed.

Lemma splitLines_of_join_witness :
  fst (splitLines (join CRLF [lit "a"; lit " b"; []])) = [lit "a"; lit " b"; []]
  /\ ((2 <= length [lit "a"; lit " b"; @nil N])%nat ->
      snd (splitLines (join CRLF [lit "a"; lit " b"; []])) = CRLF).
Proof.
  apply (splitLines_of_join CRLF [lit "a"; lit " b"; []]).
  - by right.
  - discriminate.
  - repeat constructor.
Defined.

(** ** The line model *)

Lemma countTabs_le (s : jstring) : (countTabs s <= length s)%nat.
Proof.
  induction s as [|c s IH]; simpl; [done|]. destruct (c =? ch_tab)%N; lia.
Qed.

Lemma countIndentWidth_formula (leading : jstring) (indentSize : Z) :
  countIndentWidth leading indentSize
  = indentSize * Z.of_nat (countTabs leading)
    + (Z.of_nat (length leading) - Z.of_nat (countTabs leading)).
Proof.
  induction leading as [|c s IH]; simpl countIndentWidth; [simpl; lia|].
  rewrite IH. cbn [countTabs length].
  destruct (c =? ch_tab)%N eqn:E.
  - lia.
  - destruct (c =? ch_space)%N; lia.
Qed.

Lemma countTabs_spaces (w : Z) : countTabs (spaces w) = 0%nat.
Proof. unfold spaces. induction (Z.to_nat w) as [|k IH]; simpl; [done|]. exact IH. Qed.

Lemma countIndentWidth_spaces (w u : Z) : 0 <= w -> countIndentWidth (spaces w) u = w.
Proof.
  intros H. rewrite countIndentWidth_formula, countTabs_spaces, length_spaces. lia.
Qed.

Lemma countIndentWidth_nonneg (s : jstring) (u : Z) : 0 <= u -> 0 <= countIndentWidth s u.
Proof.
  intros H. rewrite countIndentWidth_formula. pose proof (countTabs_le s). nia.
Qed.



Lemma trimStart_head (r : jstring) :
  trimStart r = r -> match r with [] => True | c :: _ => isSpace c = false end.
Proof.
  intros H. destruct r as [|c r]; [done|]. by apply (dropWhile_head isSpace (c :: r) c r).
Qed.

(** X6.  [analyzeLine] never loses a code unit: the leading part and the
    rest make up the line, and the leading part is white space only.  On a
    line in which no line terminator follows the leading white space the
    rest starts with a unit that is not white space; on any other line the
    expression does not match and the whole line is the rest, with width
    0. *)
Theorem analyzeLine_parts (line : jstring) (indentSize : Z) :
  original (analyzeLine line indentSize) = line
  /\ leading (analyzeLine line indentSize) ++ rest (analyzeLine line indentSize) = line
  /\ forallb isSpace (leading (analyzeLine line indentSize)) = true
  /\ (if regularLine line
      then rest (analyzeLine line indentSize) = trimStart line
           /\ leadingWidth (analyzeLine line indentSize)
              = countIndentWidth (takeWhile isSpace line) indentSize
      else rest (analyzeLine line indentSize) = line
           /\ leadingWidth (analyzeLine line indentSize) = 0).
Proof.
  unfold analyzeLine, matchLeadingRest, regularLine.
  destruct (noLineTerminator (dropWhile isSpace line)); simpl.
  - split; [done|]. split; [apply takeWhile_dropWhile|].
    split; [apply takeWhile_forallb | done].
  - done.
Qed.

(** X7.  Analysing a rendered line gives back what it was rendered from:
    for a text [rest] that does not start with white space and holds no line
    terminator and a width that is not negative, [analyzeLine] of
    [makeIndentedLine rest width] has that rest and that width. *)
Theorem analyzeLine_makeIndentedLine (r : jstring) (width indentSize : Z) :
  trimStart r = r -> noLineTerminator r = true -> 0 <= width ->
  analyzeLine (makeIndentedLine r width) indentSize
  = {| original := makeIndentedLine r width; leading := spaces width; rest := r;
       leadingWidth := width |}.
Proof.
  intros Ht Hlt Hw. unfold analyzeLine, matchLeadingRest.
  rewrite makeIndentedLine_strip. unfold trimStart in Ht. rewrite Ht, Hlt.
  rewrite makeIndentedLine_leading by (by apply trimStart_head).
  by rewrite countIndentWidth_spaces.
Qed.

Lemma analyzeLine_makeIndentedLine_witness :
  analyzeLine (makeIndentedLine (lit "<div>") 8) 4
  = {| original := makeIndentedLine (lit "<div>") 8; leading := spaces 8;
       rest := lit "<div>"; leadingWidth := 8 |}.
Proof.
  apply (analyzeLine_makeIndentedLine (lit "<div>") 8 4); [reflexivity | reflexivity | lia].
Defined.

(** ** HTML comments *)

Lemma stripHtmlComments_go_sublist (line : jstring) (k : nat) (c : bool) :
  sublist (fst (stripHtmlComments_go line k c)) line.
Proof.
  revert k c; induction line as [|x line IH]; intros k c; simpl; [constructor|].
  destruct k as [|k]; [|by apply sublist_cons].
  destruct c.
  - destruct (startsWith (x :: line) HTML_COMMENT_CLOSE); by apply sublist_cons.
  - destruct (startsWith (x :: line) HTML_COMMENT_OPEN); [by apply sublist_cons|].
    simpl. by apply sublist_skip.
Qed.

Lemma includes_cons (c : N) (s p : jstring) :
  includes (c :: s) p = startsWith (c :: s) p || includes s p.
Proof. reflexivity. Qed.

Lemma stripHtmlComments_outside (line : jstring) :
  includes line HTML_COMMENT_OPEN = false ->
  stripHtmlComments line false = (line, false).
Proof.
  unfold stripHtmlComments. induction line as [|c line IH]; [done|].
  rewrite includes_cons. intros H. apply orb_false_elim in H as [H1 H2].
  cbn [stripHtmlComments_go]. rewrite H1, (IH H2). done.
Qed.

Lemma stripHtmlComments_inside (line : jstring) :
  includes line HTML_COMMENT_CLOSE = false ->
  stripHtmlComments line true = ([], true).
Proof.
  unfold stripHtmlComments. induction line as [|c line IH]; [done|].
  rewrite includes_cons. intros H. apply orb_false_elim in H as [H1 H2].
  cbn [stripHtmlComments_go]. rewrite H1. by apply IH.
Qed.

(** X8.  [stripHtmlComments] only removes code units: the cleaned text is a
    subsequence of the line, in the same order.  A line without the marker
    [<!--], read outside a comment, is returned as it is and leaves the scan
    outside a comment; a line without the marker [-->], read inside a
    comment, is removed whole and leaves the scan inside the comment. *)
Theorem stripHtmlComments_edges (line : jstring) (inComment : bool) :
  sublist (fst (stripHtmlComments line inComment)) line
  /\ (includes line HTML_COMMENT_OPEN = false ->
      stripHtmlComments line false = (line, false))
  /\ (includes line HTML_COMMENT_CLOSE = false ->
      stripHtmlComments line true = ([], true)).
Proof.
  split; [apply stripHtmlComments_go_sublist|].
  split; [apply stripHtmlComments_outside | apply stripHtmlComments_inside].
Qed.

Example stripHtmlComments_one_comment :
  stripHtmlComments (lit "<a> <!-- <b> --> <c> <!-- <d>") false
  = (lit "<a>  <c> ", true).
Proof. reflexivity. Qed.

Lemma space_not_lt (w : N) : isSpace w = true -> (ch_lt =? w)%N = false.
Proof. intros H. destruct (N.eqb_spec ch_lt w) as [<-|]; [done | done]. Qed.

Lemma space_not_minus (w : N) : isSpace w = true -> (ch_minus =? w)%N = false.
Proof. intros H. destruct (N.eqb_spec ch_minus w) as [<-|]; [done | done]. Qed.

(** Leading white space is outside every marker. *)
Lemma stripHtmlComments_leading (ws s : jstring) (c : bool) :
  forallb isSpace ws = true ->
  stripHtmlComments (ws ++ s) c
  = if c then stripHtmlComments s true
    else (ws ++ fst (stripHtmlComments s false), snd (stripHtmlComments s false)).
Proof.
  unfold stripHtmlComments. induction ws as [|w ws IH]; intros H.
  - destruct c; [done|]. simpl. by destruct (stripHtmlComments_go s 0 false).
  - simpl in H. apply andb_prop in H as [Hw Hws]. specialize (IH Hws).
    change ((w :: ws) ++ s) with (w :: (ws ++ s)).
    assert (Hc : startsWith (w :: ws ++ s) HTML_COMMENT_CLOSE = false).
    { unfold HTML_COMMENT_CLOSE. change (lit "-->") with (ch_minus :: lit "->").
      by rewrite startsWith_cons, (space_not_minus w Hw). }
    assert (Ho : startsWith (w :: ws ++ s) HTML_COMMENT_OPEN = false).
    { unfold HTML_COMMENT_OPEN. change (lit "<!--") with (ch_lt :: lit "!--").
      by rewrite startsWith_cons, (space_not_lt w Hw). }
    destruct c; cbn [stripHtmlComments_go].
    + by rewrite Hc, IH.
    + by rewrite Ho, IH.
Qed.

(** ** Tags *)

Lemma tagNameChar_lower (c : N) :
  isTagNameChar c = true ->
  isTagNameChar (toLowerChar c) && negb (isUpper (toLowerChar c)) = true.
Proof.
  unfold isTagNameChar, toLowerChar, isUpper, isLower, isDigit, ch_colon, ch_minus.
  intros H.
  destruct (N.leb_spec 65 c), (N.leb_spec c 90); simpl in *; range_cases.
Qed.

Lemma isLowerTagName_toLowerCase (nm : jstring) :
  isEmpty nm = false -> forallb isTagNameChar nm = true ->
  isLowerTagName (toLowerCase nm) = true.
Proof.
  intros Hne H. unfold isLowerTagName. apply andb_true_intro. split.
  - by destruct nm.
  - clear Hne. induction nm as [|c nm IH]; [done|].
    simpl in H. apply andb_prop in H as [Hc Hnm].
    cbn [toLowerCase List.map forallb]. rewrite (tagNameChar_lower c Hc). by apply IH.
Qed.

Lemma tagOfRaw_name (raw : jstring) (t : Tag) :
  tagOfRaw raw = Some t ->
  isLowerTagName (name t) = true
  /\ (setHas VOID_TAGS (name t) = true -> isSelfClosing t = true).
Proof.
  unfold tagOfRaw.
  destruct (startsWith raw (lit "<!") || startsWith raw (lit "<?")
            || startsWith raw (lit "<%")); [done|].
  destruct raw as [|c body]; [done|].
  set (b1 := trimStart body).
  set (b2 := if startsWith b1 [ch_slash] then trimStart (tl b1) else b1).
  destruct (isEmpty (takeWhile isTagNameChar b2)) eqn:E; [done|].
  intros [= <-]. simpl. split.
  - apply isLowerTagName_toLowerCase; [done | apply takeWhile_forallb].
  - intros ->. apply orb_true_r.
Qed.

Lemma extractTags_go_names (line : jstring) (k : nat) :
  Forall (fun t => isLowerTagName (name t) = true
                   /\ (setHas VOID_TAGS (name t) = true -> isSelfClosing t = true))
    (extractTags_go line k).
Proof.
  revert k; induction line as [|c line IH]; intros k; simpl; [constructor|].
  destruct k as [|k]; [|apply IH].
  destruct (c =? ch_lt)%N; [|apply IH].
  destruct (isEmpty _ || isEmpty _); [apply IH|].
  destruct (tagOfRaw _) as [t|] eqn:E; [|apply IH].
  constructor; [by eapply tagOfRaw_name | apply IH].
Qed.

(** X9.  Every tag [extractTags] reports has a name that is not empty, is
    made of letters, digits, [:] and [-] and is in lower case; a tag whose
    name is a void element is reported as self-closing. *)
Theorem extractTags_names (line : jstring) :
  Forall (fun t => isLowerTagName (name t) = true
                   /\ (setHas VOID_TAGS (name t) = true -> isSelfClosing t = true))
    (extractTags line).
Proof. apply extractTags_go_names. Qed.

Lemma extractTags_go_leading (ws s : jstring) :
  forallb isSpace ws = true -> extractTags_go (ws ++ s) 0 = extractTags_go s 0.
Proof.
  induction ws as [|w ws IH]; intros H; [done|].
  simpl in H. apply andb_prop in H as [Hw Hws].
  change ((w :: ws) ++ s) with (w :: (ws ++ s)). cbn [extractTags_go].
  rewrite N.eqb_sym, (space_not_lt w Hw). by apply IH.
Qed.

(** ** Closing tags *)

Lemma isSpace_range (c : N) : isSpace c = true -> (c <= 13 \/ c = 32 \/ 160 <= c)%N.
Proof.
  unfold isSpace. intros H.
  rewrite ?orb_true_iff, ?andb_true_iff, ?N.leb_le, ?N.eqb_eq in H. lia.
Qed.

Lemma isTagNameChar_range (c : N) : isTagNameChar c = true -> (45 <= c <= 122)%N.
Proof.
  unfold isTagNameChar, isUpper, isLower, isDigit, ch_colon, ch_minus. intros H.
  rewrite ?orb_true_iff, ?andb_true_iff, ?N.leb_le, ?N.eqb_eq in H. lia.
Qed.

Lemma tagNameChar_not_space (c : N) : isTagNameChar c = true -> isSpace c = false.
Proof.
  intros H. apply isTagNameChar_range in H.
  destruct (isSpace c) eqn:E; [|done]. apply isSpace_range in E. lia.
Qed.

Lemma space_toLowerChar (c : N) : isSpace c = true -> toLowerChar c = c.
Proof.
  intros H. apply isSpace_range in H. unfold toLowerChar.
  destruct (isUpper c) eqn:E; [|done]. unfold isUpper in E.
  rewrite andb_true_iff, !N.leb_le in E. lia.
Qed.

Lemma stripPrefixCI_app (tag s r : jstring) :
  stripPrefixCI tag s = Some r <-> exists nm, s = nm ++ r /\ toLowerCase nm = tag.
Proof.
  revert s; induction tag as [|x tag IH]; intros s; simpl.
  - split.
    + intros [= ->]. by exists [].
    + intros (nm & -> & H). destruct nm; [done | done].
  - destruct s as [|y s].
    + split; [done|]. intros (nm & H & Hl). destruct nm; [done | done].
    + destruct (N.eqb_spec x (toLowerChar y)) as [->|Hne].
      * rewrite IH. split.
        -- intros (nm & -> & <-). by exists (y :: nm).
        -- intros (nm & H & Hl). destruct nm as [|z nm]; [done|].
           injection H as <- ->. injection Hl as Hl. by exists nm.
      * split; [done|]. intros (nm & H & Hl). destruct nm as [|z nm]; [done|].
        injection H as <- ->. injection Hl as Hx _. by subst.
Qed.

Lemma isLowerTagName_head (tag nm : jstring) :
  isLowerTagName tag = true -> toLowerCase nm = tag ->
  match nm with [] => False | c :: _ => isSpace c = false end.
Proof.
  unfold isLowerTagName. intros H <-. destruct nm as [|c nm]; [done|].
  apply andb_prop in H as [_ H]. simpl in H. apply andb_prop in H as [H _].
  apply andb_prop in H as [H _].
  destruct (isSpace c) eqn:E; [|done].
  rewrite (space_toLowerChar c E) in H. apply tagNameChar_not_space in H. congruence.
Qed.

Lemma trimStart_app_stop (ws s : jstring) :
  forallb isSpace ws = true ->
  match s with [] => True | c :: _ => isSpace c = false end ->
  trimStart (ws ++ s) = s.
Proof.
  intros Hws Hs. unfold trimStart. rewrite dropWhile_all by done.
  by apply dropWhile_fixed.
Qed.

Lemma trimStart_split (s : jstring) :
  exists ws, s = ws ++ trimStart s /\ forallb isSpace ws = true.
Proof.
  exists (takeWhile isSpace s). split.
  - unfold trimStart. by rewrite takeWhile_dropWhile.
  - apply takeWhile_forallb.
Qed.

Lemma closingTagAt_spec (tag s : jstring) :
  isLowerTagName tag = true ->
  closingTagAt tag s = true <-> exists t post, s = t ++ post /\ ClosingTagText tag t.
Proof.
  intros Htag. split.
  - unfold closingTagAt. destruct s as [|c s1]; [done|].
    intros H. apply andb_prop in H as [Hc H]. apply N.eqb_eq in Hc. subst c.
    destruct (trimStart_split s1) as (ws1 & E1 & Hws1).
    destruct (trimStart s1) as [|d s2]; [done|].
    apply andb_prop in H as [Hd H]. apply N.eqb_eq in Hd. subst d.
    destruct (trimStart_split s2) as (ws2 & E2 & Hws2).
    destruct (stripPrefixCI tag (trimStart s2)) as [s3|] eqn:E3; [|done].
    apply stripPrefixCI_app in E3 as (nm & E3 & Hnm).
    destruct (trimStart_split s3) as (ws3 & E4 & Hws3).
    rewrite startsWith_cons1 in H.
    destruct (trimStart s3) as [|g post]; [done|].
    apply N.eqb_eq in H. subst g.
    exists ([ch_lt] ++ ws1 ++ [ch_slash] ++ ws2 ++ nm ++ ws3 ++ [ch_gt]), post.
    split.
    + rewrite E1, E2, E3, E4. by repeat (progress (simpl; rewrite <- ?app_assoc)).
    + by exists ws1, ws2, nm, ws3.
  - intros (t & post & -> & ws1 & ws2 & nm & ws3 & -> & Hws1 & Hws2 & Hws3 & Hnm).
    pose proof (isLowerTagName_head tag nm Htag Hnm) as Hhead.
    assert (E : ([ch_lt] ++ ws1 ++ [ch_slash] ++ ws2 ++ nm ++ ws3 ++ [ch_gt]) ++ post
                = ch_lt :: (ws1 ++ ch_slash :: (ws2 ++ (nm ++ (ws3 ++ ch_gt :: post))))).
    { by repeat (progress (simpl; rewrite <- ?app_assoc)). }
    assert (Es : stripPrefixCI tag (nm ++ (ws3 ++ ch_gt :: post))
                 = Some (ws3 ++ ch_gt :: post)).
    { apply stripPrefixCI_app. by exists nm. }
    assert (Hnm' : match nm ++ (ws3 ++ ch_gt :: post) with
                   | [] => True | c :: _ => isSpace c = false end).
    { by destruct nm. }
    rewrite E. unfold closingTagAt. cbv beta iota.
    rewrite N.eqb_refl. cbn [andb].
    rewrite (trimStart_app_stop ws1 (ch_slash :: (ws2 ++ (nm ++ (ws3 ++ ch_gt :: post)))))
      by done.
    cbv beta iota. rewrite N.eqb_refl. cbn [andb].
    rewrite (trimStart_app_stop ws2 (nm ++ (ws3 ++ ch_gt :: post))) by done.
    rewrite Es. by rewrite (trimStart_app_stop ws3 (ch_gt :: post)).
Qed.

Lemma searchClosingTag_spec (tag s : jstring) :
  searchClosingTag tag s = true
  <-> exists pre suf, s = pre ++ suf /\ closingTagAt tag suf = true.
Proof.
  induction s as [|c s IH].
  - simpl. split; [done|]. intros (pre & suf & H & Hc).
    symmetry in H. apply app_eq_nil in H as [-> ->]. done.
  - cbn [searchClosingTag]. rewrite orb_true_iff, IH. split.
    + intros [H | (pre & suf & -> & H)].
      * by exists [], (c :: s).
      * by exists (c :: pre), suf.
    + intros (pre & suf & H & Hc). destruct pre as [|x pre].
      * left. simpl in H. by subst.
      * right. injection H as -> ->. by exists pre, suf.
Qed.

(** X10.  [containsClosingTag] answers no for an empty tag name, and for a
    tag name in lower case it holds exactly of the lines that contain the
    tag's closing form: [<], a slash, the name in any case and [>], with
    optional white space before the slash, before the name and before
    [>]. *)
Theorem containsClosingTag_spec (line tagName : jstring) :
  containsClosingTag line [] = false
  /\ (isLowerTagName tagName = true ->
      (containsClosingTag line tagName = true
       <-> exists pre t post, line = pre ++ t ++ post /\ ClosingTagText tagName t)).
Proof.
  split; [done|]. intros Htag. unfold containsClosingTag.
  assert (Hne : isEmpty tagName = false).
  { unfold isLowerTagName in Htag. apply andb_prop in Htag as [H _].
    by apply negb_true_iff in H. }
  rewrite Hne, searchClosingTag_spec. split.
  - intros (pre & suf & -> & H). apply (closingTagAt_spec _ _ Htag) in H as (t & post & -> & H).
    by exists pre, t, post.
  - intros (pre & t & post & -> & H). exists pre, (t ++ post). split; [done|].
    apply (closingTagAt_spec _ _ Htag). by exists t, post.
Qed.

Lemma searchClosingTag_leading (tag ws s : jstring) :
  forallb isSpace ws = true -> searchClosingTag tag (ws ++ s) = searchClosingTag tag s.
Proof.
  induction ws as [|w ws IH]; intros H; [done|].
  simpl in H. apply andb_prop in H as [Hw Hws].
  change ((w :: ws) ++ s) with (w :: (ws ++ s)). cbn [searchClosingTag].
  rewrite (IH Hws). unfold closingTagAt.
  by rewrite N.eqb_sym, (space_not_lt w Hw).
Qed.

Lemma containsClosingTag_leading (tag ws s : jstring) :
  forallb isSpace ws = true -> containsClosingTag (ws ++ s) tag = containsClosingTag s tag.
Proof.
  intros H. unfold containsClosingTag. destruct (isEmpty tag); [done|].
  by apply searchClosingTag_leading.
Qed.

(** ** Line classification *)

Lemma startsWith_app (s p q : jstring) :
  startsWith s (p ++ q) = true -> startsWith s p = true.
Proof.
  unfold startsWith. revert s; induction p as [|x p IH]; intros s; [done|].
  simpl. destruct s as [|y s]; [done|]. destruct (x =? y)%N; [apply IH | done].
Qed.

Lemma startsWith_two (s : jstring) (a b : N) :
  a <> b -> startsWith s [a] = true -> startsWith s [b] = false.
Proof.
  rewrite !startsWith_cons1. destruct s as [|c s]; [done|].
  intros Hab H. apply N.eqb_eq in H. subst c. by apply N.eqb_neq.
Qed.

Lemma startsWith_tag_exclusive (s tag : jstring) :
  startsWith tag [ch_slash] = false -> tag <> [] ->
  startsWith s (ch_lt :: tag) = true ->
  startsWith s (ch_lt :: ch_slash :: tag) = false.
Proof.
  intros Hs Hne. destruct s as [|c s]; [done|]. rewrite !startsWith_cons.
  destruct (ch_lt =? c)%N; [|done]. simpl.
  destruct tag as [|t tag]; [done|]. destruct s as [|d s]; [done|].
  rewrite !startsWith_cons. rewrite startsWith_cons1 in Hs.
  destruct (N.eqb_spec t d) as [->|]; [|done]. intros _.
  rewrite N.eqb_sym in Hs. by rewrite N.eqb_sym, Hs.
Qed.

Lemma opening_closing_facts (trimmed tagName : jstring) :
  tagName <> [] -> startsWith tagName [ch_slash] = false ->
  (isLineOpeningTag trimmed tagName = true ->
   isLineClosingTag trimmed tagName = false /\ isHtmlLine trimmed = true)
  /\ (isLineClosingTag trimmed tagName = true -> isHtmlLine trimmed = true).
Proof.
  intros Hne Hs. unfold isLineOpeningTag, isLineClosingTag, isHtmlLine.
  set (lower := toLowerCase trimmed).
  set (after := afterRazorTextPrefix lower).
  assert (Hx : startsWith lower [ch_lt] = true -> startsWith lower (lit "@:") = false).
  { intros H. destruct (startsWith lower (lit "@:")) eqn:E; [|done].
    apply (startsWith_app lower [ch_at] [ch_colon]) in E.
    by rewrite (startsWith_two lower ch_lt ch_at) in E. }
  split.
  - destruct (startsWith lower (ch_lt :: tagName)) eqn:E1.
    + intros _. pose proof (startsWith_app lower [ch_lt] tagName E1) as E0.
      rewrite E0, (startsWith_tag_exclusive lower tagName Hs Hne E1), (Hx E0). done.
    + destruct (startsWith lower (lit "@:")) eqn:E2; [|done].
      intros E3. pose proof (startsWith_app after [ch_lt] tagName E3) as E0.
      rewrite E0, (startsWith_tag_exclusive after tagName Hs Hne E3).
      destruct (startsWith lower (ch_lt :: ch_slash :: tagName)) eqn:E4.
      * apply (startsWith_app lower [ch_lt] (ch_slash :: tagName)) in E4.
        pose proof (Hx E4). congruence.
      * split; [done|]. by destruct (startsWith lower [ch_lt]).
  - destruct (startsWith lower (ch_lt :: ch_slash :: tagName)) eqn:E1.
    + intros _. by rewrite (startsWith_app lower [ch_lt] (ch_slash :: tagName) E1).
    + destruct (startsWith lower (lit "@:")) eqn:E2; [|done].
      intros E3. rewrite (startsWith_app after [ch_lt] (ch_slash :: tagName) E3).
      by destruct (startsWith lower [ch_lt]).
Qed.

(** X11.  For a tag name that is not empty and does not start with a slash,
    a line that passes [isLineOpeningTag] does not pass [isLineClosingTag]
    (so the second test of the block openers of [formatText] never decides),
    and a line that passes either of them is an HTML line for
    [isHtmlLine]. *)
Theorem opening_and_closing_lines (trimmed tagName : jstring) :
  tagName <> [] -> startsWith tagName [ch_slash] = false ->
  (isLineOpeningTag trimmed tagName = true ->
   isLineClosingTag trimmed tagName = false /\ isHtmlLine trimmed = true)
  /\ (isLineClosingTag trimmed tagName = true -> isHtmlLine trimmed = true).
Proof. apply opening_closing_facts. Qed.

Lemma opening_and_closing_lines_witness :
  (isLineOpeningTag (lit "@: <Script src='a.js'>") (lit "script") = true ->
   isLineClosingTag (lit "@: <Script src='a.js'>") (lit "script") = false
   /\ isHtmlLine (lit "@: <Script src='a.js'>") = true)
  /\ (isLineClosingTag (lit "@: <Script src='a.js'>") (lit "script") = true ->
      isHtmlLine (lit "@: <Script src='a.js'>") = true).
Proof.
  apply (opening_and_closing_lines (lit "@: <Script src='a.js'>") (lit "script"));
    [discriminate | reflexivity].
Defined.

(** ** Leading closings *)

Lemma length_dropWhile (f : N -> bool) (s : jstring) :
  (length (dropWhile f s) <= length s)%nat.
Proof.
  induction s as [|c s IH]; simpl; [done|]. destruct (f c); simpl; lia.
Qed.

Lemma leadingClosingTag_shorter (s r : jstring) :
  leadingClosingTag s = Some r -> (length r < length s)%nat.
Proof.
  unfold leadingClosingTag. destruct s as [|c s1]; [done|].
  destruct (c =? ch_lt)%N; [|done].
  pose proof (length_dropWhile isSpace s1) as H1. unfold trimStart.
  destruct (dropWhile isSpace s1) as [|d s2]; [done|].
  destruct (d =? ch_slash)%N; [|done].
  destruct (isEmpty _); [done|].
  pose proof (length_dropWhile isSpace s2) as H2.
  pose proof (length_dropWhile (fun e => negb (e =? ch_gt)%N) (dropWhile isSpace s2)) as H3.
  destruct (dropWhile (fun e => negb (e =? ch_gt)%N) (dropWhile isSpace s2)) as [|g s4];
    [done|].
  intros [= <-]. pose proof (length_dropWhile isSpace s4) as H4.
  simpl in *. lia.
Qed.

Lemma leadingClosingBrace_shorter (s r : jstring) :
  leadingClosingBrace s = Some r -> (length r < length s)%nat.
Proof.
  unfold leadingClosingBrace.
  assert (H : (length (if startsWith s [ch_at] then tl s else s) <= length s)%nat).
  { destruct (startsWith s [ch_at]); [|done]. destruct s; simpl; lia. }
  destruct (if startsWith s [ch_at] then tl s else s) as [|c s2]; [done|].
  destruct (c =? ch_rbrace)%N; [|done].
  intros [= <-]. pose proof (length_dropWhile isSpace s2). unfold trimStart.
  simpl in *. lia.
Qed.

Lemma countLeadingClosings_go_fuel (fuel : nat) (s : jstring) :
  (length s <= fuel)%nat ->
  countLeadingClosings_go fuel s = countLeadingClosings_go (length s) s.
Proof.
  revert s. induction (lt_wf fuel) as [fuel _ IH]. intros s Hf.
  destruct fuel as [|fuel].
  - destruct s; [done | simpl in Hf; lia].
  - destruct s as [|c s]; [done|].
    cbn [countLeadingClosings_go length].
    destruct (leadingClosingTag (c :: s)) as [r|] eqn:E1.
    + apply leadingClosingTag_shorter in E1. simpl in *.
      rewrite (IH fuel) by lia. rewrite (IH (length s)) by lia. done.
    + destruct (leadingClosingBrace (c :: s)) as [r|] eqn:E2; [|done].
      apply leadingClosingBrace_shorter in E2. simpl in *.
      rewrite (IH fuel) by lia. rewrite (IH (length s)) by lia. done.
Qed.

Lemma countLeadingClosings_go_bounds (fuel : nat) (s : jstring) :
  0 <= countLeadingClosings_go fuel s <= Z.of_nat (length s).
Proof.
  revert s; induction fuel as [|fuel IH]; intros s; simpl; [lia|].
  destruct (leadingClosingTag s) as [r|] eqn:E1.
  - apply leadingClosingTag_shorter in E1. specialize (IH r). lia.
  - destruct (leadingClosingBrace s) as [r|] eqn:E2; [|lia].
    apply leadingClosingBrace_shorter in E2. specialize (IH r). lia.
Qed.

(** X12.  [countLeadingClosings] is the loop of the source: a text that
    starts with a closing tag or with a closing brace (after an optional [@])
    counts one more than what follows it, and any other text counts 0.
    The count lies between 0 and the length of the text, so the loop always
    ends. *)
Theorem countLeadingClosings_loop (trimmed : jstring) :
  countLeadingClosings trimmed
  = match leadingClosingTag trimmed with
    | Some rest => 1 + countLeadingClosings rest
    | None =>
        match leadingClosingBrace trimmed with
        | Some rest => 1 + countLeadingClosings rest
        | None => 0
        end
    end
  /\ 0 <= countLeadingClosings trimmed <= Z.of_nat (length trimmed).
Proof.
  split; [|apply countLeadingClosings_go_bounds].
  unfold countLeadingClosings. destruct trimmed as [|c s]; [done|].
  cbn [countLeadingClosings_go length].
  destruct (leadingClosingTag (c :: s)) as [r|] eqn:E1.
  - apply leadingClosingTag_shorter in E1. simpl in E1.
    by rewrite countLeadingClosings_go_fuel by lia.
  - destruct (leadingClosingBrace (c :: s)) as [r|] eqn:E2; [|done].
    apply leadingClosingBrace_shorter in E2. simpl in E2.
    by rewrite countLeadingClosings_go_fuel by lia.
Qed.

(** ** Braces *)

Lemma countBraces_go_bounds (line : jstring) (skipNext : bool) (o c : Z) (ib : bool)
    (q : QuoteState) :
  o <= open (countBraces_go line skipNext o c ib q)
  /\ c <= close (countBraces_go line skipNext o c ib q)
  /\ open (countBraces_go line skipNext o c ib q) - o
     + (close (countBraces_go line skipNext o c ib q) - c) <= Z.of_nat (length line).
Proof.
  revert skipNext o c ib q; induction line as [|x line IH]; intros skipNext o c ib q.
  - simpl. lia.
  - cbn [countBraces_go length]. rewrite Nat2Z.inj_succ.
    branch_cases;
      try (simpl; lia);
      match goal with
      | |- context [countBraces_go line ?s ?o' ?c' ?ib' ?q'] =>
          specialize (IH s o' c' ib' q'); lia
      end.
Qed.

Lemma charIs_escape (c : N) : charIs c ESCAPE_LITERAL = false.
Proof. unfold charIs, ESCAPE_LITERAL. simpl. apply andb_false_r. Qed.

Lemma countBraces_go_plain_step (x : N) (line : jstring) (o c : Z) :
  isQuoteOrSlash x = false ->
  countBraces_go (x :: line) false o c false noQuote
  = countBraces_go line false
      (o + (if (x =? ch_lbrace)%N then 1 else 0))
      (c + (if (x =? ch_rbrace)%N then 1 else 0)) false noQuote.
Proof.
  unfold isQuoteOrSlash. intros H.
  apply orb_false_elim in H as [H Hsl]. apply orb_false_elim in H as [H Hbt].
  apply orb_false_elim in H as [Hsq Hdq].
  cbn [countBraces_go]. cbn [noQuote inSingle inDouble inTemplate escaped orb negb andb].
  rewrite Hsl, Hsq, Hdq, Hbt, charIs_escape. cbn [andb].
  destruct (N.eqb_spec x ch_lbrace) as [->|Hl].
  - by rewrite Z.add_0_r.
  - destruct (x =? ch_rbrace)%N; by rewrite !Z.add_0_r.
Qed.

Lemma countBraces_go_plain (a tail : jstring) (o c : Z) :
  plainCode a = true ->
  countBraces_go (a ++ tail) false o c false noQuote
  = countBraces_go tail false (o + countChar ch_lbrace a) (c + countChar ch_rbrace a)
      false noQuote.
Proof.
  revert o c; induction a as [|x a IH]; intros o c H.
  - simpl. by rewrite !Z.add_0_r.
  - simpl in H. apply andb_prop in H as [Hx Ha]. apply negb_true_iff in Hx.
    change ((x :: a) ++ tail) with (x :: (a ++ tail)).
    rewrite (countBraces_go_plain_step x _ o c Hx), (IH _ _ Ha).
    cbn [countChar]. f_equal; lia.
Qed.

(** X13.  On a text without quotes, backticks and slashes, read outside a
    block comment, [countBraces] counts every opening and every closing
    brace, and whatever follows a [//] after such a text is not counted. *)
Theorem countBraces_plain (code comment : jstring) :
  plainCode code = true ->
  countBraces code false
  = {| open := countChar ch_lbrace code; close := countChar ch_rbrace code;
       brInBlockComment := false |}
  /\ countBraces (code ++ lit "//" ++ comment) false = countBraces code false.
Proof.
  intros H. unfold countBraces.
  assert (E : countBraces_go code false 0 0 false noQuote
              = {| open := countChar ch_lbrace code; close := countChar ch_rbrace code;
                   brInBlockComment := false |}).
  { rewrite <- (app_nil_r code) at 1. by rewrite (countBraces_go_plain code [] 0 0 H). }
  split; [exact E|].
  rewrite (countBraces_go_plain code _ 0 0 H), E.
  change (lit "//" ++ comment) with (ch_slash :: ch_slash :: comment).
  cbn [countBraces_go noQuote inSingle inDouble inTemplate orb negb andb].
  rewrite !startsWith_cons. done.
Qed.

Lemma countBraces_plain_witness :
  countBraces (lit "if (a) { b = {}; }") false
  = {| open := countChar ch_lbrace (lit "if (a) { b = {}; }");
       close := countChar ch_rbrace (lit "if (a) { b = {}; }");
       brInBlockComment := false |}
  /\ countBraces (lit "if (a) { b = {}; }" ++ lit "//" ++ lit " } '") false
     = countBraces (lit "if (a) { b = {}; }") false.
Proof.
  apply (countBraces_plain (lit "if (a) { b = {}; }") (lit " } '")). reflexivity.
Defined.

Lemma countBraces_go_comment (line : jstring) (o c : Z) (q : QuoteState) :
  includes line (lit "*/") = false ->
  countBraces_go line false o c true q
  = {| open := o; close := c; brInBlockComment := true |}.
Proof.
  induction line as [|x line IH]; [done|].
  rewrite includes_cons. intros H. apply orb_false_elim in H as [H1 H2].
  change (lit "*/") with [ch_star; ch_slash] in H1.
  rewrite startsWith_cons, N.eqb_sym in H1.
  cbn [countBraces_go]. rewrite H1. by apply IH.
Qed.

(** X14.  [countBraces] counts at most one brace per code unit: the two
    counts are not negative and their sum is at most the length of the line.
    A line read inside a block comment that does not hold the marker [*/]
    counts no brace at all and leaves the scan inside the comment. *)
Theorem countBraces_inside_comment (line : jstring) (inBlockComment : bool) :
  0 <= open (countBraces line inBlockComment)
  /\ 0 <= close (countBraces line inBlockComment)
  /\ open (countBraces line inBlockComment) + close (countBraces line inBlockComment)
     <= Z.of_nat (length line)
  /\ (includes line (lit "*/") = false ->
      countBraces line true = {| open := 0; close := 0; brInBlockComment := true |}).
Proof.
  pose proof (countBraces_go_bounds line false 0 0 inBlockComment noQuote) as H.
  unfold countBraces.
  split; [lia|]. split; [lia|]. split; [lia|]. apply countBraces_go_comment.
Qed.

Example countBraces_comment_line :
  countBraces (lit " * { 'a' ` } /") true
  = {| open := 0; close := 0; brInBlockComment := true |}.
Proof. reflexivity. Qed.

Lemma startsWith_withoutBackslashes (s : jstring) (d : N) :
  d <> ch_backslash -> d <> ch_a ->
  startsWith (withoutBackslashes s) [d] = startsWith s [d].
Proof.
  intros H1 H2. rewrite !startsWith_cons1. destruct s as [|c s]; [done|]. simpl.
  destruct (N.eqb_spec c ch_backslash) as [->|Hc]; [|done].
  apply N.eqb_neq in H1, H2. by rewrite H1, H2.
Qed.

Lemma countBraces_go_backslash (line : jstring) (skipNext : bool) (o c : Z) (ib : bool)
    (q : QuoteState) :
  countBraces_go (withoutBackslashes line) skipNext o c ib q
  = countBraces_go line skipNext o c ib q.
Proof.
  revert skipNext o c ib q; induction line as [|x line IH]; intros skipNext o c ib q;
    [done|].
  change (withoutBackslashes (x :: line))
    with ((if (x =? ch_backslash)%N then ch_a else x) :: withoutBackslashes line).
  cbn [countBraces_go].
  rewrite !startsWith_withoutBackslashes by done.
  rewrite !charIs_escape. rewrite !IH.
  destruct (N.eqb_spec x ch_backslash) as [->|Hx]; done.
Qed.

(** X15.  A backslash never escapes anything for [countBraces]: the test for
    an escape compares one code unit with a literal of two, so the counts
    and the comment state of a line are those of the line with every
    backslash replaced by a letter. *)
Theorem countBraces_backslash (line : jstring) (inBlockComment : bool) :
  countBraces (withoutBackslashes line) inBlockComment = countBraces line inBlockComment.
Proof. apply countBraces_go_backslash. Qed.

(** ** Normal forms *)

Lemma matchSwitchHeader_razor (r : jstring) : matchSwitchHeader (lit "@:" ++ r) = None.
Proof. reflexivity. Qed.

Lemma normalizeForValidation_razor (l r : jstring) :
  dropWhile isSpace l = lit "@:" ++ r ->
  normalizeForValidation l = lit "@:" ++ dropWhile isSpace r.
Proof.
  intros H. rewrite normalizeForValidation_strip, H, normalizeStripped_razor.
  unfold normalizeSwitchSpacing. by rewrite matchSwitchHeader_razor.
Qed.

Lemma normalizeForValidation_plain (l : jstring) :
  stripPrefix (lit "@:") (dropWhile isSpace l) = None ->
  normalizeForValidation l = normalizeSwitchSpacing (dropWhile isSpace l).
Proof.
  intros H. rewrite normalizeForValidation_strip. unfold normalizeStripped. by rewrite H.
Qed.

Lemma normalizeSwitchSpacing_head (s : jstring) :
  dropWhile isSpace s = s -> dropWhile isSpace (normalizeSwitchSpacing s) = normalizeSwitchSpacing s.
Proof.
  intros H. unfold normalizeSwitchSpacing. by destruct (matchSwitchHeader s).
Qed.

Lemma normalizeSwitchSpacing_not_razor (s : jstring) :
  stripPrefix (lit "@:") s = None ->
  stripPrefix (lit "@:") (normalizeSwitchSpacing s) = None.
Proof.
  intros H. unfold normalizeSwitchSpacing. by destruct (matchSwitchHeader s).
Qed.

(** X16.  [normalizeForValidation] yields a normal form: the result does not
    start with white space, normalising it again changes nothing, and
    white space in front of a line does not change its normal form. *)
Theorem normalizeForValidation_normal_form (line ws : jstring) :
  normalizeForValidation (normalizeForValidation line) = normalizeForValidation line
  /\ trimStart (normalizeForValidation line) = normalizeForValidation line
  /\ (forallb isSpace ws = true ->
      normalizeForValidation (ws ++ line) = normalizeForValidation line).
Proof.
  assert (Hhead : dropWhile isSpace (normalizeForValidation line)
                  = normalizeForValidation line).
  { destruct (stripPrefix (lit "@:") (dropWhile isSpace line)) as [r|] eqn:E.
    - apply stripPrefix_app in E. by rewrite (normalizeForValidation_razor line r E).
    - rewrite (normalizeForValidation_plain line E).
      apply normalizeSwitchSpacing_head, dropWhile_idem. }
  split; [|split; [exact Hhead|]].
  - destruct (stripPrefix (lit "@:") (dropWhile isSpace line)) as [r|] eqn:E.
    + apply stripPrefix_app in E. rewrite (normalizeForValidation_razor line r E).
      rewrite (normalizeForValidation_razor _ (dropWhile isSpace r)) by done.
      by rewrite dropWhile_idem.
    + rewrite (normalizeForValidation_plain line E).
      rewrite normalizeForValidation_plain.
      * rewrite normalizeSwitchSpacing_head by apply dropWhile_idem.
        apply normalizeSwitchSpacing_idem.
      * rewrite normalizeSwitchSpacing_head by apply dropWhile_idem.
        by apply normalizeSwitchSpacing_not_razor.
  - intros Hws. apply normalize_same_strip. by apply dropWhile_all.
Qed.

(** X17.  The three rendering functions only change what the validator
    disregards: a line built by [makeIndentedLine] or by
    [makeRazorTextIndentedLine], and the text [formatRawLineContent] returns,
    have the normal form of the text they were given; applying
    [formatRawLineContent] twice is applying it once. *)
Theorem rendering_keeps_content (r : jstring) (indentWidth contentIndentWidth : Z) :
  sameContent (makeIndentedLine r indentWidth) r
  /\ sameContent (makeRazorTextIndentedLine r indentWidth contentIndentWidth) r
  /\ sameContent (formatRawLineContent r) r
  /\ formatRawLineContent (formatRawLineContent r) = formatRawLineContent r.
Proof.
  unfold sameContent. split; [|split; [|split]].
  - apply normalize_same_strip, makeIndentedLine_strip.
  - apply makeRazorTextIndentedLine_normalize.
  - apply formatRawLineContent_normalize.
  - unfold formatRawLineContent at 2 3.
    destruct (matchSwitchHeader (trimStart r)) as [inner|] eqn:E.
    + unfold formatRawLineContent.
      assert (Ht : trimStart (switchHeader inner) = switchHeader inner) by done.
      rewrite Ht, matchSwitchHeader_switchHeader
        by (by eapply matchSwitchHeader_noLineTerminator).
      unfold switchHeader. by rewrite trim_idem.
    + unfold formatRawLineContent. by rewrite E.
Qed.

(** ** Blank lines and normal forms *)

Lemma trimEnd_prefix (s : jstring) : exists ws : jstring, s = trimEnd s ++ ws.
Proof.
  destruct (dropWhile_suffix isSpace (rev s)) as [pre E].
  exists (rev pre). unfold trimEnd.
  rewrite <- rev_app_distr, <- E. by rewrite rev_involutive.
Qed.

Lemma not_razor_not_blank (c : N) (r : jstring) :
  isSpace c = false -> stripPrefix (lit "@:") (c :: r) = None ->
  isBlankLine (c :: r) = false.
Proof.
  intros Hc Hp. unfold isBlankLine, trim, trimStart.
  cbn [dropWhile]. rewrite Hc.
  destruct (trimEnd_cons c r Hc) as [r' Hr'].
  destruct (trimEnd_prefix (c :: r)) as [ws Hws].
  rewrite Hr'. cbn [isEmpty orb].
  destruct (eqStr (c :: r') (lit "@:")) eqn:E; [|done].
  apply eqStr_eq in E. rewrite Hr', E in Hws.
  rewrite Hws in Hp. by rewrite stripPrefix_lit_app in Hp.
Qed.

Lemma isBlankLine_normal (l : jstring) :
  isBlankLine l = isBlankNormal (normalizeForValidation l).
Proof.
  destruct (dropWhile isSpace l) as [|c r] eqn:Es.
  - rewrite normalizeForValidation_strip, Es.
    unfold isBlankLine, trim, trimStart. by rewrite Es.
  - destruct (stripPrefix (lit "@:") (c :: r)) as [r'|] eqn:Ep.
    + apply stripPrefix_app in Ep. rewrite Ep in Es.
      rewrite (blank_razor l r' Es), (normalizeForValidation_razor l r' Es).
      by destruct (dropWhile isSpace r').
    + pose proof (dropWhile_head isSpace l c r Es) as Hc.
      rewrite (isBlankLine_strip l), Es, (not_razor_not_blank c r Hc Ep).
      rewrite normalizeForValidation_plain by (by rewrite Es). rewrite Es.
      unfold normalizeSwitchSpacing.
      destruct (matchSwitchHeader (c :: r)); [done|].
      unfold isBlankNormal. cbn [isEmpty orb].
      destruct (eqStr (c :: r) (lit "@:")) eqn:E; [|done].
      apply eqStr_eq in E. by rewrite E in Ep.
Qed.

Lemma sameContent_blank (a b : jstring) : sameContent a b -> isBlankLine a = isBlankLine b.
Proof. unfold sameContent. intros H. by rewrite !isBlankLine_normal, H. Qed.

(** ** The validator *)

Lemma validateLoop_strict_sound (outs origs : list jstring) (k : nat) :
  validateLoop false k origs outs = ([], [], []) -> Forall2 sameContent origs outs.
Proof.
  revert origs k; induction outs as [|f outs IH]; intros origs k; simpl.
  - intros [= ->]. constructor.
  - destruct origs as [|o origs]; [done|].
    destruct (validateLoop false (S k) origs outs) as [[ch ro] rout] eqn:E.
    destruct (eqStr (normalizeForValidation o) (normalizeForValidation f)) eqn:Eq; [|done].
    intros [= -> -> ->]. constructor; [by apply eqStr_eq | by apply (IH origs (S k))].
Qed.

Lemma Forall2_map_left {A B C : Type} (f : A -> C) (P : C -> B -> Prop)
    (l : list A) (k : list B) :
  Forall2 P (List.map f l) k <-> Forall2 (fun a b => P (f a) b) l k.
Proof.
  revert k; induction l as [|a l IH]; intros k; simpl.
  - split; intros H; inversion H; constructor.
  - split; intros H; inversion H; subst; constructor; try done; by apply IH.
Qed.

(** X18.  Without inserted separators [validateOutput] accepts exactly the
    outputs that have one line for each original line, with the same
    content once both are normalised. *)
Theorem validateOutput_strict (lineInfos : list LineInfo) (outputLines : list jstring) :
  ok (validateOutput lineInfos outputLines false) = true
  <-> Forall2 (fun info line => sameContent (original info) line) lineInfos outputLines.
Proof.
  unfold validateOutput. cbn [negb andb]. split.
  - destruct (Nat.eqb_spec (length (List.map original lineInfos)) (length outputLines))
      as [Hlen|Hlen]; [|done].
    cbn [negb].
    destruct (validateLoop_same_length 0 _ _ Hlen) as [changed E]. rewrite E.
    cbn [length seq List.map isEmpty negb]. rewrite !app_nil_r.
    destruct changed as [|x changed]; [|done]. intros _.
    apply validateLoop_strict_sound in E.
    by apply Forall2_map_left.
  - intros H.
    assert (H' : Forall2 sameContent (List.map original lineInfos) outputLines).
    { by apply Forall2_map_left. }
    rewrite (Forall2_length _ _ _ H'), Nat.eqb_refl. cbn [negb].
    by rewrite (validateLoop_rendered _ _ H' 0).
Qed.

Lemma filter_nonBlank_blank (ls : list jstring) :
  existsb (fun l => negb (isBlankLine l)) ls = false -> List.filter nonBlank ls = [].
Proof.
  induction ls as [|l ls IH]; [done|]. cbn [existsb List.filter].
  intros H. apply orb_false_elim in H as [Hl Hls]. unfold nonBlank at 1.
  rewrite Hl. by apply IH.
Qed.

Lemma filter_nonBlank_cons (l : jstring) (ls : list jstring) :
  List.filter nonBlank (l :: ls)
  = if isBlankLine l then List.filter nonBlank ls else l :: List.filter nonBlank ls.
Proof. cbn [List.filter]. unfold nonBlank at 1. by destruct (isBlankLine l). Qed.

Lemma validateLoop_lenient_sound (outs origs : list jstring) (k : nat) (rout : list jstring) :
  validateLoop true k origs outs = ([], [], rout) ->
  existsb (fun l => negb (isBlankLine l)) rout = false ->
  Forall2 sameContent (List.filter nonBlank origs) (List.filter nonBlank outs).
Proof.
  revert origs k; induction outs as [|f outs IH]; intros origs k; simpl validateLoop.
  - intros [= -> <-] _. constructor.
  - destruct origs as [|o origs].
    + intros [= <-] H. rewrite (filter_nonBlank_blank _ H). constructor.
    + cbn [andb]. destruct (isBlankLine f) eqn:Ef.
      * destruct (isBlankLine o) eqn:Eo; intros E H.
        -- rewrite (filter_nonBlank_cons o), (filter_nonBlank_cons f), Ef, Eo.
           by apply (IH origs (S k)).
        -- rewrite (filter_nonBlank_cons f), Ef.
           by apply (IH (o :: origs) k).
      * destruct (validateLoop true (S k) origs outs) as [[ch ro] rout'] eqn:E.
        destruct (eqStr (normalizeForValidation o) (normalizeForValidation f)) eqn:Eq;
          [|done].
        intros [= -> -> ->] H. apply eqStr_eq in Eq.
        rewrite (filter_nonBlank_cons o), (filter_nonBlank_cons f).
        rewrite (sameContent_blank o f Eq), Ef.
        constructor; [exact Eq | by apply (IH origs (S k))].
Qed.

(** X19.  With inserted separators allowed, an output [validateOutput]
    accepts has the lines of the original that are not blank, in the same
    order and with the same content; it differs from the original by blank
    lines and bare [@:] lines only. *)
Theorem validateOutput_lenient_sound (lineInfos : list LineInfo)
    (outputLines : list jstring) :
  ok (validateOutput lineInfos outputLines true) = true ->
  Forall2 sameContent
    (List.filter nonBlank (List.map original lineInfos))
    (List.filter nonBlank outputLines).
Proof.
  unfold validateOutput. cbn [negb andb].
  destruct (validateLoop true 0 (List.map original lineInfos) outputLines)
    as [[changed ro] rout] eqn:E.
  destruct (existsb (fun l => negb (isBlankLine l)) rout) eqn:Ex.
  - match goal with |- context [isEmpty (?a ++ [?x])] =>
      destruct (a ++ [x]) eqn:Ea; [by apply app_eq_nil in Ea as [_ ?] | done]
    end.
  - rewrite app_nil_r.
    destruct changed as [|x changed]; [|done].
    destruct ro as [|o ro]; [|done].
    intros _. by apply (validateLoop_lenient_sound _ _ 0 rout).
Qed.

Lemma validateOutput_lenient_sound_witness :
  Forall2 sameContent
    (List.filter nonBlank (List.map original [analyzeLine (lit "break;") 4;
                                              analyzeLine (lit "  case 2:") 4]))
    (List.filter nonBlank [lit "    break;"; []; lit "case 2:"]).
Proof.
  apply (validateOutput_lenient_sound
           [analyzeLine (lit "break;") 4; analyzeLine (lit "  case 2:") 4]
           [lit "    break;"; []; lit "case 2:"]).
  reflexivity.
Defined.

(** ** Switch spacing *)

Lemma insertSwitchBlankLines_go_sublist (lines : list jstring) (i : nat)
    (meta : list (option RawLineMeta)) (a b c : bool) :
  sublist lines (fst (insertSwitchBlankLines_go lines i meta a b c))
  /\ (snd (insertSwitchBlankLines_go lines i meta a b c) = true ->
      (length lines < length (fst (insertSwitchBlankLines_go lines i meta a b c)))%nat).
Proof.
  revert i a b c; induction lines as [|l lines IH]; intros i a b c; simpl.
  - split; [constructor | done].
  - destruct (meta !! i) as [[m|]|]; simpl;
      try (destruct (IH (S i) false false false) as [H1 H2];
           split; [by apply sublist_skip | intros H; specialize (H2 H); lia]).
    destruct (isRawBlock m); simpl;
      try (destruct (IH (S i) false false false) as [H1 H2];
           split; [by apply sublist_skip | intros H; specialize (H2 H); lia]).
    match goal with
    | |- context [insertSwitchBlankLines_go lines (S i) meta true ?x ?y] =>
        destruct (IH (S i) true x y) as [H1 H2]
    end.
    destruct (isCaseOrDefault m && _ && _); simpl.
    + split; [by apply sublist_cons, sublist_skip|]. intros _.
      apply sublist_length in H1. lia.
    + split; [by apply sublist_skip | intros H; specialize (H2 H); lia].
Qed.

(** X20.  [insertSwitchBlankLines] only adds lines: the lines it is given
    are a subsequence of its result, and it reports an insertion exactly
    when the result differs from them. *)
Theorem insertSwitchBlankLines_adds_only (lines : list jstring)
    (meta : list (option RawLineMeta)) :
  sublist lines (fst (insertSwitchBlankLines lines meta))
  /\ (snd (insertSwitchBlankLines lines meta) = false
      <-> fst (insertSwitchBlankLines lines meta) = lines).
Proof.
  unfold insertSwitchBlankLines.
  destruct (insertSwitchBlankLines_go_sublist lines 0 meta false false false) as [H1 H2].
  split; [exact H1|]. split.
  - apply insertSwitchBlankLines_go_not_inserted.
  - intros E. destruct (snd _) eqn:Es; [|done].
    specialize (H2 eq_refl). rewrite E in H2. lia.
Qed.

Lemma insertSwitchBlankLines_go_no_raw (lines : list jstring) (i : nat)
    (meta : list (option RawLineMeta)) (a b c : bool) :
  (forall j : nat, isRawLine meta j = false) ->
  insertSwitchBlankLines_go lines i meta a b c = (lines, false).
Proof.
  intros Hm. revert i a b c; induction lines as [|l lines IH]; intros i a b c; simpl;
    [done|].
  specialize (Hm i). unfold isRawLine in Hm.
  destruct (meta !! i) as [[m|]|]; try (by rewrite IH).
  rewrite Hm. by rewrite IH.
Qed.

(** ** Lines that keep their width *)

Lemma sanitizeIndentSize_nonneg (value : JsNumber) : 0 <= sanitizeIndentSize value.
Proof.
  destruct value as [| negative | q]; cbn [sanitizeIndentSize]; [lia | lia |].
  destruct (Qle_bool q 0) eqn:E; [lia|].
  assert (Hpos : (0 < q)%Q).
  { apply Qnot_le_lt. intros H. apply Qle_bool_iff in H. congruence. }
  change 0 with (Qfloor (inject_Z 0)) at 1. apply Qfloor_resp_le.
  by apply Qlt_le_weak.
Qed.

Lemma trace_indentSize (input : jstring) (o : FormatOptions) :
  trIndentSize (trace input o) = sanitizeIndentSize (indentSize o).
Proof. reflexivity. Qed.

Lemma trace_lengths (input : jstring) (o : FormatOptions) :
  length (trLineInfos (trace input o)) = length (trLines (trace input o))
  /\ length (indents (trArrays (trace input o))) = length (trLines (trace input o)).
Proof.
  split; [by rewrite trace_lineInfos, length_map|].
  rewrite trace_arrays. cbn [indents withIndents].
  rewrite fillUnresolved_length, trace_blockArrays, resolveBlocks_length.
  apply (inv_length _ _ _ _ _ (trace_scanInv input o)).
Qed.

Lemma block_of_line (blocks : list TextBlock) (i : nat) :
  (exists b, In b blocks /\ (startLine b <= i <= endLine b)%nat)
  \/ (forall b, In b blocks -> ~ In i (blockRange b)).
Proof.
  induction blocks as [|b blocks IH].
  - right. by intros b [].
  - destruct (in_dec Nat.eq_dec i (blockRange b)) as [Hin|Hout].
    + left. exists b. split; [by left | by apply in_blockRange].
    + destruct IH as [(b' & Hb' & Hr) | IH].
      * left. exists b'. split; [by right | done].
      * right. intros b' [<- | Hb']; [done | by apply IH].
Qed.

(** The width the document pass leaves for a captured line is unresolved. *)
Lemma trace_captured_unresolved (input : jstring) (o : FormatOptions) (i : nat)
    (info : LineInfo) :
  trLineInfos (trace input o) !! i = Some info ->
  Captured (trIndentSize (trace input o)) (trLines (trace input o))
    (trLineInfos (trace input o)) i = true ->
  desiredIndents (trScan (trace input o)) !! i = Some None.
Proof.
  intros Hi Hc. pose proof (trace_scanInv input o) as Hinv.
  destruct (trace_lengths input o) as [Hlen _].
  assert (Hn : (i < length (trLines (trace input o)))%nat).
  { rewrite <- Hlen. by apply lookup_lt_Some in Hi. }
  destruct (lookup_lt_is_Some_2 _ _ Hn) as [line Hl].
  rewrite (inv_desired _ _ _ _ _ Hinv i line info Hn Hl Hi). by rewrite Hc.
Qed.

Lemma trace_outside_blocks (input : jstring) (o : FormatOptions) (i : nat)
    (info : LineInfo) :
  trLineInfos (trace input o) !! i = Some info ->
  Captured (trIndentSize (trace input o)) (trLines (trace input o))
    (trLineInfos (trace input o)) i = true ->
  (forall b, In b (trTextBlocks (trace input o)) -> ~ In i (blockRange b)) ->
  indents (trArrays (trace input o)) !! i = Some (Some (leadingWidth info)).
Proof.
  intros Hi Hc Hout.
  pose proof (trace_captured_unresolved input o i info Hi Hc) as Hd.
  rewrite trace_arrays. cbn [indents withIndents].
  apply (fillUnresolved_lookup _ _ _ None); [|done].
  rewrite trace_blockArrays. by rewrite resolveBlocks_other.
Qed.

Lemma trace_captured_restored (input : jstring) (o : FormatOptions) (i : nat)
    (info : LineInfo) :
  trLineInfos (trace input o) !! i = Some info ->
  Captured (trIndentSize (trace input o)) (trLines (trace input o))
    (trLineInfos (trace input o)) i = true ->
  adjustTextBlocks o = false
  \/ (forall b, In b (trTextBlocks (trace input o)) ->
        skip b = true \/ ~ (startLine b <= i <= endLine b)%nat) ->
  indents (trArrays (trace input o)) !! i = Some (Some (leadingWidth info)).
Proof.
  intros Hi Hc Hcase.
  destruct (block_of_line (trTextBlocks (trace input o)) i) as [(b & Hb & Hr) | Hout];
    [|by apply trace_outside_blocks].
  replace i with (startLine b + (i - startLine b))%nat in Hi |- * by lia.
  rewrite (trace_block_line input o b (i - startLine b) info Hb) by (done || lia).
  destruct (adjustTextBlocks o) eqn:Ea; [|done].
  destruct Hcase as [|Hskip]; [done|].
  destruct (Hskip b Hb) as [Hs | Hn]; [|lia].
  unfold blockValue. by rewrite Hs.
Qed.

(** X21.  A line inside a block being captured keeps its original width
    whenever the block is not re-indented: when the adjustment of blocks is
    switched off, when the line belongs to no recorded block (a [script] or
    [style] block that is never closed), and when its block is a [text]
    block that is still open at the end of the document. *)
Theorem captured_line_restored (input : jstring) (options : FormatOptions) (i : nat)
    (info : LineInfo) :
  trLineInfos (trace input options) !! i = Some info ->
  Captured (trIndentSize (trace input options)) (trLines (trace input options))
    (trLineInfos (trace input options)) i = true ->
  adjustTextBlocks options = false
  \/ (forall b, In b (trTextBlocks (trace input options)) ->
        skip b = true \/ ~ (startLine b <= i <= endLine b)%nat) ->
  indents (trArrays (trace input options)) !! i = Some (Some (leadingWidth info)).
Proof. apply trace_captured_restored. Qed.

Lemma captured_line_restored_witness :
  indents (trArrays (trace unclosedScriptDoc (opts 4))) !! 2%nat
  = Some (Some (leadingWidth (analyzeLine ([ch_tab] ++ lit "  x();") 4))).
Proof.
  apply (captured_line_restored unclosedScriptDoc (opts 4) 2
           (analyzeLine ([ch_tab] ++ lit "  x();") 4)).
  - reflexivity.
  - reflexivity.
  - right. intros b Hb. vm_compute in Hb. destruct Hb.
Defined.

Example unclosed_script_block_output :
  output (formatText unclosedScriptDoc (opts 4))
  = doc ["<div>"; "    <script>"; "      x();"]%string.
Proof. vm_compute. reflexivity. Qed.

(** ** What the document pass reads of a line *)

Lemma containsClosingTag_strip (line tag : jstring) :
  containsClosingTag (dropWhile isSpace line) tag = containsClosingTag line tag.
Proof.
  rewrite <- (takeWhile_dropWhile isSpace line) at 2.
  symmetry. apply containsClosingTag_leading, takeWhile_forallb.
Qed.

Lemma extractTags_strip (line : jstring) :
  extractTags (dropWhile isSpace line) = extractTags line.
Proof.
  rewrite <- (takeWhile_dropWhile isSpace line) at 2.
  symmetry. apply extractTags_go_leading, takeWhile_forallb.
Qed.

Lemma stripHtmlComments_strip (line : jstring) (c : bool) :
  snd (stripHtmlComments (dropWhile isSpace line) c) = snd (stripHtmlComments line c)
  /\ dropWhile isSpace (fst (stripHtmlComments (dropWhile isSpace line) c))
     = dropWhile isSpace (fst (stripHtmlComments line c)).
Proof.
  rewrite <- (takeWhile_dropWhile isSpace line) at 2 4.
  rewrite (stripHtmlComments_leading _ _ c (takeWhile_forallb isSpace line)).
  destruct c; [done|]. cbn [fst snd]. split; [done|].
  by rewrite dropWhile_all by apply takeWhile_forallb.
Qed.

Lemma closeCapture_strip (i : nat) (line : jstring) (info : LineInfo) (st : ScanState) :
  closeCapture i (dropWhile isSpace line) info st = closeCapture i line info st.
Proof. unfold closeCapture. by rewrite containsClosingTag_strip. Qed.

Lemma countLine_strip (st : ScanState) (line : jstring) (info : LineInfo) :
  countLine st (dropWhile isSpace line) info = countLine st line info.
Proof.
  unfold countLine. cbv zeta.
  destruct (stripHtmlComments_strip line (inComment st)) as [E1 E2].
  rewrite E1.
  assert (E3 : forall tag,
    containsClosingTag (fst (stripHtmlComments (dropWhile isSpace line) (inComment st))) tag
    = containsClosingTag (fst (stripHtmlComments line (inComment st))) tag).
  { intros tag. by rewrite <- containsClosingTag_strip, E2, containsClosingTag_strip. }
  assert (E4 :
    extractTags (fst (stripHtmlComments (dropWhile isSpace line) (inComment st)))
    = extractTags (fst (stripHtmlComments line (inComment st)))).
  { by rewrite <- extractTags_strip, E2, extractTags_strip. }
  destruct (inRawTag st) as [rawTag|].
  - by rewrite E3.
  - by rewrite E4.
Qed.

Lemma scanLine_strip (u : Z) (i : nat) (line : jstring) (info : LineInfo) (st : ScanState) :
  scanLine u i (dropWhile isSpace line) info st = scanLine u i line info st.
Proof.
  unfold scanLine, docLineIndent. cbv zeta.
  by rewrite closeCapture_strip, !countLine_strip.
Qed.

Lemma closeCapture_rest (i : nat) (line : jstring) (info info' : LineInfo) (st : ScanState) :
  rest info = rest info' -> closeCapture i line info st = closeCapture i line info' st.
Proof. intros H. unfold closeCapture. by rewrite H. Qed.

Lemma countLine_rest (st : ScanState) (line : jstring) (info info' : LineInfo) :
  rest info = rest info' -> countLine st line info = countLine st line info'.
Proof. intros H. unfold countLine. by rewrite H. Qed.

Lemma docLineIndent_cong (u : Z) (st : ScanState) (line line' : jstring)
    (info info' : LineInfo) :
  rest info = rest info' -> dropWhile isSpace line = dropWhile isSpace line' ->
  docLineIndent u st line info = docLineIndent u st line' info'.
Proof.
  intros Hr Hl. unfold docLineIndent. cbv zeta.
  rewrite <- (countLine_strip st line), Hl, (countLine_strip st line').
  by rewrite (countLine_rest st line' info info' Hr), Hr.
Qed.

Lemma closeCapture_cong (i : nat) (line line' : jstring) (info info' : LineInfo)
    (st : ScanState) :
  rest info = rest info' -> dropWhile isSpace line = dropWhile isSpace line' ->
  closeCapture i line info st = closeCapture i line' info' st.
Proof.
  intros Hr Hl.
  rewrite <- (closeCapture_strip i line), Hl, closeCapture_strip.
  by apply closeCapture_rest.
Qed.

Lemma scanLine_cong (u : Z) (i : nat) (line line' : jstring) (info info' : LineInfo)
    (st : ScanState) :
  rest info = rest info' -> dropWhile isSpace line = dropWhile isSpace line' ->
  scanLine u i line info st = scanLine u i line' info' st.
Proof.
  intros Hr Hl.
  rewrite <- (scanLine_strip u i line), Hl, scanLine_strip.
  unfold scanLine, docLineIndent. cbv zeta.
  by rewrite (closeCapture_rest i line' info info' st Hr),
    !(countLine_rest _ line' info info' Hr), Hr.
Qed.

Lemma scanFrom_cong (u : Z) (lines lines' : list jstring) (infos infos' : list LineInfo) :
  Forall2 (fun l l' => dropWhile isSpace l = dropWhile isSpace l') lines lines' ->
  Forall2 (fun x x' => rest x = rest x') infos infos' ->
  forall (i : nat) (st : ScanState),
    scanFrom u i lines infos st = scanFrom u i lines' infos' st.
Proof.
  intros Hl. revert infos infos'.
  induction Hl as [|l l' ls ls' Hll _ IH]; intros infos infos' Hi i st.
  - by destruct infos, infos'.
  - inversion Hi as [|x x' xs xs' Hxx Hxs]; subst; [done|].
    cbn [scanFrom]. rewrite (scanLine_cong u i l l' x x' st Hxx Hll). by apply IH.
Qed.

Lemma scanPrefix_cong (u : Z) (lines lines' : list jstring) (infos infos' : list LineInfo)
    (n : nat) :
  Forall2 (fun l l' => dropWhile isSpace l = dropWhile isSpace l') lines lines' ->
  Forall2 (fun x x' => rest x = rest x') infos infos' ->
  scanPrefix u lines infos n = scanPrefix u lines' infos' n.
Proof.
  intros Hl Hi. unfold scanPrefix. rewrite (Forall2_length _ _ _ Hl).
  apply scanFrom_cong; by apply Forall2_take.
Qed.

Lemma Forall2_lookup_both {A B : Type} (R : A -> B -> Prop) (l : list A) (k : list B)
    (i : nat) :
  Forall2 R l k ->
  match l !! i, k !! i with
  | Some x, Some y => R x y
  | None, None => True
  | _, _ => False
  end.
Proof.
  intros H. revert i; induction H as [|x y l k Hxy _ IH]; intros [|i]; simpl; try done.
  apply IH.
Qed.

Lemma Captured_cong (u : Z) (lines lines' : list jstring) (infos infos' : list LineInfo)
    (j : nat) :
  Forall2 (fun l l' => dropWhile isSpace l = dropWhile isSpace l') lines lines' ->
  Forall2 (fun x x' => rest x = rest x') infos infos' ->
  Captured u lines infos j = Captured u lines' infos' j.
Proof.
  intros Hl Hi. unfold Captured.
  pose proof (Forall2_lookup_both _ _ _ j Hl) as Hlj.
  pose proof (Forall2_lookup_both _ _ _ j Hi) as Hij.
  destruct (lines !! j) as [l|], (lines' !! j) as [l'|]; try done.
  destruct (infos !! j) as [x|], (infos' !! j) as [x'|]; try done.
  rewrite (scanPrefix_cong u lines lines' infos infos' j Hl Hi).
  by rewrite (closeCapture_cong j l l' x x' _ Hij Hlj).
Qed.

Lemma blockStateAt_cong (u : Z) (isRaw : bool) (infos infos' : list LineInfo) :
  Forall2 (fun x x' => rest x = rest x') infos infos' ->
  forall (range : list nat) (k : nat) (bs : BlockState),
    blockStateAt u isRaw infos range k bs = blockStateAt u isRaw infos' range k bs.
Proof.
  intros Hi range. induction range as [|j range IH]; intros [|k] bs; try done.
  cbn [blockStateAt].
  pose proof (Forall2_lookup_both _ _ _ j Hi) as Hij.
  destruct (infos !! j) as [x|], (infos' !! j) as [x'|]; try done.
  rewrite Hij. apply IH.
Qed.

(** ** Documents without a raw block that is re-indented *)

Lemma reindentLines_plain (u base : Z) (infos : list LineInfo) (range : list nat) :
  forall (bs : BlockState) (arr : Arrays),
    rawLineMeta (reindentLines u base false infos range bs arr) = rawLineMeta arr
    /\ indentAfterRazorPrefix (reindentLines u base false infos range bs arr)
       = indentAfterRazorPrefix arr.
Proof.
  induction range as [|j range IH]; intros bs arr; [done|].
  cbn [reindentLines]. destruct (infos !! j) as [info|]; [|done].
  destruct (IH (blockNextState u false bs (rest info))
              (blockWrite u base false bs j (rest info) arr)) as [-> ->].
  unfold blockWrite. by destruct (isEmpty (rest info)).
Qed.

Lemma applyBlock_plain (u : Z) (infos : list LineInfo) (arr : Arrays) (b : TextBlock) :
  setHas RAW_TAGS (tagName b) = false ->
  rawLineMeta (applyBlock u infos arr b) = rawLineMeta arr
  /\ indentAfterRazorPrefix (applyBlock u infos arr b) = indentAfterRazorPrefix arr.
Proof.
  intros Hb. unfold applyBlock. rewrite Hb.
  destruct (skip b || (endLine b <? startLine b)%nat); [done|].
  cbn [andb]. apply reindentLines_plain.
Qed.

Lemma applyTextBlockIndentation_plain (u : Z) (infos : list LineInfo)
    (blocks : list TextBlock) :
  Forall (fun b => setHas RAW_TAGS (tagName b) = false) blocks ->
  forall arr : Arrays,
    rawLineMeta (applyTextBlockIndentation blocks arr infos u) = rawLineMeta arr
    /\ indentAfterRazorPrefix (applyTextBlockIndentation blocks arr infos u)
       = indentAfterRazorPrefix arr.
Proof.
  unfold applyTextBlockIndentation.
  induction 1 as [|b blocks Hb _ IH]; intros arr; [done|].
  cbn [fold_left]. destruct (IH (applyBlock u infos arr b)) as [-> ->].
  by apply applyBlock_plain.
Qed.

Lemma trace_plain_arrays (input : jstring) (o : FormatOptions) :
  adjustTextBlocks o = false
  \/ Forall (fun b => setHas RAW_TAGS (tagName b) = false) (trTextBlocks (trace input o)) ->
  rawLineMeta (trArrays (trace input o))
  = replicate (length (trLines (trace input o))) None
  /\ indentAfterRazorPrefix (trArrays (trace input o))
     = replicate (length (trLines (trace input o))) false.
Proof.
  intros H. rewrite trace_arrays. cbn [rawLineMeta indentAfterRazorPrefix withIndents].
  rewrite trace_blockArrays. unfold resolveBlocks.
  destruct (adjustTextBlocks o) eqn:Ea.
  - destruct H as [|H]; [done|].
    by destruct (applyTextBlockIndentation_plain (trIndentSize (trace input o))
                   (trLineInfos (trace input o)) _ H
                   (initialArrays (desiredIndents (trScan (trace input o)))
                      (length (trLines (trace input o))))) as [-> ->].
  - done.
Qed.


Lemma closeCapture_TextOnly (i : nat) (line : jstring) (info : LineInfo) (st : ScanState) :
  TextOnly st -> TextOnly (closeCapture i line info st).
Proof.
  intros (Hr & Hc & Hb).
  assert (Hclosed : forall b, currentTextBlock st = Some b ->
            forall b', In b' (textBlocks st ++ [closedAt i b]) -> tagName b' = lit "text").
  { intros b Eb b' Hin. apply in_app_or in Hin as [Hin | [<- | []]]; [by apply Hb|].
    simpl. by apply Hc. }
  unfold closeCapture. rewrite Hr. cbn [andb].
  destruct (inTextBlock st && TEXT_CLOSE_RE_test (trimStart (rest info))).
  - destruct (currentTextBlock st) as [b|] eqn:Eb; cbn.
    + split; [done|]. split; [done|]. by apply (Hclosed b).
    + split; [done|]. split; [done|]. done.
  - cbn. by repeat split.
Qed.

Lemma scanLine_TextOnly (u : Z) (i : nat) (line : jstring) (info : LineInfo)
    (st : ScanState) :
  isLineOpeningTag (trimStart (rest info)) (lit "script") = false ->
  isLineOpeningTag (trimStart (rest info)) (lit "style") = false ->
  TextOnly st -> TextOnly (scanLine u i line info st).
Proof.
  intros Hs1 Hs2 Hst.
  pose proof (closeCapture_TextOnly i line info st Hst) as (Hr & Hc & Hb).
  unfold scanLine.
  destruct (inTextBlock (closeCapture i line info st)
            || inRawBlock (closeCapture i line info st)).
  - by repeat split.
  - cbv zeta. unfold TextOnly, openedBlock, opensTag.
    cbn [inRawBlock currentTextBlock textBlocks].
    rewrite Hs1, Hs2, Hr. cbn [andb orb].
    split; [done|]. split; [|done].
    destruct (isLineOpeningTag _ (lit "text") && _); [by intros b [= <-] | done].
Qed.

Lemma scanFrom_TextOnly (u : Z) (lines : list jstring) :
  Forall (fun l => opensRawBlock l = false) lines ->
  forall (i : nat) (st : ScanState),
    TextOnly st ->
    TextOnly (scanFrom u i lines (List.map (fun l => analyzeLine l u) lines) st).
Proof.
  induction 1 as [|l lines Hl _ IH]; intros i st Hst; [done|].
  cbn [List.map scanFrom]. apply IH.
  unfold opensRawBlock in Hl. apply orb_false_elim in Hl as [H1 H2].
  apply scanLine_TextOnly; [| |done]; by rewrite trimStart_rest_analyzeLine.
Qed.

Lemma trace_scan_def (input : jstring) (o : FormatOptions) :
  trScan (trace input o)
  = scanFrom (trIndentSize (trace input o)) 0 (trLines (trace input o))
      (trLineInfos (trace input o)) (initialScan (length (trLines (trace input o)))).
Proof. reflexivity. Qed.

Lemma trace_text_blocks (input : jstring) (o : FormatOptions) :
  Forall (fun l => opensRawBlock l = false) (trLines (trace input o)) ->
  Forall (fun b => setHas RAW_TAGS (tagName b) = false) (trTextBlocks (trace input o)).
Proof.
  intros H.
  assert (Hs : TextOnly (trScan (trace input o))).
  { rewrite trace_scan_def, trace_lineInfos. apply scanFrom_TextOnly; [done|].
    by repeat split. }
  destruct Hs as (_ & Hc & Hb).
  rewrite trace_textBlocks. unfold finishScan. apply List.Forall_forall.
  assert (Ht : forall b, tagName b = lit "text" -> setHas RAW_TAGS (tagName b) = false)
    by (by intros b ->).
  destruct (inTextBlock _); [|intros b Hin; by apply Ht, Hb].
  destruct (currentTextBlock _) as [b0|] eqn:Eb; [|intros b Hin; by apply Ht, Hb].
  intros b Hin. apply in_app_or in Hin as [Hin | [<- | []]]; [by apply Ht, Hb|].
  simpl. by rewrite (Hc b0 eq_refl).
Qed.

(** ** The lines of the output when no raw block is re-indented *)

Lemma trace_final_width (input : jstring) (o : FormatOptions) (i : nat) :
  (i < length (trLines (trace input o)))%nat ->
  exists w : Z, indents (trArrays (trace input o)) !! i = Some (Some w).
Proof.
  intros Hn. destruct (trace_lengths input o) as [Hlen _].
  destruct (lookup_lt_is_Some_2 (trLineInfos (trace input o)) i) as [info Hi]; [lia|].
  destruct (lookup_lt_is_Some_2 (indents (trBlockArrays (trace input o))) i) as [x Hx].
  { rewrite trace_blockArrays, resolveBlocks_length.
    rewrite (inv_length _ _ _ _ _ (trace_scanInv input o)). done. }
  rewrite trace_arrays. cbn [indents withIndents].
  rewrite (fillUnresolved_lookup _ _ _ _ _ Hx Hi). eauto.
Qed.

Lemma renderLine_plain (arr : Arrays) (infos : list LineInfo) (n i : nat) (line : jstring)
    (info : LineInfo) (w : Z) :
  rawLineMeta arr = replicate n None -> indentAfterRazorPrefix arr = replicate n false ->
  infos !! i = Some info -> indents arr !! i = Some (Some w) ->
  renderLine arr infos i line = makeIndentedLine (rest info) w.
Proof.
  intros Hm Hp Hi Hw. unfold renderLine, isRawLine, indentAt. rewrite Hm, Hp, Hi, Hw.
  destruct (replicate n (@None RawLineMeta) !! i) as [x|] eqn:E1;
    [apply lookup_replicate in E1 as [-> _]|];
    (destruct (replicate n false !! i) as [y|] eqn:E2;
       [apply lookup_replicate in E2 as [-> _]|]); done.
Qed.

Lemma trace_plain_output (input : jstring) (o : FormatOptions) :
  adjustTextBlocks o = false
  \/ Forall (fun b => setHas RAW_TAGS (tagName b) = false) (trTextBlocks (trace input o)) ->
  (forall (i : nat) (info : LineInfo) (w : Z),
     trLineInfos (trace input o) !! i = Some info ->
     indents (trArrays (trace input o)) !! i = Some (Some w) ->
     trOutputLines (trace input o) !! i = Some (makeIndentedLine (rest info) w))
  /\ output (formatText input o)
     = join (trLineEnding (trace input o)) (trOutputLines (trace input o)).
Proof.
  intros H. destruct (trace_plain_arrays input o H) as [Hm Hp]. split.
  - intros i info w Hi Hw. rewrite trace_outputLines, list_lookup_imap.
    destruct (trace_lengths input o) as [Hlen _].
    destruct (lookup_lt_is_Some_2 (trLines (trace input o)) i) as [line Hl].
    { rewrite <- Hlen. by apply lookup_lt_Some in Hi. }
    rewrite Hl. cbn [fmap option_fmap option_map]. f_equal.
    by apply (renderLine_plain _ _ (length (trLines (trace input o)))).
  - rewrite formatText_output, trace_validation_ok, trace_spacedLines.
    unfold insertSwitchBlankLines.
    rewrite insertSwitchBlankLines_go_no_raw; [done|].
    intros j. unfold isRawLine. rewrite Hm.
    destruct (replicate _ (@None RawLineMeta) !! j) as [x|] eqn:E1; [|done].
    by apply lookup_replicate in E1 as [-> _].
Qed.

Lemma analyzeLine_regular (line : jstring) (u : Z) :
  regularLine line = true ->
  rest (analyzeLine line u) = dropWhile isSpace line
  /\ leadingWidth (analyzeLine line u) = countIndentWidth (takeWhile isSpace line) u.
Proof.
  unfold regularLine, analyzeLine, matchLeadingRest. by intros ->.
Qed.

Lemma analyzeLine_rendered (r : jstring) (w u : Z) :
  dropWhile isSpace r = r -> noLineTerminator r = true ->
  rest (analyzeLine (makeIndentedLine r w) u) = r
  /\ leadingWidth (analyzeLine (makeIndentedLine r w) u) = Z.max 0 w.
Proof.
  intros Ht Hlt. unfold analyzeLine, matchLeadingRest.
  rewrite makeIndentedLine_strip, Ht, Hlt. cbn [rest leadingWidth]. split; [done|].
  rewrite makeIndentedLine_leading by (by apply trimStart_head).
  rewrite countIndentWidth_formula, countTabs_spaces, length_spaces. lia.
Qed.

Lemma noLineTerminator_noLineBreak (s : jstring) :
  noLineTerminator s = true -> noLineBreak s = true.
Proof.
  unfold noLineTerminator, noLineBreak. induction s as [|c s IH]; [done|].
  cbn [forallb]. intros H. apply andb_prop in H as [Hc Hs]. rewrite (IH Hs), andb_true_r.
  unfold isLineTerminator in Hc. apply negb_true_iff in Hc.
  apply orb_false_elim in Hc as [Hc _]. apply orb_false_elim in Hc as [Hc _].
  apply orb_false_elim in Hc as [H1 H2]. unfold ch_lf, ch_cr. by rewrite H1, H2.
Qed.

Lemma noLineBreak_makeIndentedLine (r : jstring) (w : Z) :
  noLineTerminator r = true -> noLineBreak (makeIndentedLine r w) = true.
Proof.
  intros H. apply noLineTerminator_noLineBreak in H.
  unfold makeIndentedLine. destruct (w <=? 0); [done|].
  unfold noLineBreak in *. rewrite forallb_app, H, andb_true_r.
  unfold spaces. induction (Z.to_nat w) as [|k IH]; [done|]. exact IH.
Qed.

Lemma join_short (a b : jstring) (ls : list jstring) :
  (length ls <= 1)%nat -> join a ls = join b ls.
Proof. destruct ls as [|l [|l2 ls]]; simpl; [done | done | lia]. Qed.

Lemma lineEnding_cases (input : jstring) (o : FormatOptions) :
  trLineEnding (trace input o) = [ch_lf] \/ trLineEnding (trace input o) = CRLF.
Proof.
  change (trLineEnding (trace input o))
    with (if includes input CRLF then CRLF else [ch_lf]).
  destruct (includes input CRLF); [by right | by left].
Qed.

Lemma trace_lineEnding (input : jstring) (o : FormatOptions) :
  trLineEnding (trace input o) = snd (splitLines input).
Proof. reflexivity. Qed.

(** ** Widths are never negative *)

Lemma switchExtra_nonneg (a : bool) (d : option Z) (b c : bool) (u : Z) :
  0 <= u -> 0 <= switchExtra a d b c u.
Proof. intros H. unfold switchExtra. destruct (_ && _ && _ && _); lia. Qed.

Lemma docLineIndent_nonneg (u : Z) (st : ScanState) (line : jstring) (info : LineInfo) :
  0 <= u -> 0 <= docLineIndent u st line info.
Proof.
  intros H. unfold docLineIndent. cbv zeta.
  match goal with |- 0 <= Z.max 0 ?x * u + switchExtra ?a ?d ?b ?c u =>
    pose proof (switchExtra_nonneg a d b c u H); pose proof (Z.le_max_l 0 x)
  end. nia.
Qed.

Lemma scanLine_widths (u : Z) (i : nat) (line : jstring) (info : LineInfo) (st : ScanState) :
  0 <= u -> Forall nonnegWidth (desiredIndents st) ->
  Forall nonnegWidth (desiredIndents (scanLine u i line info st)).
Proof.
  intros Hu H.
  destruct (closeCapture_cases i line info st) as (_ & _ & _ & _ & _ & Hd & _).
  unfold scanLine. destruct (_ || _); cbn [desiredIndents]; rewrite Hd.
  - by apply Forall_insert.
  - apply Forall_insert; [done|]. by apply docLineIndent_nonneg.
Qed.

Lemma scanFrom_widths (u : Z) (lines : list jstring) :
  0 <= u ->
  forall (infos : list LineInfo) (i : nat) (st : ScanState),
    Forall nonnegWidth (desiredIndents st) ->
    Forall nonnegWidth (desiredIndents (scanFrom u i lines infos st)).
Proof.
  intros Hu. induction lines as [|l lines IH]; intros [|x infos] i st H; try done.
  cbn [scanFrom]. apply IH. by apply scanLine_widths.
Qed.

Lemma openedBlock_parent (trimmed : jstring) (i : nat) (lv : Z) (b : TextBlock) :
  openedBlock trimmed i lv = Some b -> 0 <= parentLevel b.
Proof.
  unfold openedBlock.
  repeat (destruct (opensTag trimmed _); [intros [= <-]; simpl; lia|]).
  done.
Qed.

Lemma closeCapture_ParentNonneg (i : nat) (line : jstring) (info : LineInfo)
    (st : ScanState) :
  ParentNonneg st -> ParentNonneg (closeCapture i line info st).
Proof.
  intros [Hc Hb]. unfold ParentNonneg.
  destruct (closeCapture_cases i line info st)
    as (_ & _ & _ & _ & _ & _ & [[E1 E2] | (b & Eb & E1 & E2)] & _);
    rewrite E1, E2.
  - by split.
  - split; [done|]. intros b' Hin.
    apply in_app_or in Hin as [Hin | [<- | []]]; [by apply Hb|]. simpl. by apply Hc.
Qed.

Lemma scanLine_ParentNonneg (u : Z) (i : nat) (line : jstring) (info : LineInfo)
    (st : ScanState) :
  ParentNonneg st -> ParentNonneg (scanLine u i line info st).
Proof.
  intros Hst. pose proof (closeCapture_ParentNonneg i line info st Hst) as [Hc Hb].
  unfold scanLine. destruct (_ || _); [by split|].
  cbv zeta. split; cbn [currentTextBlock textBlocks]; [|done].
  destruct (openedBlock _ _ _) as [b0|] eqn:E; [|done].
  intros b [= <-]. by eapply openedBlock_parent.
Qed.

Lemma scanFrom_ParentNonneg (u : Z) (lines : list jstring) :
  forall (infos : list LineInfo) (i : nat) (st : ScanState),
    ParentNonneg st -> ParentNonneg (scanFrom u i lines infos st).
Proof.
  induction lines as [|l lines IH]; intros [|x infos] i st H; try done.
  cbn [scanFrom]. apply IH. by apply scanLine_ParentNonneg.
Qed.

Lemma finishScan_parent (n : nat) (st : ScanState) :
  ParentNonneg st -> forall b, In b (finishScan n st) -> 0 <= parentLevel b.
Proof.
  intros [Hc Hb]. unfold finishScan.
  destruct (inTextBlock st); [|done].
  destruct (currentTextBlock st) as [b0|]; [|done].
  intros b Hin. apply in_app_or in Hin as [Hin | [<- | []]]; [by apply Hb|].
  simpl. by apply Hc.
Qed.

Lemma analyzeLine_width_nonneg (line : jstring) (u : Z) :
  0 <= u -> 0 <= leadingWidth (analyzeLine line u).
Proof.
  intros Hu. unfold analyzeLine. destruct (matchLeadingRest line) as [[l r]|]; simpl; [|lia].
  by apply countIndentWidth_nonneg.
Qed.

Lemma restoreLines_widths (infos : list LineInfo) (range : list nat) :
  Forall (fun info => 0 <= leadingWidth info) infos ->
  forall d : list (option Z),
    Forall nonnegWidth d -> Forall nonnegWidth (restoreLines infos range d).
Proof.
  intros Hi. induction range as [|j range IH]; intros d Hd; [done|].
  cbn [restoreLines]. destruct (infos !! j) as [info|] eqn:E; [|done].
  apply IH, Forall_insert; [done|].
  rewrite Forall_lookup in Hi. by apply (Hi j).
Qed.

Lemma groupBase_nonneg (u : Z) (isRaw : bool) (bs : BlockState) (r : jstring) :
  GroupNonneg bs -> 0 <= groupBase bs (analyzeBlockLine u isRaw bs r).
Proof.
  unfold GroupNonneg, groupBase. destruct (razorTextGroupBaseLevel bs); [done|].
  intros _. cbn [analyzeBlockLine blEffectiveLevel]. lia.
Qed.

Lemma blockNextState_group (u : Z) (isRaw : bool) (bs : BlockState) (r : jstring) :
  GroupNonneg bs -> GroupNonneg (blockNextState u isRaw bs r).
Proof.
  intros H. pose proof (groupBase_nonneg u isRaw bs r H) as Hg.
  unfold blockNextState. destruct (isEmpty r); [done|].
  cbv zeta. unfold GroupNonneg. cbn [razorTextGroupBaseLevel].
  destruct (isRaw && _); [done|]. by destruct isRaw.
Qed.

Lemma blExtra_nonneg (u : Z) (isRaw : bool) (bs : BlockState) (r : jstring) :
  0 <= u -> 0 <= blExtra (analyzeBlockLine u isRaw bs r).
Proof. intros H. cbn [analyzeBlockLine blExtra]. by apply switchExtra_nonneg. Qed.

Lemma blEffectiveLevel_nonneg (u : Z) (isRaw : bool) (bs : BlockState) (r : jstring) :
  0 <= blEffectiveLevel (analyzeBlockLine u isRaw bs r).
Proof. cbn [analyzeBlockLine blEffectiveLevel]. lia. Qed.

Lemma blockLineIndent_nonneg (u base : Z) (isRaw : bool) (bs : BlockState) (r : jstring) :
  0 <= u -> 0 <= base -> GroupNonneg bs -> 0 <= blockLineIndent u base isRaw bs r.
Proof.
  intros Hu Hb Hg. unfold blockLineIndent. destruct (isEmpty r); [lia|]. cbv zeta.
  pose proof (groupBase_nonneg u isRaw bs r Hg).
  pose proof (blExtra_nonneg u isRaw bs r Hu).
  pose proof (blEffectiveLevel_nonneg u isRaw bs r).
  destruct (isRaw && _); nia.
Qed.

Lemma blockContentIndent_nonneg (u : Z) (isRaw : bool) (bs : BlockState) (r : jstring) :
  0 <= u -> 0 <= blockContentIndent u bs (analyzeBlockLine u isRaw bs r).
Proof.
  intros Hu. unfold blockContentIndent. pose proof (blExtra_nonneg u isRaw bs r Hu). lia.
Qed.

Lemma blockWrite_nonneg (u base : Z) (isRaw : bool) (bs : BlockState) (j : nat)
    (r : jstring) (arr : Arrays) :
  0 <= u -> 0 <= base -> GroupNonneg bs ->
  ArraysNonneg arr -> ArraysNonneg (blockWrite u base isRaw bs j r arr).
Proof.
  intros Hu Hb Hg [Hi Hc].
  pose proof (blockLineIndent_nonneg u base isRaw bs r Hu Hb Hg) as Hw.
  pose proof (blockContentIndent_nonneg u isRaw bs r Hu) as Hci.
  unfold blockWrite, ArraysNonneg. destruct (isEmpty r);
    cbn [indents razorTextContentIndents].
  - split; [by apply Forall_insert | done].
  - split; [by apply Forall_insert|].
    destruct (isRaw && _); [by apply Forall_insert | done].
Qed.

Lemma reindentLines_nonneg (u base : Z) (isRaw : bool) (infos : list LineInfo)
    (range : list nat) :
  0 <= u -> 0 <= base ->
  forall (bs : BlockState) (arr : Arrays),
    GroupNonneg bs -> ArraysNonneg arr ->
    ArraysNonneg (reindentLines u base isRaw infos range bs arr).
Proof.
  intros Hu Hb. induction range as [|j range IH]; intros bs arr Hg Ha; [done|].
  cbn [reindentLines]. destruct (infos !! j) as [info|]; [|done].
  apply IH; [by apply blockNextState_group | by apply blockWrite_nonneg].
Qed.

Lemma applyBlock_nonneg (u : Z) (infos : list LineInfo) (arr : Arrays) (b : TextBlock) :
  0 <= u -> 0 <= parentLevel b ->
  Forall (fun info => 0 <= leadingWidth info) infos ->
  ArraysNonneg arr -> ArraysNonneg (applyBlock u infos arr b).
Proof.
  intros Hu Hp Hi [Ha Hc].
  assert (Hrestore : ArraysNonneg
            (withIndents (applySingleTextBlockOriginalIndent b (indents arr) infos) arr)).
  { split; [|done]. by apply restoreLines_widths. }
  unfold applyBlock. destruct (_ || _); [done|]. cbv zeta.
  destruct (_ && _); [done|].
  apply reindentLines_nonneg; [done | | done | by split].
  unfold blockBaseIndent. destruct (_ && _); nia.
Qed.

Lemma applyTextBlockIndentation_nonneg (u : Z) (infos : list LineInfo)
    (blocks : list TextBlock) :
  0 <= u -> (forall b, In b blocks -> 0 <= parentLevel b) ->
  Forall (fun info => 0 <= leadingWidth info) infos ->
  forall arr : Arrays,
    ArraysNonneg arr -> ArraysNonneg (applyTextBlockIndentation blocks arr infos u).
Proof.
  intros Hu Hp Hi. unfold applyTextBlockIndentation.
  induction blocks as [|b blocks IH]; intros arr Ha; [done|].
  cbn [fold_left]. apply IH.
  - intros b' Hb'. apply Hp. by right.
  - apply applyBlock_nonneg; [done | apply Hp; by left | done | done].
Qed.

Lemma applyTextBlockOriginalIndent_nonneg (infos : list LineInfo)
    (blocks : list TextBlock) :
  Forall (fun info => 0 <= leadingWidth info) infos ->
  forall d : list (option Z),
    Forall nonnegWidth d -> Forall nonnegWidth (applyTextBlockOriginalIndent blocks d infos).
Proof.
  intros Hi. unfold applyTextBlockOriginalIndent.
  induction blocks as [|b blocks IH]; intros d Hd; [done|].
  cbn [fold_left]. apply IH. by apply restoreLines_widths.
Qed.

Lemma fillUnresolved_resolved (d : list (option Z)) :
  forall infos : list LineInfo,
    length infos = length d ->
    Forall (fun info => 0 <= leadingWidth info) infos ->
    Forall nonnegWidth d -> Forall resolvedWidth (fillUnresolved d infos).
Proof.
  induction d as [|x d IH]; intros [|info infos] Hlen Hi Hd; try done.
  inversion Hi; subst. inversion Hd; subst. cbn [fillUnresolved].
  constructor; [by destruct x|]. apply IH; [by injection Hlen | done | done].
Qed.

Lemma trace_arrays_nonneg (input : jstring) (o : FormatOptions) :
  Forall resolvedWidth (indents (trArrays (trace input o)))
  /\ Forall (fun c => 0 <= c) (razorTextContentIndents (trArrays (trace input o))).
Proof.
  pose proof (sanitizeIndentSize_nonneg (indentSize o)) as Hu.
  rewrite <- (trace_indentSize input o) in Hu.
  assert (Hi : Forall (fun info => 0 <= leadingWidth info) (trLineInfos (trace input o))).
  { rewrite trace_lineInfos. apply List.Forall_forall. intros info Hin.
    apply in_map_iff in Hin as (l & <- & _). by apply analyzeLine_width_nonneg. }
  assert (Hd : Forall nonnegWidth (desiredIndents (trScan (trace input o)))).
  { rewrite trace_scan_def. apply scanFrom_widths; [done|].
    apply Forall_replicate. done. }
  assert (Hp : forall b, In b (trTextBlocks (trace input o)) -> 0 <= parentLevel b).
  { rewrite trace_textBlocks, trace_scan_def. apply finishScan_parent.
    apply scanFrom_ParentNonneg. by split. }
  assert (Ha : ArraysNonneg (trBlockArrays (trace input o))).
  { rewrite trace_blockArrays. unfold resolveBlocks.
    assert (H0 : ArraysNonneg
              (initialArrays (desiredIndents (trScan (trace input o)))
                 (length (trLines (trace input o))))).
    { split; [done|]. apply Forall_replicate. simpl. lia. }
    destruct (adjustTextBlocks o).
    - by apply applyTextBlockIndentation_nonneg.
    - split; [|apply H0]. by apply applyTextBlockOriginalIndent_nonneg. }
  destruct Ha as [Ha Hc]. rewrite trace_arrays.
  cbn [indents razorTextContentIndents withIndents]. split; [|done].
  apply fillUnresolved_resolved; [|done|done].
  rewrite trace_blockArrays, resolveBlocks_length.
  rewrite (inv_length _ _ _ _ _ (trace_scanInv input o)).
  apply (proj1 (trace_lengths input o)).
Qed.

(** X22.  No line ever gets a negative width: after the last pass every
    entry of [desiredIndents] is resolved to a width that is not negative,
    and so is every content indent of a [@:] line.  The calls of [repeat]
    that build the indentation therefore never receive a negative count. *)
Theorem widths_never_negative (input : jstring) (options : FormatOptions) :
  Forall resolvedWidth (indents (trArrays (trace input options)))
  /\ Forall (fun c => 0 <= c) (razorTextContentIndents (trArrays (trace input options)))
  /\ 0 <= trIndentSize (trace input options).
Proof.
  destruct (trace_arrays_nonneg input options) as [H1 H2].
  split; [done|]. split; [done|]. rewrite trace_indentSize. apply sanitizeIndentSize_nonneg.
Qed.

(** X23.  Every line in which no line terminator follows the leading white
    space is rendered with exactly its final width in spaces before its
    first unit that is not white space: no tab and no other white space of
    the input survives at the start of such a line. *)
Theorem rendered_leading_is_spaces (input : jstring) (options : FormatOptions) (i : nat)
    (line : jstring) :
  trLines (trace input options) !! i = Some line ->
  regularLine line = true ->
  exists (w : Z) (out : jstring),
    indents (trArrays (trace input options)) !! i = Some (Some w)
    /\ 0 <= w
    /\ trOutputLines (trace input options) !! i = Some out
    /\ takeWhile isSpace out = spaces w.
Proof.
  intros Hl Hr.
  destruct (trace_final_width input options i) as [w Hw]; [by apply lookup_lt_Some in Hl|].
  destruct (trace_arrays_nonneg input options) as [Hnn _].
  rewrite Forall_lookup in Hnn. pose proof (Hnn i _ Hw) as Hw0. simpl in Hw0.
  exists w. eexists. split; [done|]. split; [done|]. split.
  - rewrite trace_outputLines, list_lookup_imap, Hl. reflexivity.
  - rewrite trace_lineInfos. rewrite (renderLine_leading _ _ _ i line Hl Hr).
    unfold indentAt. by rewrite Hw.
Qed.

Lemma rendered_leading_is_spaces_witness :
  exists (w : Z) (out : jstring),
    indents (trArrays (trace unclosedScriptDoc (opts 4))) !! 2%nat = Some (Some w)
    /\ 0 <= w
    /\ trOutputLines (trace unclosedScriptDoc (opts 4)) !! 2%nat = Some out
    /\ takeWhile isSpace out = spaces w.
Proof.
  apply (rendered_leading_is_spaces unclosedScriptDoc (opts 4) 2
           ([ch_tab] ++ lit "  x();")); reflexivity.
Defined.

(** ** Formatting the output again *)

Lemma lookup_map_Some {A B : Type} (f : A -> B) (l : list A) (i : nat) (y : B) :
  List.map f l !! i = Some y -> exists x, l !! i = Some x /\ y = f x.
Proof.
  change (List.map f l) with (f <$> l). rewrite list_lookup_fmap.
  destruct (l !! i) as [x|]; [|done]. intros [= <-]. by exists x.
Qed.

Lemma lookup_map_of {A B : Type} (f : A -> B) (l : list A) (i : nat) (x : A) :
  l !! i = Some x -> List.map f l !! i = Some (f x).
Proof.
  intros H. change (List.map f l) with (f <$> l). by rewrite list_lookup_fmap, H.
Qed.

Lemma analyzeLine_rest_rel (u : Z) (ls ls' : list jstring) :
  Forall2 (fun l l' => dropWhile isSpace l = dropWhile isSpace l') ls ls' ->
  Forall (fun l => regularLine l = true) ls ->
  Forall2 (fun l l' => rest (analyzeLine l u) = rest (analyzeLine l' u)) ls ls'.
Proof.
  induction 1 as [|l l' ls ls' Hll Hls IH]; intros H2; [constructor|].
  inversion H2 as [|? ? Hl H2']; subst.
  assert (Hl' : regularLine l' = true).
  { unfold regularLine in *. by rewrite <- Hll. }
  constructor; [|by apply IH].
  destruct (analyzeLine_regular l u Hl) as [-> _].
  by destruct (analyzeLine_regular l' u Hl') as [-> _].
Qed.

Section Twice.

Variable input : jstring.
Variable o : FormatOptions.

Hypothesis Hreg : Forall (fun l => regularLine l = true) (trLines (trace input o)).
Hypothesis Hplain :
  adjustTextBlocks o = false
  \/ Forall (fun l => opensRawBlock l = false) (trLines (trace input o)).

Lemma first_plain :
  adjustTextBlocks o = false
  \/ Forall (fun b => setHas RAW_TAGS (tagName b) = false) (trTextBlocks (trace input o)).
Proof. destruct Hplain as [H|H]; [by left | right; by apply trace_text_blocks]. Qed.

Lemma first_info (i : nat) (line : jstring) :
  trLines (trace input o) !! i = Some line ->
  regularLine line = true
  /\ trLineInfos (trace input o) !! i
     = Some (analyzeLine line (sanitizeIndentSize (indentSize o)))
  /\ rest (analyzeLine line (sanitizeIndentSize (indentSize o))) = dropWhile isSpace line.
Proof.
  intros Hl.
  assert (Hr : regularLine line = true).
  { rewrite List.Forall_forall in Hreg. apply Hreg, list_elem_of_In.
    by eapply list_elem_of_lookup_2. }
  split; [done|]. split.
  - rewrite trace_lineInfos, trace_indentSize.
    exact (lookup_map_of (fun l => analyzeLine l (sanitizeIndentSize (indentSize o)))
             _ i line Hl).
  - by apply analyzeLine_regular.
Qed.

Lemma first_output_line (i : nat) (line : jstring) :
  trLines (trace input o) !! i = Some line ->
  exists w : Z,
    indents (trArrays (trace input o)) !! i = Some (Some w)
    /\ trOutputLines (trace input o) !! i
       = Some (makeIndentedLine (dropWhile isSpace line) w).
Proof.
  intros Hl. destruct (first_info i line Hl) as (Hr & Hi & Hrest).
  destruct (trace_final_width input o i) as [w Hw]; [by apply lookup_lt_Some in Hl|].
  exists w. split; [done|].
  destruct (trace_plain_output input o first_plain) as [Hout _].
  rewrite (Hout i _ w Hi Hw). by rewrite Hrest.
Qed.

Lemma first_output_length :
  length (trOutputLines (trace input o)) = length (trLines (trace input o)).
Proof. by rewrite trace_outputLines, length_imap. Qed.

Lemma first_output_rel :
  Forall2 (fun l l' => dropWhile isSpace l' = dropWhile isSpace l
                       /\ noLineBreak l' = true)
    (trLines (trace input o)) (trOutputLines (trace input o)).
Proof.
  apply Forall2_same_length_lookup_2; [by rewrite first_output_length|].
  intros i l l' Hl Hl'.
  destruct (first_output_line i l Hl) as (w & _ & Hout).
  rewrite Hout in Hl'. injection Hl' as <-.
  destruct (first_info i l Hl) as (Hr & _ & _).
  split.
  - by rewrite makeIndentedLine_strip, dropWhile_idem.
  - by apply noLineBreak_makeIndentedLine.
Qed.

Lemma first_output :
  output (formatText input o)
  = join (trLineEnding (trace input o)) (trOutputLines (trace input o)).
Proof. by destruct (trace_plain_output input o first_plain) as [_ H]. Qed.

Lemma second_lines :
  trLines (trace (output (formatText input o)) o) = trOutputLines (trace input o).
Proof.
  rewrite trace_lines, first_output. apply splitOnNewlines_join.
  - apply lineEnding_cases.
  - intros E. apply (f_equal (@length jstring)) in E.
    rewrite first_output_length, trace_lines in E.
    pose proof (splitOnNewlines_nonempty input) as Hne.
    destruct (splitOnNewlines input); [done | done].
  - eapply Forall2_Forall_r; [apply first_output_rel|].
    apply Forall_true. by intros l l' [_ H].
Qed.

Lemma second_lines_rel :
  Forall2 (fun l l' => dropWhile isSpace l = dropWhile isSpace l')
    (trLines (trace (output (formatText input o)) o)) (trLines (trace input o)).
Proof.
  rewrite second_lines. apply Forall2_flip.
  eapply Forall2_impl; [apply first_output_rel|]. by intros l l' [H _].
Qed.

Lemma second_regular :
  Forall (fun l => regularLine l = true) (trLines (trace (output (formatText input o)) o)).
Proof.
  eapply Forall2_Forall_l; [apply second_lines_rel|].
  eapply Forall_impl; [apply Hreg|].
  intros l' Hl' l Hll. unfold regularLine in *. by rewrite Hll.
Qed.

Lemma second_infos_rel :
  Forall2 (fun x x' => rest x = rest x')
    (trLineInfos (trace (output (formatText input o)) o)) (trLineInfos (trace input o)).
Proof.
  rewrite !trace_lineInfos, !trace_indentSize.
  change (Forall2 (fun x x' => rest x = rest x')
            ((fun l => analyzeLine l (sanitizeIndentSize (indentSize o)))
               <$> trLines (trace (output (formatText input o)) o))
            ((fun l => analyzeLine l (sanitizeIndentSize (indentSize o)))
               <$> trLines (trace input o))).
  apply Forall2_fmap. apply analyzeLine_rest_rel; [apply second_lines_rel|].
  apply second_regular.
Qed.

Lemma second_length :
  length (trLines (trace (output (formatText input o)) o))
  = length (trLines (trace input o)).
Proof. by rewrite second_lines, first_output_length. Qed.

Lemma second_scan :
  trScan (trace (output (formatText input o)) o) = trScan (trace input o).
Proof.
  rewrite !trace_scan_def, !trace_indentSize, second_length.
  apply scanFrom_cong; [apply second_lines_rel | apply second_infos_rel].
Qed.

Lemma second_blocks :
  trTextBlocks (trace (output (formatText input o)) o) = trTextBlocks (trace input o).
Proof. by rewrite !trace_textBlocks, second_scan, second_length. Qed.

Lemma second_plain :
  adjustTextBlocks o = false
  \/ Forall (fun b => setHas RAW_TAGS (tagName b) = false)
       (trTextBlocks (trace (output (formatText input o)) o)).
Proof. rewrite second_blocks. apply first_plain. Qed.

Lemma second_captured (i : nat) :
  Captured (trIndentSize (trace (output (formatText input o)) o))
    (trLines (trace (output (formatText input o)) o))
    (trLineInfos (trace (output (formatText input o)) o)) i
  = Captured (trIndentSize (trace input o)) (trLines (trace input o))
      (trLineInfos (trace input o)) i.
Proof.
  rewrite !trace_indentSize.
  apply Captured_cong; [apply second_lines_rel | apply second_infos_rel].
Qed.

(** The second pass reads the width the first pass gave a line. *)
Lemma second_info (i : nat) (line : jstring) (w : Z) :
  trLines (trace input o) !! i = Some line ->
  indents (trArrays (trace input o)) !! i = Some (Some w) ->
  exists info2 : LineInfo,
    trLineInfos (trace (output (formatText input o)) o) !! i = Some info2
    /\ trLines (trace (output (formatText input o)) o) !! i
       = Some (makeIndentedLine (dropWhile isSpace line) w)
    /\ rest info2 = dropWhile isSpace line
    /\ leadingWidth info2 = Z.max 0 w.
Proof.
  intros Hl Hw. destruct (first_output_line i line Hl) as (w' & Hw' & Hout).
  rewrite Hw in Hw'. injection Hw' as <-.
  destruct (first_info i line Hl) as (Hr & _ & _).
  exists (analyzeLine (makeIndentedLine (dropWhile isSpace line) w)
            (sanitizeIndentSize (indentSize o))).
  rewrite trace_lineInfos, trace_indentSize, second_lines.
  split; [|split; [done|]].
  - exact (lookup_map_of (fun l => analyzeLine l (sanitizeIndentSize (indentSize o)))
             _ i _ Hout).
  - apply analyzeLine_rendered; [apply dropWhile_idem | exact Hr].
Qed.

Lemma first_width_nonneg (i : nat) (line : jstring) :
  trLines (trace input o) !! i = Some line ->
  0 <= leadingWidth (analyzeLine line (sanitizeIndentSize (indentSize o))).
Proof.
  intros Hl. destruct (first_info i line Hl) as (Hr & _ & _).
  destruct (analyzeLine_regular line (sanitizeIndentSize (indentSize o)) Hr) as [_ ->].
  apply countIndentWidth_nonneg, sanitizeIndentSize_nonneg.
Qed.

Lemma second_width (i : nat) :
  indents (trArrays (trace (output (formatText input o)) o)) !! i
  = indents (trArrays (trace input o)) !! i.
Proof.
  destruct (trLines (trace input o) !! i) as [line|] eqn:Hl.
  2:{ apply lookup_ge_None in Hl.
      rewrite (proj2 (lookup_ge_None _ _)), (proj2 (lookup_ge_None _ _)); [done | |].
      - by rewrite (proj2 (trace_lengths input o)).
      - by rewrite (proj2 (trace_lengths _ o)), second_length. }
  destruct (first_info i line Hl) as (Hr & Hi & Hrest).
  destruct (trace_final_width input o i) as [w Hw]; [by apply lookup_lt_Some in Hl|].
  destruct (second_info i line w Hl Hw) as (info2 & Hi2 & Hl2 & Hrest2 & Hw2).
  pose proof (first_width_nonneg i line Hl) as Hnn.
  pose proof first_plain as Hfp. pose proof second_infos_rel as Hir.
  set (info := analyzeLine line (sanitizeIndentSize (indentSize o))) in *.
  assert (Hrr : rest info2 = rest info) by (by rewrite Hrest, Hrest2).
  assert (Hrestore :
    indents (trArrays (trace input o)) !! i = Some (Some (leadingWidth info)) ->
    leadingWidth info2 = leadingWidth info).
  { intros E. rewrite Hw in E. injection E as ->. rewrite Hw2. lia. }
  destruct (Captured (trIndentSize (trace input o)) (trLines (trace input o))
              (trLineInfos (trace input o)) i) eqn:Ecap.
  - destruct (block_of_line (trTextBlocks (trace input o)) i) as [(b & Hb & Hrange) | Hout].
    + assert (Hb2 : In b (trTextBlocks (trace (output (formatText input o)) o)))
        by (by rewrite second_blocks).
      replace i with (startLine b + (i - startLine b))%nat in Hi, Hi2, Hrestore |- * by lia.
      rewrite (trace_block_line _ o b (i - startLine b) info2 Hb2) by (done || lia).
      rewrite (trace_block_line input o b (i - startLine b) info Hb) by (done || lia).
      rewrite (trace_block_line input o b (i - startLine b) info Hb) in Hrestore
        by (done || lia).
      destruct (adjustTextBlocks o) eqn:Ea.
      * destruct Hfp as [|Hraw]; [done|].
        rewrite List.Forall_forall in Hraw. specialize (Hraw b Hb).
        unfold blockValue in *. rewrite Hraw in *. cbn [andb orb] in *.
        rewrite orb_false_r in *.
        destruct (skip b).
        -- by rewrite Hrestore.
        -- rewrite !trace_indentSize, Hrr.
           by rewrite (blockStateAt_cong _ false _ _ Hir).
      * by rewrite Hrestore.
    + rewrite (trace_outside_blocks input o i info Hi Ecap Hout).
      rewrite (trace_outside_blocks _ o i info2 Hi2).
      * rewrite Hrestore; [done|]. by apply trace_outside_blocks.
      * by rewrite second_captured.
      * by rewrite second_blocks.
  - rewrite (trace_document_line input o i line info Hl Hi Ecap).
    rewrite (trace_document_line _ o i _ info2 Hl2 Hi2) by (by rewrite second_captured).
    do 2 f_equal. rewrite !trace_indentSize.
    rewrite (scanPrefix_cong _ _ _ _ _ i second_lines_rel second_infos_rel).
    apply docLineIndent_cong; [done|].
    by rewrite makeIndentedLine_strip, dropWhile_idem.
Qed.

Lemma second_output_lines :
  trOutputLines (trace (output (formatText input o)) o) = trOutputLines (trace input o).
Proof.
  apply list_eq. intros i.
  destruct (trLines (trace input o) !! i) as [line|] eqn:Hl.
  - destruct (first_output_line i line Hl) as (w & Hw & Hout).
    destruct (second_info i line w Hl Hw) as (info2 & Hi2 & _ & Hrest2 & _).
    destruct (trace_plain_output _ o second_plain) as [Hout2 _].
    rewrite (Hout2 i info2 w Hi2) by (by rewrite second_width).
    by rewrite Hout, Hrest2.
  - apply lookup_ge_None in Hl.
    rewrite (proj2 (lookup_ge_None _ _)), (proj2 (lookup_ge_None _ _)); [done | |].
    + by rewrite first_output_length.
    + by rewrite trace_outputLines, length_imap, second_length.
Qed.

Lemma second_output :
  output (formatText (output (formatText input o)) o) = output (formatText input o).
Proof.
  destruct (trace_plain_output _ o second_plain) as [_ ->].
  rewrite second_output_lines. rewrite first_output at 2.
  destruct (decide (length (trOutputLines (trace input o)) <= 1)%nat) as [Hs|Hs];
    [by apply join_short|].
  f_equal. rewrite trace_lineEnding, first_output.
  rewrite splitLines_of_join_eq; [done | apply lineEnding_cases | lia |].
  eapply Forall2_Forall_r; [apply first_output_rel|].
  apply Forall_true. by intros l l' [_ H].
Qed.

Lemma changeRecords_none (infos : list LineInfo) (d : list (option Z)) :
  forall i : nat,
    (forall (k : nat) (info : LineInfo),
       infos !! k = Some info ->
       indentAt d (i + k) (leadingWidth info) = leadingWidth info) ->
    changeRecords i infos d = [].
Proof.
  induction infos as [|info infos IH]; intros i H; [done|].
  cbn [changeRecords]. pose proof (H 0%nat info eq_refl) as H0.
  rewrite Nat.add_0_r in H0. rewrite H0, Z.eqb_refl.
  apply IH. intros k x Hk. replace (S i + k)%nat with (i + S k)%nat by lia.
  by apply H.
Qed.

Lemma second_logs :
  logs (formatText (output (formatText input o)) o) = [VALIDATION_OK].
Proof.
  unfold formatText at 1. unfold finishFormat. rewrite trace_validation_ok.
  cbn [negb logs app length Nat.eqb]. f_equal.
  apply changeRecords_none. intros k info2 Hk. rewrite Nat.add_0_l.
  assert (Hn : (k < length (trLines (trace input o)))%nat).
  { rewrite <- second_length, <- (proj1 (trace_lengths _ o)).
    by apply lookup_lt_Some in Hk. }
  destruct (lookup_lt_is_Some_2 _ _ Hn) as [line Hl].
  destruct (trace_final_width input o k Hn) as [w Hw].
  destruct (second_info k line w Hl Hw) as (info2' & Hi2 & _ & _ & Hlw).
  rewrite Hk in Hi2. injection Hi2 as <-.
  destruct (trace_arrays_nonneg input o) as [Hnn _].
  rewrite Forall_lookup in Hnn. pose proof (Hnn k _ Hw) as Hw0. simpl in Hw0.
  unfold indentAt. rewrite second_width, Hw, Hlw. lia.
Qed.

End Twice.

(** X24.  Formatting is idempotent on the documents whose lines hold no
    stray line terminator, as long as no raw block is re-indented: if no
    line terminator follows the leading white space of any line, and either
    the adjustment of blocks is switched off or no line opens a [script] or
    [style] block, then formatting the output of [formatText] again gives
    the same output, and the log of that second pass reports no change of
    width. *)
Theorem formatText_idempotent (input : jstring) (options : FormatOptions) :
  Forall (fun l => regularLine l = true) (fst (splitLines input)) ->
  adjustTextBlocks options = false
  \/ Forall (fun l => opensRawBlock l = false) (fst (splitLines input)) ->
  output (formatText (output (formatText input options)) options)
  = output (formatText input options)
  /\ logs (formatText (output (formatText input options)) options) = [VALIDATION_OK].
Proof.
  intros Hreg Hplain. split.
  - by apply second_output.
  - by apply second_logs.
Qed.

Lemma formatText_idempotent_witness :
  output (formatText (output (formatText textBlockDoc (opts 4))) (opts 4))
  = output (formatText textBlockDoc (opts 4))
  /\ logs (formatText (output (formatText textBlockDoc (opts 4))) (opts 4))
     = [VALIDATION_OK].
Proof.
  apply (formatText_idempotent textBlockDoc (opts 4)).
  - repeat constructor.
  - right. repeat constructor.
Defined.

Example text_block_output :
  output (formatText textBlockDoc (opts 4))
  = doc ["<div>"; "    <text>"; "        if (a) {"; "            x();"; "        }";
         "    </text>"; "</div>"]%string.
Proof. vm_compute. reflexivity. Qed.

(** ** The choice of a decoder *)

Lemma scoreLoop_counts (text : jstring) (jp ctl : Z) :
  scoreLoop text jp ctl
  = (jp + fst (scoreLoop text 0 0), ctl + snd (scoreLoop text 0 0)).
Proof.
  revert jp ctl; induction text as [|c text IH]; intros jp ctl; simpl.
  - f_equal; lia.
  - destruct (c =? 65533)%N; [apply IH|].
    destruct (isControl c).
    + rewrite (IH jp (ctl + 1)), (IH 0 (0 + 1)). simpl. f_equal; lia.
    + destruct (isJapanese c); [|apply IH].
      rewrite (IH (jp + 1) ctl), (IH (0 + 1) 0). simpl. f_equal; lia.
Qed.

Lemma scoreLoop_app (a b : jstring) (jp ctl : Z) :
  scoreLoop (a ++ b) jp ctl
  = scoreLoop b (fst (scoreLoop a jp ctl)) (snd (scoreLoop a jp ctl)).
Proof.
  revert jp ctl; induction a as [|c a IH]; intros jp ctl; simpl; [done|].
  destruct (c =? 65533)%N; [apply IH|].
  destruct (isControl c); [apply IH|]. destruct (isJapanese c); apply IH.
Qed.

Lemma scoreLoop_bounds (text : jstring) :
  0 <= fst (scoreLoop text 0 0) /\ 0 <= snd (scoreLoop text 0 0)
  /\ fst (scoreLoop text 0 0) + snd (scoreLoop text 0 0) <= Z.of_nat (length text).
Proof.
  induction text as [|c text IH]; cbn [scoreLoop length]; [simpl; lia|].
  rewrite Nat2Z.inj_succ.
  destruct (c =? 65533)%N; [lia|].
  destruct (isControl c).
  - rewrite scoreLoop_counts. simpl. lia.
  - destruct (isJapanese c); [|lia]. rewrite scoreLoop_counts. simpl. lia.
Qed.

(** X25.  [scoreDecodedText] adds up over a text: two points for every
    Japanese character, two points off for every control character other
    than tab, line feed and carriage return, nothing for any other code
    unit; a replacement costs five points once.  The score of a text without
    a replacement lies between minus twice and twice its length. *)
Theorem scoreDecodedText_sum (a b : jstring) :
  scoreDecodedText (a ++ b) false = scoreDecodedText a false + scoreDecodedText b false
  /\ scoreDecodedText a true = scoreDecodedText a false - 5
  /\ - 2 * Z.of_nat (length a) <= scoreDecodedText a false <= 2 * Z.of_nat (length a).
Proof.
  unfold scoreDecodedText. split; [|split].
  - rewrite scoreLoop_app, (scoreLoop_counts b).
    destruct (scoreLoop a 0 0) as [ja ca], (scoreLoop b 0 0) as [jb cb]. simpl. lia.
  - by destruct (scoreLoop a 0 0).
  - pose proof (scoreLoop_bounds a) as H.
    destruct (scoreLoop a 0 0) as [ja ca]. simpl in *. lia.
Qed.

(** X26.  [detectEncoding] returns a candidate with the highest score, and
    among candidates with the same score the first in the order utf-8,
    shift_jis, euc-jp: no candidate scores more than the one returned, and
    every candidate before it scores strictly less.  This holds whatever the
    decoders of the host return. *)
Theorem detectEncoding_highest_score (decodeFatal : list N -> option jstring)
    (decode : Encoding -> list N -> jstring) (bytes : list N) (e : Encoding) :
  candidateScore decodeFatal decode bytes e
  <= candidateScore decodeFatal decode bytes (detectEncoding decodeFatal decode bytes)
  /\ ((candidateRank e < candidateRank (detectEncoding decodeFatal decode bytes))%nat ->
      candidateScore decodeFatal decode bytes e
      < candidateScore decodeFatal decode bytes (detectEncoding decodeFatal decode bytes)).
Proof.
  unfold detectEncoding, CANDIDATES. cbn [detectLoop exceeds bestScore].
  set (s1 := candidateScore decodeFatal decode bytes utf_8).
  set (s2 := candidateScore decodeFatal decode bytes shift_jis).
  set (s3 := candidateScore decodeFatal decode bytes euc_jp).
  destruct (Z.ltb_spec s1 s2); cbn [exceeds bestScore].
  - destruct (Z.ltb_spec s2 s3); cbn [bestEncoding]; fold s2 s3;
      destruct e; fold s1 s2 s3; simpl; split; lia.
  - destruct (Z.ltb_spec s1 s3); cbn [bestEncoding]; fold s1 s3;
      destruct e; fold s1 s2 s3; simpl; split; lia.
Qed.

(** ** A text block that is never closed *)

Lemma startsWith_prefix (p s : jstring) : startsWith (p ++ s) p = true.
Proof. unfold startsWith. by rewrite stripPrefix_lit_app. Qed.

Lemma opensTag_text (trimmed suffix : jstring) :
  toLowerCase trimmed = lit "<text" ++ suffix ->
  opensTag trimmed (lit "text") = true
  /\ opensTag trimmed (lit "script") = false
  /\ opensTag trimmed (lit "style") = false.
Proof.
  intros H.
  assert (Ho : isLineOpeningTag trimmed (lit "text") = true).
  { unfold isLineOpeningTag. rewrite H.
    change (ch_lt :: lit "text") with (lit "<text"). by rewrite startsWith_prefix. }
  destruct (opening_closing_facts trimmed (lit "text")) as [Hc _]; [done | done|].
  destruct (Hc Ho) as [Hcl _].
  unfold opensTag. rewrite Ho, Hcl. split; [done|].
  unfold isLineOpeningTag. rewrite H. done.
Qed.

Section Unclosed.

Variable u : Z.
Variable lines : list jstring.
Variable infos : list LineInfo.
Variable s : nat.
Variable line_s : jstring.
Variable info_s : LineInfo.
Variable suffix : jstring.

Hypothesis Hinfos : length infos = length lines.
Hypothesis Hline : lines !! s = Some line_s.
Hypothesis Hinfo : infos !! s = Some info_s.
Hypothesis Hnot : Captured u lines infos s = false.
Hypothesis Hopen : toLowerCase (trimStart (rest info_s)) = lit "<text" ++ suffix.
Hypothesis Hnever :
  forall (j : nat) (info : LineInfo),
    (s < j)%nat -> infos !! j = Some info ->
    TEXT_CLOSE_RE_test (trimStart (rest info)) = false.

Lemma unclosed_start :
  inTextBlock (scanPrefix u lines infos (S s)) = true
  /\ inRawBlock (scanPrefix u lines infos (S s)) = false
  /\ exists b0, currentTextBlock (scanPrefix u lines infos (S s)) = Some b0
                /\ startLine b0 = S s.
Proof.
  rewrite (scanPrefix_S _ _ _ _ _ _ Hline Hinfo).
  unfold Captured in Hnot. rewrite Hline, Hinfo in Hnot.
  apply orb_false_elim in Hnot as [Ht Hr].
  destruct (opensTag_text _ _ Hopen) as (H1 & H2 & H3).
  unfold scanLine. rewrite Ht, Hr. cbv zeta.
  cbn [inTextBlock inRawBlock currentTextBlock orb].
  rewrite H1, H2, H3. cbn [orb]. split; [done|]. split; [done|].
  unfold openedBlock. rewrite H1, H2, H3. eexists. split; [reflexivity|]. simpl. lia.
Qed.

Lemma unclosed_step (j : nat) (line : jstring) (info : LineInfo) (st : ScanState) :
  (s < j)%nat -> infos !! j = Some info ->
  inTextBlock st = true -> inRawBlock st = false ->
  inTextBlock (scanLine u j line info st) = true
  /\ inRawBlock (scanLine u j line info st) = false
  /\ currentTextBlock (scanLine u j line info st) = currentTextBlock st
  /\ textBlocks (scanLine u j line info st) = textBlocks st
  /\ inTextBlock (closeCapture j line info st) = true.
Proof.
  intros Hj Hi Ht Hr.
  assert (Hc : closeCapture j line info st
               = {| level := level st; inComment := inComment st; inRawTag := inRawTag st;
                    inBlockComment := inBlockComment st; switches := switches st;
                    inTextBlock := true; inRawBlock := false;
                    currentTextBlock := currentTextBlock st; textBlocks := textBlocks st;
                    desiredIndents := desiredIndents st |}).
  { unfold closeCapture. by rewrite Ht, Hr, (Hnever j info Hj Hi). }
  unfold scanLine. rewrite Hc. done.
Qed.

Lemma unclosed_state (k : nat) :
  (S s + k <= length lines)%nat ->
  inTextBlock (scanPrefix u lines infos (S s + k)) = true
  /\ inRawBlock (scanPrefix u lines infos (S s + k)) = false
  /\ currentTextBlock (scanPrefix u lines infos (S s + k))
     = currentTextBlock (scanPrefix u lines infos (S s))
  /\ textBlocks (scanPrefix u lines infos (S s + k))
     = textBlocks (scanPrefix u lines infos (S s)).
Proof.
  induction k as [|k IH]; intros Hk.
  - rewrite Nat.add_0_r. destruct unclosed_start as (H1 & H2 & _). by repeat split.
  - destruct IH as (H1 & H2 & H3 & H4); [lia|].
    replace (S s + S k)%nat with (S (S s + k)) by lia.
    destruct (lookup_lt_is_Some_2 lines (S s + k)) as [line Hl]; [lia|].
    destruct (lookup_lt_is_Some_2 infos (S s + k)) as [info Hi]; [lia|].
    rewrite (scanPrefix_S _ _ _ _ _ _ Hl Hi).
    destruct (unclosed_step (S s + k) line info _ ltac:(lia) Hi H1 H2)
      as (G1 & G2 & G3 & G4 & _).
    by rewrite G1, G2, G3, G4.
Qed.

Lemma unclosed_captured (j : nat) :
  (s < j < length lines)%nat -> Captured u lines infos j = true.
Proof.
  intros Hj.
  destruct (lookup_lt_is_Some_2 lines j) as [line Hl]; [lia|].
  destruct (lookup_lt_is_Some_2 infos j) as [info Hi]; [lia|].
  destruct (unclosed_state (j - S s)) as (H1 & H2 & _); [lia|].
  replace (S s + (j - S s))%nat with j in H1, H2 by lia.
  destruct (unclosed_step j line info _ ltac:(lia) Hi H1 H2) as (_ & _ & _ & _ & G).
  unfold Captured. by rewrite Hl, Hi, G.
Qed.

Lemma unclosed_blocks (j : nat) (b : TextBlock) :
  (s < j)%nat ->
  In b (finishScan (length lines) (scanPrefix u lines infos (length lines))) ->
  skip b = true \/ ~ (startLine b <= j <= endLine b)%nat.
Proof.
  intros Hj Hin.
  assert (Hs : (S s <= length lines)%nat) by (apply lookup_lt_Some in Hline; lia).
  destruct (unclosed_state (length lines - S s)) as (H1 & H2 & H3 & H4); [lia|].
  replace (S s + (length lines - S s))%nat with (length lines) in H1, H2, H3, H4 by lia.
  destruct unclosed_start as (_ & _ & b0 & Hb0 & Hstart).
  pose proof (ScanInv_prefix u lines infos Hinfos (S s) Hs) as Hinv.
  destruct (inv_current _ _ _ _ _ Hinv b0 Hb0) as (_ & _ & _ & Hbefore).
  unfold finishScan in Hin. rewrite H1, H3, Hb0, H4 in Hin.
  apply in_app_or in Hin as [Hin | [<- | []]].
  - right. specialize (Hbefore b Hin). lia.
  - by left.
Qed.

End Unclosed.

(** X27.  A line that starts with [<text] (whatever follows: [<text>],
    a [text] element closed on the same line, [<textarea>]) and is handled
    by the document pass starts a block that only a closing [text] tag on
    a later line ends.  When no later line holds one, every later line
    keeps its original width. *)
Theorem text_block_never_closed (input : jstring) (options : FormatOptions) (s : nat)
    (info_s : LineInfo) (suffix : jstring) (j : nat) (info : LineInfo) :
  trLineInfos (trace input options) !! s = Some info_s ->
  Captured (trIndentSize (trace input options)) (trLines (trace input options))
    (trLineInfos (trace input options)) s = false ->
  toLowerCase (trimStart (rest info_s)) = lit "<text" ++ suffix ->
  (forall (k : nat) (x : LineInfo),
     (s < k)%nat -> trLineInfos (trace input options) !! k = Some x ->
     TEXT_CLOSE_RE_test (trimStart (rest x)) = false) ->
  (s < j)%nat -> trLineInfos (trace input options) !! j = Some info ->
  indents (trArrays (trace input options)) !! j = Some (Some (leadingWidth info)).
Proof.
  intros Hs Hnot Hopen Hnever Hj Hi.
  destruct (trace_lengths input options) as [Hlen _].
  destruct (lookup_lt_is_Some_2 (trLines (trace input options)) s) as [line_s Hl].
  { rewrite <- Hlen. by apply lookup_lt_Some in Hs. }
  apply trace_captured_restored; [done | |].
  - apply (unclosed_captured _ _ _ s line_s info_s suffix Hlen Hl Hs Hnot Hopen Hnever).
    split; [done|]. rewrite <- Hlen. by apply lookup_lt_Some in Hi.
  - right. intros b Hb. rewrite trace_textBlocks, trace_scan in Hb.
    by apply (unclosed_blocks _ _ _ s line_s info_s suffix Hlen Hl Hs Hnot Hopen Hnever j b).
Qed.

Lemma text_block_never_closed_witness :
  indents (trArrays (trace oneLineTextDoc (opts 4))) !! 3%nat
  = Some (Some (leadingWidth (analyzeLine (lit "  </p>") 4))).
Proof.
  apply (text_block_never_closed oneLineTextDoc (opts 4) 1
           (analyzeLine (lit "<text>hello</text>") 4) (lit ">hello</text>") 3
           (analyzeLine (lit "  </p>") 4)).
  - reflexivity.
  - reflexivity.
  - reflexivity.
  - intros k x Hk Hx.
    destruct k as [|[|[|[|[|k]]]]]; try lia; vm_compute in Hx;
      try discriminate; injection Hx as <-; reflexivity.
  - lia.
  - reflexivity.
Defined.

Example one_line_text_element_output :
  output (formatText oneLineTextDoc (opts 4))
  = doc ["<div>"; "    <text>hello</text>"; "<p>"; "  </p>"; "</div>"]%string.
Proof. vm_compute. reflexivity. Qed.

(** ** The line endings of the output *)

Lemma noLf_app (a b : jstring) : noLf (a ++ b) = noLf a && noLf b.
Proof. unfold noLf. apply forallb_app. Qed.

Lemma noLf_spaces (w : Z) : noLf (spaces w) = true.
Proof. unfold spaces. induction (Z.to_nat w) as [|k IH]; [done|]. exact IH. Qed.

Lemma noLf_dropWhile (f : N -> bool) (s : jstring) :
  noLf s = true -> noLf (dropWhile f s) = true.
Proof.
  destruct (dropWhile_suffix f s) as [pre E]. intros H. rewrite E, noLf_app in H.
  by apply andb_prop in H as [_ H].
Qed.

Lemma noLf_takeWhile (f : N -> bool) (s : jstring) :
  noLf s = true -> noLf (takeWhile f s) = true.
Proof.
  intros H. rewrite <- (takeWhile_dropWhile f s), noLf_app in H.
  by apply andb_prop in H as [H _].
Qed.

Lemma noLineTerminator_noLf (s : jstring) : noLineTerminator s = true -> noLf s = true.
Proof.
  unfold noLineTerminator, noLf. induction s as [|c s IH]; [done|].
  cbn [forallb]. intros H. apply andb_prop in H as [Hc Hs]. rewrite (IH Hs), andb_true_r.
  unfold isLineTerminator in Hc. apply negb_true_iff in Hc.
  apply orb_false_elim in Hc as [Hc _]. apply orb_false_elim in Hc as [Hc _].
  apply orb_false_elim in Hc as [H1 _]. unfold ch_lf. by rewrite H1.
Qed.

Lemma noLf_rest (line : jstring) (u : Z) :
  noLf line = true -> noLf (rest (analyzeLine line u)) = true.
Proof.
  intros H. unfold analyzeLine, matchLeadingRest.
  destruct (noLineTerminator _); [|done]. by apply noLf_dropWhile.
Qed.

Lemma noLf_makeIndentedLine (r : jstring) (w : Z) :
  noLf r = true -> noLf (makeIndentedLine r w) = true.
Proof.
  intros H. unfold makeIndentedLine. destruct (w <=? 0); [done|].
  by rewrite noLf_app, noLf_spaces, H.
Qed.

Lemma noLf_formatRawLineContent (r : jstring) :
  noLf r = true -> noLf (formatRawLineContent r) = true.
Proof.
  intros H. unfold formatRawLineContent.
  destruct (matchSwitchHeader (trimStart r)) as [inner|] eqn:E; [|done].
  apply matchSwitchHeader_noLineTerminator in E.
  unfold switchHeader. rewrite !noLf_app.
  by rewrite (noLineTerminator_noLf _ (noLineTerminator_trim _ E)).
Qed.

Lemma noLf_makeRazorTextIndentedLine (r : jstring) (w c : Z) :
  noLf r = true -> noLf (makeRazorTextIndentedLine r w c) = true.
Proof.
  intros H. unfold makeRazorTextIndentedLine.
  destruct (matchRazorText r) as [content|] eqn:E; [|by apply noLf_makeIndentedLine].
  assert (Hc : noLf content = true).
  { unfold matchRazorText in E. destruct (stripPrefix (lit "@:") r); [|done].
    destruct (noLineTerminator _) eqn:El; [|done]. injection E as <-.
    by apply noLineTerminator_noLf. }
  assert (Hi : noLf (if 0 <? w then spaces w else []) = true).
  { destruct (0 <? w); [apply noLf_spaces | done]. }
  destruct (isEmpty content).
  - by rewrite noLf_app, Hi.
  - rewrite !noLf_app, Hi, noLf_spaces. unfold trimStart.
    by rewrite (noLf_dropWhile isSpace content Hc).
Qed.

Lemma noLf_renderLine (arr : Arrays) (lines : list jstring) (u : Z) (i : nat)
    (line : jstring) :
  Forall (fun l => noLf l = true) lines ->
  noLf (renderLine arr (List.map (fun l => analyzeLine l u) lines) i line) = true.
Proof.
  intros H. unfold renderLine.
  assert (Hr : noLf (match List.map (fun l => analyzeLine l u) lines !! i with
                     | Some info => rest info
                     | None => []
                     end) = true).
  { destruct (List.map _ lines !! i) as [info|] eqn:E; [|done].
    apply lookup_map_Some in E as (l & Hl & ->). apply noLf_rest.
    rewrite Forall_lookup in H. by apply (H i). }
  destruct (default false _).
  - apply noLf_makeRazorTextIndentedLine.
    destruct (_ && negb true); [by apply noLf_formatRawLineContent | done].
  - apply noLf_makeIndentedLine.
    destruct (_ && negb false); [by apply noLf_formatRawLineContent | done].
Qed.

Lemma noLf_separatorFor (line : jstring) :
  noLf line = true -> noLf (separatorFor line) = true.
Proof.
  intros H. unfold separatorFor, matchRazorPrefix.
  destruct (startsWith _ _); [|done].
  by rewrite noLf_app, (noLf_takeWhile isSpace line H).
Qed.

Lemma noLf_insertSwitchBlankLines_go (lines : list jstring) (i : nat)
    (meta : list (option RawLineMeta)) (a b c : bool) :
  Forall (fun l => noLf l = true) lines ->
  Forall (fun l => noLf l = true) (fst (insertSwitchBlankLines_go lines i meta a b c)).
Proof.
  intros H. revert i a b c.
  induction H as [|l lines Hl _ IH]; intros i a b c; simpl; [constructor|].
  destruct (meta !! i) as [[m|]|]; simpl; try (constructor; [done | apply IH]).
  destruct (isRawBlock m); simpl; [|constructor; [done | apply IH]].
  destruct (isCaseOrDefault m && _ && _); simpl.
  - constructor; [by apply noLf_separatorFor|]. constructor; [done | apply IH].
  - constructor; [done | apply IH].
Qed.

Lemma everyLfAfterCr_line (l tail : jstring) (prev : bool) :
  noLf l = true -> (forall p, everyLfAfterCr p tail = true) ->
  everyLfAfterCr prev (l ++ tail) = true.
Proof.
  revert prev; induction l as [|c l IH]; intros prev H Ht; [apply Ht|].
  unfold noLf in H. cbn [forallb] in H. apply andb_prop in H as [Hc Hl].
  cbn [app everyLfAfterCr]. rewrite Hc. cbn [orb andb]. by apply IH.
Qed.

Lemma everyLfAfterCr_join (ls : list jstring) :
  Forall (fun l => noLf l = true) ls ->
  forall prev : bool, everyLfAfterCr prev (join CRLF ls) = true.
Proof.
  induction 1 as [|l ls Hl _ IH]; intros prev; [done|].
  destruct ls as [|l2 ls].
  - simpl. rewrite <- (app_nil_r l). by apply everyLfAfterCr_line.
  - rewrite join_cons by done. apply everyLfAfterCr_line; [done|].
    intros p. change (CRLF ++ join CRLF (l2 :: ls))
      with (ch_cr :: ch_lf :: join CRLF (l2 :: ls)).
    cbn [everyLfAfterCr]. rewrite IH. done.
Qed.

Lemma trace_noLf (input : jstring) (o : FormatOptions) :
  Forall (fun l => noLf l = true) (trSpacedLines (trace input o)).
Proof.
  assert (Hl : Forall (fun l => noLf l = true) (trLines (trace input o))).
  { rewrite trace_lines. induction input as [|c s IH]; simpl; [by constructor|].
    destruct (c =? ch_lf)%N eqn:E; [by constructor|].
    destruct ((c =? ch_cr)%N && startsWith s [ch_lf]); [done|].
    apply Forall_consHead; [| |done].
    - intros l Hl. unfold noLf. simpl. by rewrite E.
    - unfold noLf. simpl. by rewrite E. }
  rewrite trace_spacedLines. apply noLf_insertSwitchBlankLines_go.
  rewrite trace_outputLines, trace_lineInfos.
  apply Forall_lookup. intros i out Hout.
  rewrite list_lookup_imap in Hout.
  destruct (trLines (trace input o) !! i) as [line|]; [|done].
  injection Hout as <-. by apply noLf_renderLine.
Qed.

(** X28.  No line of the output holds a line feed, so the output has exactly
    one line break between two lines; and when the input holds a [\r\n]
    anywhere, every line break of the output is [\r\n]: a document with
    mixed line endings comes out with [\r\n] throughout. *)
Theorem output_line_endings (input : jstring) (options : FormatOptions) :
  Forall (fun l => noLf l = true) (trSpacedLines (trace input options))
  /\ output (formatText input options)
     = join (if includes input CRLF then CRLF else [ch_lf])
         (trSpacedLines (trace input options))
  /\ (includes input CRLF = true ->
      everyLfAfterCr false (output (formatText input options)) = true).
Proof.
  pose proof (trace_noLf input options) as H.
  assert (Hout : output (formatText input options)
                 = join (if includes input CRLF then CRLF else [ch_lf])
                     (trSpacedLines (trace input options))).
  { by rewrite formatText_output, trace_validation_ok. }
  split; [done|]. split; [done|].
  intros Hc. rewrite Hout, Hc. by apply everyLfAfterCr_join.
Qed.

Example mixed_line_endings_output :
  output (formatText (lit "<div>" ++ CRLF ++ lit "<p>" ++ [ch_lf] ++ lit "</p>"
                      ++ [ch_lf] ++ lit "</div>") (opts 2))
  = lit "<div>" ++ CRLF ++ lit "  <p>" ++ CRLF ++ lit "  </p>" ++ CRLF ++ lit "</div>".
Proof. vm_compute. reflexivity. Qed.

(** ** Splitting what [join] has put together *)

Lemma endsWithCr_cons (c : N) (s : jstring) :
  s <> [] -> endsWithCr (c :: s) = endsWithCr s.
Proof. by destruct s. Qed.

Lemma endsWithCr_app (a b : jstring) : b <> [] -> endsWithCr (a ++ b) = endsWithCr b.
Proof.
  intros Hb. induction a as [|c a IH]; [done|].
  cbn [app]. rewrite endsWithCr_cons; [done|]. by destruct a, b.
Qed.

Lemma endsWithCr_suffix (pre s : jstring) :
  endsWithCr s = true -> endsWithCr (pre ++ s) = true.
Proof. intros H. rewrite endsWithCr_app; [done|]. by destruct s. Qed.

Lemma endsWithCr_spaces (w : Z) : endsWithCr (spaces w) = false.
Proof.
  unfold spaces. induction (Z.to_nat w) as [|n IH]; [done|].
  cbn [repeat]. destruct n; [done|]. by rewrite endsWithCr_cons.
Qed.

Lemma noLf_cons (c : N) (l : jstring) :
  noLf (c :: l) = true -> (c =? ch_lf)%N = false /\ noLf l = true.
Proof.
  unfold noLf. cbn [forallb]. intros H. apply andb_prop in H as [H1 H2].
  by apply negb_true_iff in H1.
Qed.

Lemma splitOnNewlines_last (l : jstring) : noLf l = true -> splitOnNewlines l = [l].
Proof.
  induction l as [|c l IH]; [done|]. intros H. apply noLf_cons in H as [Hc Hl].
  cbn [splitOnNewlines]. rewrite Hc, (IH Hl).
  assert (Hs : startsWith l [ch_lf] = false).
  { rewrite startsWith_cons1. destruct l as [|d l]; [done|].
    apply noLf_cons in Hl as [Hd _]. by rewrite N.eqb_sym. }
  by rewrite Hs, andb_false_r.
Qed.

Lemma splitOnNewlines_line_crlf (l s : jstring) :
  noLf l = true -> splitOnNewlines (l ++ CRLF ++ s) = l :: splitOnNewlines s.
Proof.
  induction l as [|c l IH]; intros H.
  - reflexivity.
  - apply noLf_cons in H as [Hc Hl]. cbn [app splitOnNewlines]. rewrite Hc, (IH Hl).
    assert (Hs : startsWith (l ++ CRLF ++ s) [ch_lf] = false).
    { rewrite startsWith_cons1. destruct l as [|d l]; [done|].
      apply noLf_cons in Hl as [Hd _]. cbn [app]. by rewrite N.eqb_sym. }
    by rewrite Hs, andb_false_r.
Qed.

Lemma splitOnNewlines_line_lf (l s : jstring) :
  noLf l = true -> endsWithCr l = false ->
  splitOnNewlines (l ++ ch_lf :: s) = l :: splitOnNewlines s.
Proof.
  induction l as [|c l IH]; intros H Hcr; [done|].
  apply noLf_cons in H as [Hc Hl]. cbn [app splitOnNewlines]. rewrite Hc.
  assert (Hs : (c =? ch_cr)%N && startsWith (l ++ ch_lf :: s) [ch_lf] = false).
  { rewrite startsWith_cons1. destruct l as [|d l].
    - cbn [endsWithCr] in Hcr. by rewrite Hcr.
    - apply noLf_cons in Hl as [Hd _]. cbn [app]. rewrite (N.eqb_sym ch_lf d), Hd.
      apply andb_false_r. }
  rewrite Hs, IH; [done | done |].
  destruct l as [|d l]; [done|]. by rewrite endsWithCr_cons in Hcr.
Qed.

Lemma splitOnNewlines_join_crlf (ls : list jstring) :
  ls <> [] -> Forall (fun l => noLf l = true) ls ->
  splitOnNewlines (join CRLF ls) = ls.
Proof.
  intros Hne H. induction H as [|l ls Hl Hls IH]; [done|].
  destruct ls as [|l2 ls].
  - by apply splitOnNewlines_last.
  - rewrite join_cons by done. rewrite splitOnNewlines_line_crlf by done.
    by rewrite IH.
Qed.

Lemma splitOnNewlines_join_lf (ls : list jstring) :
  ls <> [] -> Forall (fun l => noLf l = true) ls -> innerNoCr ls = true ->
  splitOnNewlines (join [ch_lf] ls) = ls.
Proof.
  intros Hne H. induction H as [|l ls Hl Hls IH]; [done|]. intros Hcr.
  destruct ls as [|l2 ls].
  - by apply splitOnNewlines_last.
  - cbn [innerNoCr] in Hcr. apply andb_prop in Hcr as [Hcr Hin].
    apply negb_true_iff in Hcr.
    rewrite join_cons by done. cbn [app].
    rewrite splitOnNewlines_line_lf by done. by rewrite IH.
Qed.

(** ** No line of the output but the last ends with a carriage return
    unless the input has [\r\n] *)

Lemma innerNoCr_cons (l : jstring) (ls : list jstring) :
  ls <> [] -> innerNoCr (l :: ls) = negb (endsWithCr l) && innerNoCr ls.
Proof. by destruct ls. Qed.

Lemma innerNoCr_consHead (c : N) (ls : list jstring) :
  innerNoCr ls = true ->
  (c =? ch_cr)%N = false \/ (forall l2 ls', ls <> [] :: l2 :: ls') ->
  innerNoCr (consHead c ls) = true.
Proof.
  destruct ls as [|l ls]; [done|]. cbn [consHead].
  destruct ls as [|l2 ls]; [done|].
  change (innerNoCr (l :: l2 :: ls))
    with (negb (endsWithCr l) && innerNoCr (l2 :: ls)).
  change (innerNoCr ((c :: l) :: l2 :: ls))
    with (negb (endsWithCr (c :: l)) && innerNoCr (l2 :: ls)).
  intros H Hc. apply andb_prop in H as [H1 H2]. rewrite H2, andb_true_r.
  destruct l as [|d l]; [|by rewrite endsWithCr_cons].
  cbn [endsWithCr]. destruct Hc as [-> | Hc]; [done|]. by destruct (Hc l2 ls).
Qed.

Lemma splitOnNewlines_first_line (s : jstring) :
  includes s CRLF = false -> startsWith s [ch_lf] = false ->
  forall l2 ls', splitOnNewlines s <> [] :: l2 :: ls'.
Proof.
  intros Hinc Hlf l2 ls'. destruct s as [|d s]; [done|].
  cbn [splitOnNewlines]. rewrite startsWith_cons1 in Hlf.
  rewrite (N.eqb_sym ch_lf d) in Hlf. rewrite Hlf.
  cbn [includes] in Hinc. apply orb_false_elim in Hinc as [Hhere _].
  assert (Hs : (d =? ch_cr)%N && startsWith s [ch_lf] = false).
  { destruct (d =? ch_cr)%N eqn:Er; [|done]. apply N.eqb_eq in Er as ->.
    unfold CRLF in Hhere. rewrite startsWith_cons, N.eqb_refl in Hhere. exact Hhere. }
  rewrite Hs. by destruct (splitOnNewlines s).
Qed.

Lemma splitOnNewlines_innerNoCr (input : jstring) :
  includes input CRLF = false -> innerNoCr (splitOnNewlines input) = true.
Proof.
  induction input as [|c s IH]; [done|].
  intros H. cbn [includes] in H. apply orb_false_elim in H as [Hhere Hrest].
  specialize (IH Hrest). cbn [splitOnNewlines].
  pose proof (splitOnNewlines_nonempty s) as Hne.
  destruct (c =? ch_lf)%N eqn:Ec.
  - by rewrite innerNoCr_cons.
  - destruct (c =? ch_cr)%N eqn:Er.
    + apply N.eqb_eq in Er as ->.
      unfold CRLF in Hhere. rewrite startsWith_cons, N.eqb_refl in Hhere.
      cbn [andb] in Hhere. rewrite Hhere. cbn [andb].
      apply innerNoCr_consHead; [done|]. right. by apply splitOnNewlines_first_line.
    + cbn [andb]. apply innerNoCr_consHead; [done | by left].
Qed.

(** A rendered line ends with a carriage return only if its original line
    does. *)
Lemma endsWithCr_dropWhile (f : N -> bool) (s : jstring) :
  endsWithCr (dropWhile f s) = true -> endsWithCr s = true.
Proof.
  intros H. destruct (dropWhile_suffix f s) as [pre E]. rewrite E.
  by apply endsWithCr_suffix.
Qed.

Lemma endsWithCr_rest (line : jstring) (u : Z) :
  endsWithCr (rest (analyzeLine line u)) = true -> endsWithCr line = true.
Proof.
  unfold analyzeLine, matchLeadingRest.
  destruct (noLineTerminator _); cbn [rest]; [apply endsWithCr_dropWhile | done].
Qed.

Lemma endsWithCr_makeIndentedLine (r : jstring) (w : Z) :
  endsWithCr (makeIndentedLine r w) = true -> endsWithCr r = true.
Proof.
  unfold makeIndentedLine. destruct (w <=? 0); [done|].
  destruct r as [|c r]; [by rewrite app_nil_r, endsWithCr_spaces|].
  by rewrite endsWithCr_app.
Qed.

Lemma endsWithCr_formatRawLineContent (r : jstring) :
  endsWithCr (formatRawLineContent r) = true -> endsWithCr r = true.
Proof.
  unfold formatRawLineContent.
  destruct (matchSwitchHeader (trimStart r)) as [inner|]; [|done].
  unfold switchHeader. by rewrite app_assoc, endsWithCr_app.
Qed.

Lemma noLineTerminator_endsWithCr (s : jstring) :
  noLineTerminator s = true -> endsWithCr s = false.
Proof.
  unfold noLineTerminator. induction s as [|c s IH]; [done|].
  cbn [forallb]. intros H. apply andb_prop in H as [Hc Hs].
  destruct s as [|d s].
  - cbn [endsWithCr]. unfold isLineTerminator in Hc. apply negb_true_iff in Hc.
    apply orb_false_elim in Hc as [Hc _]. apply orb_false_elim in Hc as [Hc _].
    by apply orb_false_elim in Hc as [_ Hc].
  - rewrite endsWithCr_cons by done. by apply IH.
Qed.

Lemma endsWithCr_makeRazorTextIndentedLine (r : jstring) (w c : Z) :
  endsWithCr (makeRazorTextIndentedLine r w c) = true -> endsWithCr r = true.
Proof.
  unfold makeRazorTextIndentedLine.
  destruct (matchRazorText r) as [content|] eqn:E; [|apply endsWithCr_makeIndentedLine].
  intros H. exfalso.
  assert (Hc : noLineTerminator content = true).
  { unfold matchRazorText in E. destruct (stripPrefix (lit "@:") r); [|done].
    destruct (noLineTerminator (dropWhile isSpace _)) eqn:En; [|done].
    by injection E as <-. }
  destruct (isEmpty content).
  - rewrite endsWithCr_app in H by done. done.
  - destruct (trimStart content) as [|d t] eqn:Et.
    + rewrite app_nil_r in H. rewrite !app_assoc in H.
      destruct (spaces c) as [|x sp] eqn:Es.
      * rewrite app_nil_r in H. rewrite endsWithCr_app in H by done. done.
      * rewrite endsWithCr_app in H by done. rewrite <- Es, endsWithCr_spaces in H. done.
    + rewrite !app_assoc in H. rewrite endsWithCr_app in H by done.
      rewrite <- Et in H. apply endsWithCr_dropWhile in H.
      by rewrite (noLineTerminator_endsWithCr _ Hc) in H.
Qed.

Lemma endsWithCr_renderLine (arr : Arrays) (lines : list jstring) (u : Z) (i : nat)
    (line : jstring) :
  lines !! i = Some line ->
  endsWithCr (renderLine arr (List.map (fun l => analyzeLine l u) lines) i line) = true ->
  endsWithCr line = true.
Proof.
  intros Hl. unfold renderLine.
  rewrite (lookup_map_of (fun l => analyzeLine l u) lines i line Hl).
  intros H. apply (endsWithCr_rest line u).
  destruct (default false (indentAfterRazorPrefix arr !! i)).
  - rewrite andb_false_r in H. by apply endsWithCr_makeRazorTextIndentedLine in H.
  - apply endsWithCr_makeIndentedLine in H.
    destruct (isRawLine (rawLineMeta arr) i && negb false); [|done].
    by apply endsWithCr_formatRawLineContent.
Qed.

Lemma innerNoCr_imap (f : nat -> jstring -> jstring) (ls : list jstring) :
  (forall i l, ls !! i = Some l -> endsWithCr (f i l) = true -> endsWithCr l = true) ->
  innerNoCr ls = true -> innerNoCr (imap f ls) = true.
Proof.
  revert f; induction ls as [|l ls IH]; intros f Hf H; [done|].
  destruct ls as [|l2 ls]; [done|].
  rewrite innerNoCr_cons in H by done. apply andb_prop in H as [H1 H2].
  change (imap f (l :: l2 :: ls)) with (f 0%nat l :: imap (f ∘ S) (l2 :: ls)).
  rewrite innerNoCr_cons by done.
  rewrite (IH (f ∘ S)); [|intros i x Hx; apply (Hf (S i) x Hx)|done].
  rewrite andb_true_r. apply negb_true_iff. apply negb_true_iff in H1.
  destruct (endsWithCr (f 0%nat l)) eqn:E; [|done].
  by rewrite (Hf 0%nat l eq_refl E) in H1.
Qed.

Lemma endsWithCr_separatorFor (line : jstring) : endsWithCr (separatorFor line) = false.
Proof.
  unfold separatorFor. destruct (matchRazorPrefix line); [|done].
  by rewrite endsWithCr_app.
Qed.

Lemma insertSwitchBlankLines_go_nonempty (lines : list jstring) (i : nat)
    (meta : list (option RawLineMeta)) (a b c : bool) :
  lines <> [] -> fst (insertSwitchBlankLines_go lines i meta a b c) <> [].
Proof.
  destruct lines as [|l lines]; [done|]. intros _. cbn [insertSwitchBlankLines_go].
  destruct (meta !! i) as [[m|]|]; [|done|done].
  destruct (isRawBlock m); [|done].
  by destruct (isCaseOrDefault m && _ && _).
Qed.

Lemma innerNoCr_insertSwitchBlankLines_go (lines : list jstring) :
  innerNoCr lines = true ->
  forall (i : nat) (meta : list (option RawLineMeta)) (a b c : bool),
    innerNoCr (fst (insertSwitchBlankLines_go lines i meta a b c)) = true.
Proof.
  induction lines as [|l lines IH]; intros H i meta a b c; [done|].
  assert (Hline : forall a' b' c',
    innerNoCr (l :: fst (insertSwitchBlankLines_go lines (S i) meta a' b' c')) = true).
  { intros a' b' c'. destruct lines as [|l2 lines]; [done|].
    rewrite innerNoCr_cons in H by done. apply andb_prop in H as [H1 H2].
    rewrite innerNoCr_cons by (by apply insertSwitchBlankLines_go_nonempty).
    by rewrite H1, IH. }
  cbn [insertSwitchBlankLines_go].
  destruct (meta !! i) as [[m|]|]; cbn [fst]; [|apply Hline|apply Hline].
  destruct (isRawBlock m); cbn [fst]; [|apply Hline].
  destruct (isCaseOrDefault m && _ && _); cbn [fst]; [|apply Hline].
  rewrite innerNoCr_cons by done. by rewrite endsWithCr_separatorFor, Hline.
Qed.

(** ** The lines of the output are the lines [formatText] renders *)

Lemma trace_spacedLines_nonempty (input : jstring) (o : FormatOptions) :
  trSpacedLines (trace input o) <> [].
Proof.
  rewrite trace_spacedLines. apply insertSwitchBlankLines_go_nonempty.
  rewrite trace_outputLines. intros H. apply (f_equal length) in H.
  rewrite length_imap, trace_lines in H.
  pose proof (splitOnNewlines_nonempty input). by destruct (splitOnNewlines input).
Qed.

Lemma formatText_output_lines (input : jstring) (o : FormatOptions) :
  fst (splitLines (output (formatText input o))) = trSpacedLines (trace input o).
Proof.
  destruct (formatText_never_fails input o) as [_ ->].
  pose proof (trace_noLf input o) as Hlf.
  pose proof (trace_spacedLines_nonempty input o) as Hne.
  rewrite trace_lineEnding. unfold splitLines. cbn [fst].
  destruct (includes input CRLF) eqn:E.
  - by apply splitOnNewlines_join_crlf.
  - apply splitOnNewlines_join_lf; [done | done |].
    rewrite trace_spacedLines. apply innerNoCr_insertSwitchBlankLines_go.
    rewrite trace_outputLines, trace_lineInfos. apply innerNoCr_imap.
    + intros i l Hl. by apply endsWithCr_renderLine.
    + rewrite trace_lines. by apply splitOnNewlines_innerNoCr.
Qed.

Lemma trace_input_lines (input : jstring) (o : FormatOptions) :
  trLines (trace input o) = fst (splitLines input).
Proof. reflexivity. Qed.

(** C1.  Content preservation.  Whatever the input and the options,
    [formatText] either returns without an error, and then the lines of
    its output preserve the lines of the input: every input line has its
    output line, in the same order, equal to it after leading white space is
    stripped and the two permitted normalisations (the spacing after [@:],
    the spacing of a [switch (...) {] header) are applied, and the remaining
    output lines are blank or bare [@:] separators; or it returns an error
    together with the input itself. *)
Theorem content_preserved (input : jstring) (options : FormatOptions) :
  let r := formatText input options in
  (error r = None
   /\ Preserved (fst (splitLines input)) (fst (splitLines (output r))))
  \/ (error r <> None /\ output r = input).
Proof.
  intros r. subst r.
  destruct (error (formatText input options)) as [msg|] eqn:E.
  - right. split; [done|]. rewrite formatText_error in E. rewrite formatText_output.
    by destruct (ok _).
  - left. split; [done|].
    rewrite formatText_output_lines, <- (trace_input_lines input options).
    apply trace_preserved.
Qed.

(** Every input line has its counterpart in the output of a document
    with a raw block, a switch and a separator to insert. *)
Example content_preserved_lines :
  let input := doc ["<script>"; "switch(m){"; "  case 1:"; "break;"; "case 2:"; "}";
                    "</script>"]%string in
  fst (splitLines (output (formatText input (opts 4))))
  = List.map lit ["<script>"; "switch (m) {"; "    case 1:"; "        break;"; "";
                  "    case 2:"; "}"; "</script>"]%string.
Proof. vm_compute. reflexivity. Qed.

(** ** The number of lines of the output *)

Lemma trace_spaced (input : jstring) (o : FormatOptions) :
  Spaced (trLines (trace input o)) (trSpacedLines (trace input o)).
Proof.
  rewrite trace_spacedLines. apply insertSwitchBlankLines_go_spaced;
    [apply trace_rendered|].
  intros i m l Hm Hc Hl. simpl in Hm.
  destruct (trace_meta input o i m Hm) as (l' & Hl' & Hlab & _).
  rewrite Hl in Hl'. injection Hl' as <-. by apply label_not_blank, Hlab.
Qed.

Lemma Spaced_nonBlank (os fs : list jstring) :
  Spaced os fs ->
  length (List.filter nonBlank fs) = length (List.filter nonBlank os).
Proof.
  induction 1 as [|o f os fs _ Hb _ IH|sep o f os fs Hsep Ho _ Hf _ IH]; [done| |].
  - rewrite !filter_nonBlank_cons, Hb.
    destruct (isBlankLine o); cbn [length]; by rewrite IH.
  - rewrite !filter_nonBlank_cons, Hsep, Ho, Hf. cbn [length]. by rewrite IH.
Qed.

Lemma filter_length_le {A : Type} (f g : A -> bool) (l : list A) :
  (forall x, In x l -> f x = true -> g x = true) ->
  (length (List.filter f l) <= length (List.filter g l))%nat.
Proof.
  induction l as [|x l IH]; intros H; [done|]. cbn [List.filter].
  assert (IH' : (length (List.filter f l) <= length (List.filter g l))%nat).
  { apply IH. intros y Hy. apply H. by right. }
  destruct (f x) eqn:Ef.
  - rewrite (H x (or_introl eq_refl) Ef). simpl. lia.
  - destruct (g x); simpl; lia.
Qed.

Lemma separators_at_break_then_label (input : jstring) (o : FormatOptions) :
  (separatorsInserted input o <= breakThenLabelCount (fst (splitLines input)))%nat.
Proof.
  unfold separatorsInserted, separatorCount, breakThenLabelCount.
  cbv zeta. rewrite trace_outputLines at 2. rewrite length_imap, trace_input_lines.
  apply filter_length_le. intros i _ Hi.
  unfold separatorBefore in Hi. destruct i as [|j]; [done|].
  destruct (rawLineMeta (trArrays (trace input o)) !! S j) as [[m|]|] eqn:E1; [|done|done].
  destruct (rawLineMeta (trArrays (trace input o)) !! j) as [[mp|]|] eqn:E2; [|done|done].
  destruct (trOutputLines (trace input o) !! j); [|done].
  destruct (trace_meta input o _ _ E1) as (l2 & Hl2 & Hc & _).
  destruct (trace_meta input o _ _ E2) as (l1 & Hl1 & _ & Hb).
  rewrite trace_input_lines in Hl1, Hl2.
  unfold breakThenLabelAt. rewrite Hl1, Hl2.
  repeat (apply andb_prop in Hi as [Hi ?]).
  by rewrite Hb, Hc.
Qed.

(** C3.  Line count.  When [formatText] returns without an error, its
    output has as many lines as the input plus the number of separators of
    the switch/case spacing pass, one before every label of a raw block that
    directly follows a [break] line of the block.  The lines that are not
    blank are as many in the output as in the input, so what is added are
    separators only; there are at most as many separators as the input has
    [break] lines directly followed by a label, and when it has none the two
    line counts are equal. *)
Theorem line_count (input : jstring) (options : FormatOptions) :
  error (formatText input options) = None ->
  let inLines := fst (splitLines input) in
  let outLines := fst (splitLines (output (formatText input options))) in
  length outLines = (length inLines + separatorsInserted input options)%nat
  /\ length (List.filter nonBlank outLines) = length (List.filter nonBlank inLines)
  /\ (separatorsInserted input options <= breakThenLabelCount inLines)%nat
  /\ (NoBreakThenLabel inLines -> length outLines = length inLines).
Proof.
  intros _ inLines outLines. subst inLines outLines.
  rewrite formatText_output_lines.
  assert (Hlen : length (trSpacedLines (trace input options))
     = (length (fst (splitLines input)) + separatorsInserted input options)%nat).
  { rewrite trace_spacedLines, insertSwitchBlankLines_length.
    by rewrite trace_outputLines at 1; rewrite length_imap. }
  split; [done|]. split; [|split].
  - rewrite <- (trace_input_lines input options). apply Spaced_nonBlank, trace_spaced.
  - apply separators_at_break_then_label.
  - intros Hno. rewrite Hlen. unfold separatorsInserted, separatorCount. cbv zeta.
    rewrite filter_all_false; [simpl; lia|].
    apply (no_separator (trLines (trace input options))); [apply trace_meta | done].
Qed.

Lemma line_count_witness :
  (let input := doc ["<script>"; "switch(m){"; "case 1:"; "break;"; "case 2:"; "}";
                     "</script>"]%string in
   length (fst (splitLines input)) = 7%nat
   /\ length (fst (splitLines (output (formatText input (opts 4))))) = 8%nat
   /\ separatorsInserted input (opts 4) = 1%nat
   /\ breakThenLabelCount (fst (splitLines input)) = 1%nat)
  /\ (let input := doc ["<div>"; "if (a) {"; "break;"; "}"; "</div>"]%string in
      NoBreakThenLabel (fst (splitLines input))
      /\ length (fst (splitLines (output (formatText input (opts 4)))))
         = length (fst (splitLines input))).
Proof.
  split.
  - pose proof (line_count
      (doc ["<script>"; "switch(m){"; "case 1:"; "break;"; "case 2:"; "}";
            "</script>"]%string) (opts 4)) as H.
    assert (He : error (formatText
      (doc ["<script>"; "switch(m){"; "case 1:"; "break;"; "case 2:"; "}";
            "</script>"]%string) (opts 4)) = None) by (vm_compute; reflexivity).
    destruct (H He) as (H1 & _ & _ & _).
    intros input. split; [vm_compute; reflexivity|]. split; [|split; vm_compute; reflexivity].
    etrans; [exact H1|]. vm_compute. reflexivity.
  - assert (Hno : NoBreakThenLabel
      (fst (splitLines (doc ["<div>"; "if (a) {"; "break;"; "}"; "</div>"]%string)))).
    { intros j l1 l2 H1 H2 Hb Hl.
      do 4 (destruct j as [|j];
            [vm_compute in H1, H2; injection H1 as <-; injection H2 as <-;
             vm_compute in Hb, Hl; congruence|]).
      vm_compute in H2. destruct j; discriminate H2. }
    assert (He : error (formatText (doc ["<div>"; "if (a) {"; "break;"; "}"; "</div>"]%string)
                          (opts 4)) = None) by (vm_compute; reflexivity).
    intros input. split; [exact Hno|].
    exact (proj2 (proj2 (proj2
             (line_count (doc ["<div>"; "if (a) {"; "break;"; "}"; "</div>"]%string)
                (opts 4) He))) Hno).
Defined.

(** ** [formatText] always succeeds *)









(** With an indent size of [2^30] the second line asks for more spaces
    than a string of [2^29 - 24] units holds, and the call throws; with an
    indent size of [1e21] a line that is not indented is rendered, and the
    log prints the width it had as [String] does. *)
Example formatText_throws_beyond_the_limit :
  formatTextRun (2 ^ 29 - 24) (doc ["<div>"; "<p>"]%string) (opts 1073741824) = None
  /\ indents (trArrays (trace (doc ["<div>"; "<p>"]%string) (opts 1073741824))) !! 1%nat
     = Some (Some 1073741824).
Proof. split; lazy; reflexivity. Qed.

Example huge_indent_log :
  let r := formatText ([ch_tab] ++ lit "x") (opts (10 ^ 21)) in
  output r = lit "x"
  /\ logs r = [VALIDATION_OK; lit "Line 1: 1e+21 -> 0"].
Proof. vm_compute. done. Qed.
